(** * Verification of [api/web_hook/wiki_data_processor.py]

    A shallow embedding of the wiki data processor: the extractor
    [extract_wiki_structure_xml], the parser [parse_wiki_structure], the
    content normaliser [clean_and_format_content] and the report writer
    [generate_llms_txt], followed by the properties stated about them.

    Python strings are sequences of Unicode code points; they are modelled
    as lists of code points ([N]).  The regular expressions of the module are
    kept as syntax trees and run by a backtracking matcher with the priorities
    of Python's [re] engine (greedy and lazy repetition, leftmost match). *)

From Stdlib Require Import NArith Bool Ascii String Lia Arith List.
Import ListNotations.

Set Warnings "-register-all".

(* ===================================================================== *)
(** * Python strings *)
(* ===================================================================== *)

Module PyStr.

(** A code point, and a [str]. *)
Definition char := N.
Definition pystr := list N.

(** The code points of a Rocq string literal (one per byte; the literals
    used below are ASCII). *)
Definition of_string (s : string) : pystr :=
  List.map N_of_ascii (list_ascii_of_string s).

Definition LF : N := 10%N.
Definition SPACE : N := 32%N.
Definition DQUOTE : N := 34%N.
Definition BANG : N := 33%N.
Definition LPAREN : N := 40%N.
Definition RPAREN : N := 41%N.
Definition LT : N := 60%N.
Definition GT : N := 62%N.
Definition LBRACK : N := 91%N.
Definition RBRACK : N := 93%N.
Definition BACKTICK : N := 96%N.

Definition in_range (lo hi c : N) : bool := (N.leb lo c && N.leb c hi)%bool.

(** [Py_UNICODE_ISSPACE]: the test behind both [\s] of a [str] pattern and
    [str.strip()]. *)
Definition is_space (c : N) : bool :=
  (in_range 9 13 c || in_range 28 32 c || N.eqb c 133 || N.eqb c 160
   || N.eqb c 5760 || in_range 8192 8202 c || N.eqb c 8232 || N.eqb c 8233
   || N.eqb c 8239 || N.eqb c 8287 || N.eqb c 12288)%bool.

Fixpoint lstrip (s : pystr) : pystr :=
  match s with
  | c :: s' => if is_space c then lstrip s' else s
  | [] => []
  end.

Definition rstrip (s : pystr) : pystr := rev (lstrip (rev s)).

(** [s.strip()] *)
Definition strip (s : pystr) : pystr := rstrip (lstrip s).

Fixpoint eqb (a b : pystr) : bool :=
  match a, b with
  | [], [] => true
  | x :: a', y :: b' => (N.eqb x y && eqb a' b')%bool
  | _, _ => false
  end.

(** [s.startswith(p)] *)
Fixpoint startswith (p s : pystr) : bool :=
  match p, s with
  | [], _ => true
  | x :: p', y :: s' => (N.eqb x y && startswith p' s')%bool
  | _ :: _, [] => false
  end.

(** [s.endswith(p)] *)
Definition endswith (p s : pystr) : bool := startswith (rev p) (rev s).

(** [sep.join(parts)] *)
Fixpoint join (sep : pystr) (parts : list pystr) : pystr :=
  match parts with
  | [] => []
  | [x] => x
  | x :: rest => x ++ sep ++ join sep rest
  end.

(** [s * n] *)
Definition times (c : pystr) (n : nat) : pystr := List.concat (repeat c n).

(** [s.replace(a, b)] for single characters [a] and [b]. *)
Definition replace_char (a b : N) (s : pystr) : pystr :=
  List.map (fun c => if N.eqb c a then b else c) s.

(** [x in s] for a substring [x]. *)
Fixpoint contains (x s : pystr) : bool :=
  (startswith x s || match s with [] => false | _ :: s' => contains x s' end)%bool.

End PyStr.

Import PyStr.


(* ===================================================================== *)
(** * The [re] engine *)
(* ===================================================================== *)

Module Re.

(** Items of a bracketed class. *)
Inductive cls_item :=
| CChar (c : N)
| CRange (lo hi : N)
| CSpace        (* \s *)
| CNotSpace.    (* \S *)

(** One-character matchers. *)
Inductive atom :=
| Lit (c : N)
| Dot
| Cls (negated : bool) (items : list cls_item).

(** The patterns of the module repeat single-character atoms only, so
    repetition is over an [atom]. *)
Inductive regex :=
| Eps
| One (a : atom)
| Rep (greedy : bool) (at_least_one : bool) (a : atom)
| Opt (r : regex)                (* r?   *)
| Cat (r1 r2 : regex)
| Group (n : nat) (r : regex)    (* capturing group number n *)
| Bol                            (* ^ *)
| Eol.                           (* $ *)

Record flags := Flags { ignorecase : bool; dotall : bool; multiline : bool }.

Definition no_flags := Flags false false false.
Definition IGNORECASE := Flags true false false.
Definition DOTALL := Flags false true false.
Definition MULTILINE := Flags false false true.

(** A literal string as a pattern. *)
Fixpoint lit (s : pystr) : regex :=
  match s with
  | [] => Eps
  | [c] => One (Lit c)
  | c :: s' => Cat (One (Lit c)) (lit s')
  end.

Fixpoint cat (rs : list regex) : regex :=
  match rs with
  | [] => Eps
  | [r] => r
  | r :: rs' => Cat r (cat rs')
  end.

(** The code points that an ASCII letter of a pattern matches under
    [re.IGNORECASE] on a [str]: both cases, and the characters whose simple
    lower-case mapping is that letter or that [sre] lists as its equivalents
    (dotless and dotted i for [i], the Kelvin sign for [k], long s for [s]). *)
Definition case_variants (c : N) : list N :=
  let lower := if in_range 65 90 c then (c + 32)%N else c in
  if in_range 97 122 lower then
    lower :: (lower - 32)%N ::
      (if N.eqb lower 105 then [304; 305]
       else if N.eqb lower 107 then [8490]
       else if N.eqb lower 115 then [383]
       else [])%N
  else [c].

Definition lit_match (fl : flags) (c ch : N) : bool :=
  if ignorecase fl then existsb (N.eqb ch) (case_variants c) else N.eqb ch c.

Definition item_match (it : cls_item) (ch : N) : bool :=
  match it with
  | CChar c => N.eqb ch c
  | CRange lo hi => in_range lo hi ch
  | CSpace => is_space ch
  | CNotSpace => negb (is_space ch)
  end.

(** A class that holds no cased character is compiled to a case-sensitive
    test whatever the flags; every class of the module is of that kind. *)
Definition atom_match (fl : flags) (a : atom) (ch : N) : bool :=
  match a with
  | Lit c => lit_match fl c ch
  | Dot => if dotall fl then true else negb (N.eqb ch LF)
  | Cls neg items => xorb neg (existsb (fun it => item_match it ch) items)
  end.

(** Captured groups: number and text, most recent first. *)
Definition caps := list (nat * pystr).

Fixpoint group_text (n : nat) (cs : caps) : pystr :=
  match cs with
  | [] => []
  | (i, t) :: cs' => if Nat.eqb i n then t else group_text n cs'
  end.

(** The matcher is written in continuation-passing style: [k] is what
    remains to be matched; a failing continuation makes the matcher try its
    next alternative, in the order of the engine. The state is the previous
    character ([None] at the start of the subject), the rest of the subject
    and the groups captured so far. *)
Section Matcher.
Variable R : Type.
Definition cont := option N -> pystr -> caps -> option R.

Fixpoint rep_greedy (f : N -> bool) (p : option N) (s : pystr) (cs : caps)
    (k : cont) : option R :=
  match s with
  | c :: s' =>
      if f c then
        match rep_greedy f (Some c) s' cs k with
        | Some r => Some r
        | None => k p s cs
        end
      else k p s cs
  | [] => k p s cs
  end.

Fixpoint rep_lazy (f : N -> bool) (p : option N) (s : pystr) (cs : caps)
    (k : cont) : option R :=
  match k p s cs with
  | Some r => Some r
  | None =>
      match s with
      | c :: s' => if f c then rep_lazy f (Some c) s' cs k else None
      | [] => None
      end
  end.

Definition one (f : N -> bool) (p : option N) (s : pystr) (cs : caps)
    (k : cont) : option R :=
  match s with
  | c :: s' => if f c then k (Some c) s' cs else None
  | [] => None
  end.

Definition at_bol (fl : flags) (p : option N) : bool :=
  match p with
  | None => true
  | Some c => (multiline fl && N.eqb c LF)%bool
  end.

Definition at_eol (fl : flags) (s : pystr) : bool :=
  match s with
  | [] => true
  | c :: s' =>
      (N.eqb c LF && (multiline fl || match s' with [] => true | _ => false end))%bool
  end.

Fixpoint m (fl : flags) (r : regex) (p : option N) (s : pystr) (cs : caps)
    (k : cont) : option R :=
  match r with
  | Eps => k p s cs
  | One a => one (atom_match fl a) p s cs k
  | Rep g plus a =>
      let rep := if g then rep_greedy else rep_lazy in
      if plus
      then one (atom_match fl a) p s cs
             (fun p' s' cs' => rep (atom_match fl a) p' s' cs' k)
      else rep (atom_match fl a) p s cs k
  | Opt r' =>
      match m fl r' p s cs k with
      | Some x => Some x
      | None => k p s cs
      end
  | Cat r1 r2 => m fl r1 p s cs (fun p' s' cs' => m fl r2 p' s' cs' k)
  | Group n r' =>
      m fl r' p s cs
        (fun p' s' cs' =>
           k p' s' ((n, firstn (length s - length s') s) :: cs'))
  | Bol => if at_bol fl p then k p s cs else None
  | Eol => if at_eol fl s then k p s cs else None
  end.
End Matcher.

Arguments rep_greedy {R} f p s cs k.
Arguments rep_lazy {R} f p s cs k.
Arguments one {R} f p s cs k.
Arguments m {R} fl r p s cs k.

(** A compiled pattern: the syntax tree and the flags. *)
Record pattern := Pattern { pat_re : regex; pat_flags : flags }.

(** The match of [pt] that starts at the current position, if any: the
    unmatched rest of the subject and the groups. *)
Definition match_at (pt : pattern) (p : option N) (s : pystr)
  : option (pystr * caps) :=
  m (pat_flags pt) (pat_re pt) p s [] (fun _ s' cs => Some (s', cs)).

(** [re.search]: the text of the leftmost match. *)
Fixpoint search_from (pt : pattern) (p : option N) (s : pystr) : option pystr :=
  match match_at pt p s with
  | Some (rest, _) => Some (firstn (length s - length rest) s)
  | None =>
      match s with
      | [] => None
      | c :: s' => search_from pt (Some c) s'
      end
  end.

Definition search (pt : pattern) (s : pystr) : option pystr :=
  search_from pt None s.

(** Replacement templates: literal text and group references. *)
Inductive repl_item := RText (t : pystr) | RGroup (n : nat).

Fixpoint expand (tpl : list repl_item) (cs : caps) : pystr :=
  match tpl with
  | [] => []
  | RText t :: tpl' => t ++ expand tpl' cs
  | RGroup n :: tpl' => group_text n cs ++ expand tpl' cs
  end.

(** [re.sub]: every non-overlapping match, leftmost first, is replaced.
    [skip] counts the characters of the current match still to be passed
    over. An empty match is replaced and the scan moves one character on
    (no pattern of the module can match the empty string, see
    [no_empty_match]). *)
Fixpoint sub_from (pt : pattern) (tpl : list repl_item) (skip : nat)
    (p : option N) (s : pystr) : pystr :=
  match s with
  | [] =>
      match skip with
      | O => match match_at pt p [] with
             | Some (_, cs) => expand tpl cs
             | None => []
             end
      | S _ => []
      end
  | c :: s' =>
      match skip with
      | S j => sub_from pt tpl j (Some c) s'
      | O =>
          match match_at pt p s with
          | Some (rest, cs) =>
              expand tpl cs ++
              match length s - length rest with
              | O => c :: sub_from pt tpl 0 (Some c) s'
              | S j => sub_from pt tpl j (Some c) s'
              end
          | None => c :: sub_from pt tpl 0 (Some c) s'
          end
      end
  end.

Definition sub (pt : pattern) (tpl : list repl_item) (s : pystr) : pystr :=
  sub_from pt tpl 0 None s.

End Re.

Import Re.

(* ===================================================================== *)
(** * Exceptions and results *)
(* ===================================================================== *)

Inductive exn :=
| ValueError (msg : pystr)
| ParseError            (* xml.etree.ElementTree.ParseError *)
| AttributeError
| TypeError
| UnicodeEncodeError
| OSError (errno : N).

Inductive result (A : Type) :=
| Return (a : A)
| Raise (e : exn).
Arguments Return {A} a.
Arguments Raise {A} e.

(* ===================================================================== *)
(** * The patterns of the module *)
(* ===================================================================== *)

Module Patterns.

Definition ws : atom := Cls false [CSpace].                 (* \s *)
Definition star (a : atom) := Rep true false a.              (* a*  *)
Definition plus (a : atom) := Rep true true a.               (* a+  *)
Definition lazy_star (a : atom) := Rep false false a.        (* a*? *)

(** [^```(?:xml)?\s*], re.IGNORECASE *)
Definition fence_open : pattern :=
  Pattern (cat [Bol; lit (of_string "```"); Opt (lit (of_string "xml")); star ws])
          IGNORECASE.

(** [```\s*$], re.IGNORECASE *)
Definition fence_close : pattern :=
  Pattern (cat [lit (of_string "```"); star ws; Eol]) IGNORECASE.

Definition START_MARKER := of_string "<wiki_structure>".
Definition END_MARKER := of_string "</wiki_structure>".

(** [<wiki_structure>[\s\S]*?</wiki_structure>], re.MULTILINE *)
Definition wiki_block : pattern :=
  Pattern (cat [lit START_MARKER; lazy_star (Cls false [CSpace; CNotSpace]);
                lit END_MARKER])
          MULTILINE.

(** [[\x00-\x08\x0B\x0C\x0E-\x1F\x7F]] *)
Definition control_chars : pattern :=
  Pattern (One (Cls false [CRange 0 8; CChar 11; CChar 12; CRange 14 31; CChar 127]))
          no_flags.

(** [<details>.*?</details>], re.DOTALL *)
Definition details_block : pattern :=
  Pattern (cat [lit (of_string "<details>"); lazy_star Dot;
                lit (of_string "</details>")])
          DOTALL.

(** [`Sources?: \[[^\]]*?\]\([^)]*?\)`], re.IGNORECASE *)
Definition sources_marker : pattern :=
  Pattern (cat [lit (of_string "`Source"); Opt (lit (of_string "s"));
                lit (of_string ": ["); lazy_star (Cls true [CChar RBRACK]);
                lit (of_string "]("); lazy_star (Cls true [CChar RPAREN]);
                lit (of_string ")`")])
          IGNORECASE.

(** [!\[.*?\]\(.*?\)] *)
Definition image_markup : pattern :=
  Pattern (cat [lit (of_string "!["); lazy_star Dot; lit (of_string "](");
                lazy_star Dot; lit (of_string ")")])
          no_flags.

(** [\[(.*?)\]\(https?://[^\s)]+\)] *)
Definition http_link : pattern :=
  Pattern (cat [lit (of_string "["); Group 1 (lazy_star Dot);
                lit (of_string "](http"); Opt (lit (of_string "s"));
                lit (of_string "://"); plus (Cls true [CSpace; CChar RPAREN]);
                lit (of_string ")")])
          no_flags.

(** [<[^>]*>] *)
Definition angle_tag : pattern :=
  Pattern (cat [lit [LT]; star (Cls true [CChar GT]); lit [GT]]) no_flags.

(** [```mermaid.*?```], re.DOTALL *)
Definition mermaid_block : pattern :=
  Pattern (cat [lit (of_string "```mermaid"); lazy_star Dot;
                lit (of_string "```")])
          DOTALL.

(** [\s+] *)
Definition whitespace_run : pattern := Pattern (plus ws) no_flags.

(** [\n\s*\n] *)
Definition blank_lines : pattern :=
  Pattern (cat [lit [LF]; star ws; lit [LF]]) no_flags.

End Patterns.

Import Patterns.

(* ===================================================================== *)
(** * [extract_wiki_structure_xml] *)
(* ===================================================================== *)

Definition MSG_EMPTY := of_string "Wiki structure response is empty".
Definition MSG_NO_XML := of_string "No valid XML structure found in AI response".

(** The argument is a [str], so [str(x)] is [x] and [not x] is [x == ""].
    The calls to the logger are left out: they do not change the result. *)
Definition extract_wiki_structure_xml (wiki_structure_response : pystr)
  : result pystr :=
  match wiki_structure_response with
  | [] => Raise (ValueError MSG_EMPTY)
  | _ =>
    match strip wiki_structure_response with
    | [] => Raise (ValueError MSG_EMPTY)
    | _ =>
      let r1 := sub fence_open [] wiki_structure_response in
      let r2 := sub fence_close [] r1 in
      match search wiki_block r2 with
      | None => Raise (ValueError MSG_NO_XML)
      | Some xml_match => Return (sub control_chars [] xml_match)
      end
    end
  end.

(* ===================================================================== *)
(** * [clean_and_format_content] *)
(* ===================================================================== *)

Definition remove_details (s : pystr) := sub details_block [] s.
Definition remove_sources (s : pystr) := sub sources_marker [] s.
Definition remove_images (s : pystr) := sub image_markup [] s.
Definition unwrap_links (s : pystr) := sub http_link [RGroup 1] s.
Definition remove_tags (s : pystr) := sub angle_tag [] s.
Definition remove_mermaid (s : pystr) := sub mermaid_block [] s.
Definition collapse_whitespace (s : pystr) := sub whitespace_run [RText [SPACE]] s.
Definition collapse_blank_lines (s : pystr) := sub blank_lines [RText [LF; LF]] s.

(** The text after the six markup substitutions and the whitespace
    substitution, before the blank-line substitution and the trim. *)
Definition clean_upto_whitespace (content : pystr) : pystr :=
  collapse_whitespace
    (remove_mermaid
       (remove_tags
          (unwrap_links
             (remove_images
                (remove_sources
                   (remove_details content)))))).

(** The function on a [str] argument (on any other object it returns the
    argument unchanged after a warning; see [clean_and_format_content_any]
    below). *)
Definition clean_and_format_content (content : pystr) : pystr :=
  strip (collapse_blank_lines (clean_upto_whitespace content)).

(* ===================================================================== *)
(** * [xml.etree.ElementTree] *)
(* ===================================================================== *)

Module ET.

(** An [Element]: tag, attributes in document order, text before the first
    child, children, and the text that follows the end tag. Missing text is
    Python's [None]. *)
Inductive Element :=
| Elem (tag : pystr) (attrib : list (pystr * pystr)) (text : option pystr)
       (children : list Element) (tail : option pystr).

Definition tag (e : Element) := let 'Elem t _ _ _ _ := e in t.
Definition attrib (e : Element) := let 'Elem _ a _ _ _ := e in a.
Definition text (e : Element) := let 'Elem _ _ x _ _ := e in x.
Definition children (e : Element) := let 'Elem _ _ _ c _ := e in c.
Definition tail (e : Element) := let 'Elem _ _ _ _ x := e in x.

Fixpoint assoc (key : pystr) (l : list (pystr * pystr)) : option pystr :=
  match l with
  | [] => None
  | (k, v) :: l' => if PyStr.eqb k key then Some v else assoc key l'
  end.

(** [elem.get(key, default)] *)
Definition get (e : Element) (key default : pystr) : pystr :=
  match assoc key (attrib e) with
  | Some v => v
  | None => default
  end.

(** [elem.find(name)]: the first child with that tag. *)
Definition find (e : Element) (name : pystr) : option Element :=
  List.find (fun c => PyStr.eqb (tag c) name) (children e).

(** [elem.findtext(name, default)]: the text of the first child with that
    tag, the empty string when that child has no text, [default] when there
    is no such child. *)
Definition findtext (e : Element) (name default : pystr) : pystr :=
  match find e name with
  | Some c => match text c with
              | Some t => t
              | None => []
              end
  | None => default
  end.

(** Every element below [e], in document order. *)
Fixpoint descendants (e : Element) : list Element :=
  match e with
  | Elem _ _ _ cs _ => flat_map (fun c => c :: descendants c) cs
  end.

(** [elem.findall('.//name')] *)
Definition findall_below (e : Element) (name : pystr) : list Element :=
  filter (fun c => PyStr.eqb (tag c) name) (descendants e).

(** ** [fromstring]

    The parser is modelled on documents made of start tags with quoted
    attributes, end tags, empty-element tags and character data. [None]
    stands for a document outside that fragment (references, comments,
    processing instructions, CDATA sections, declarations, namespaces,
    names that are not ASCII, carriage returns, characters that XML
    forbids); [Some (Raise ParseError)] for one that is not well formed. *)

Inductive token :=
| TStart (name : pystr) (attrs : list (pystr * pystr))
| TEnd (name : pystr)
| TEmptyElem (name : pystr) (attrs : list (pystr * pystr))
| TText (t : pystr).

Definition AMP : N := 38%N.
Definition SQUOTE : N := 39%N.
Definition SLASH : N := 47%N.
Definition EQUALS : N := 61%N.
Definition QMARK : N := 63%N.
Definition TAB : N := 9%N.

Definition xml_space (c : N) : bool := (N.eqb c SPACE || N.eqb c TAB || N.eqb c LF)%bool.

Definition supported_char (c : N) : bool :=
  ((N.eqb c TAB || N.eqb c LF || in_range 32 55295 c
    || in_range 57344 65533 c || in_range 65536 1114111 c)
   && negb (N.eqb c AMP))%bool.

Definition name_start (c : N) : bool :=
  (in_range 65 90 c || in_range 97 122 c || N.eqb c 95)%bool.

Definition name_char (c : N) : bool :=
  (name_start c || in_range 48 57 c || N.eqb c 45 || N.eqb c 46)%bool.

Fixpoint span (f : N -> bool) (s : pystr) : pystr * pystr :=
  match s with
  | c :: s' => if f c then let (a, b) := span f s' in (c :: a, b) else ([], s)
  | [] => ([], [])
  end.

(** A name read from the front of [s]. *)
Definition read_name (s : pystr) : option (result (pystr * pystr)) :=
  let (nm, rest) :=
    span (fun c => negb (xml_space c || N.eqb c EQUALS || N.eqb c SLASH
                         || N.eqb c DQUOTE || N.eqb c SQUOTE)) s in
  if existsb (fun c => (N.leb 128 c || N.eqb c 58)%bool) nm then None
  else if PyStr.eqb nm (of_string "xmlns") then None
  else match nm with
       | c :: _ =>
           if (name_start c && forallb name_char nm)%bool
           then Some (Return (nm, rest))
           else Some (Raise ParseError)
       | [] => Some (Raise ParseError)
       end.

(** The attributes of a start tag; [fuel] bounds their number. The result
    tells whether the tag ends in [/]. *)
Fixpoint read_attrs (fuel : nat) (s : pystr) (acc : list (pystr * pystr))
  : option (result (list (pystr * pystr) * bool)) :=
  let (sp, rest) := span xml_space s in
  match rest with
  | [] => Some (Return (rev acc, false))
  | c :: rest' =>
      if N.eqb c SLASH then
        match rest' with
        | [] => Some (Return (rev acc, true))
        | _ => Some (Raise ParseError)
        end
      else
        match sp, fuel with
        | [], _ => Some (Raise ParseError)
        | _, O => None
        | _, S fuel' =>
            match read_name rest with
            | None => None
            | Some (Raise e) => Some (Raise e)
            | Some (Return (nm, s1)) =>
                let (_, s2) := span xml_space s1 in
                match s2 with
                | e :: s3 =>
                    if N.eqb e EQUALS then
                      let (_, s4) := span xml_space s3 in
                      match s4 with
                      | q :: s5 =>
                          if (N.eqb q DQUOTE || N.eqb q SQUOTE)%bool then
                            let (v, s6) := span (fun x => negb (N.eqb x q)) s5 in
                            match s6 with
                            | _ :: s7 =>
                                match assoc nm acc with
                                | Some _ => Some (Raise ParseError)
                                | None =>
                                    read_attrs fuel' s7
                                      ((nm, List.map (fun x => if xml_space x then SPACE else x) v)
                                       :: acc)
                                end
                            | [] => Some (Raise ParseError)
                            end
                          else Some (Raise ParseError)
                      | [] => Some (Raise ParseError)
                      end
                    else Some (Raise ParseError)
                | [] => Some (Raise ParseError)
                end
            end
        end
  end.

(** The token of the text between [<] and [>]. *)
Definition read_tag (body : pystr) : option (result token) :=
  match body with
  | c :: body' =>
      if (N.eqb c BANG || N.eqb c QMARK)%bool then None
      else if N.eqb c SLASH then
        match read_name body' with
        | None => None
        | Some (Raise e) => Some (Raise e)
        | Some (Return (nm, rest)) =>
            if forallb xml_space rest then Some (Return (TEnd nm))
            else Some (Raise ParseError)
        end
      else
        match read_name body with
        | None => None
        | Some (Raise e) => Some (Raise e)
        | Some (Return (nm, rest)) =>
            match read_attrs (length rest) rest [] with
            | None => None
            | Some (Raise e) => Some (Raise e)
            | Some (Return (attrs, true)) => Some (Return (TEmptyElem nm attrs))
            | Some (Return (attrs, false)) => Some (Return (TStart nm attrs))
            end
        end
  | [] => Some (Raise ParseError)
  end.

(** The text of a tag up to its closing [>]; [q] is the quote that is open. *)
Fixpoint scan_tag (q : option N) (acc : pystr) (s : pystr)
  : option (result (pystr * pystr)) :=
  match s with
  | [] => Some (Raise ParseError)
  | c :: s' =>
      if N.eqb c LT then Some (Raise ParseError)
      else match q with
           | Some qc =>
               if N.eqb c GT then None
               else scan_tag (if N.eqb c qc then None else q) (c :: acc) s'
           | None =>
               if N.eqb c GT then Some (Return (rev acc, s'))
               else scan_tag (if (N.eqb c DQUOTE || N.eqb c SQUOTE)%bool
                              then Some c else None) (c :: acc) s'
           end
  end.

Fixpoint tokenize (fuel : nat) (s : pystr) : option (result (list token)) :=
  match fuel with
  | O => None
  | S fuel' =>
      match s with
      | [] => Some (Return [])
      | c :: s' =>
          if N.eqb c LT then
            match scan_tag None [] s' with
            | None => None
            | Some (Raise e) => Some (Raise e)
            | Some (Return (body, rest)) =>
                match read_tag body with
                | None => None
                | Some (Raise e) => Some (Raise e)
                | Some (Return tk) =>
                    match tokenize fuel' rest with
                    | Some (Return tks) => Some (Return (tk :: tks))
                    | other => other
                    end
                end
            end
          else
            let (t, rest) := span (fun x => negb (N.eqb x LT)) s in
            match tokenize fuel' rest with
            | Some (Return tks) => Some (Return (TText t :: tks))
            | other => other
            end
      end
  end.

(** An element under construction: its children are kept last first. *)
Record frame := Frame {
  f_tag : pystr;
  f_attrib : list (pystr * pystr);
  f_text : option pystr;
  f_children : list Element
}.

Definition close_frame (f : frame) : Element :=
  Elem (f_tag f) (f_attrib f) (f_text f) (rev (f_children f)) None.

Definition add_child (e : Element) (f : frame) : frame :=
  Frame (f_tag f) (f_attrib f) (f_text f) (e :: f_children f).

(** Character data goes to the text of the open element, or to the tail of
    its last child when it has one. *)
Definition add_text (t : pystr) (f : frame) : frame :=
  match f_children f with
  | [] => Frame (f_tag f) (f_attrib f) (Some t) []
  | Elem g a x cs _ :: rest =>
      Frame (f_tag f) (f_attrib f) (f_text f) (Elem g a x cs (Some t) :: rest)
  end.

Fixpoint build (tks : list token) (stack : list frame) (root : option Element)
  : result Element :=
  match tks with
  | [] =>
      match stack, root with
      | [], Some e => Return e
      | _, _ => Raise ParseError
      end
  | TText t :: tks' =>
      match stack with
      | f :: stack' => build tks' (add_text t f :: stack') root
      | [] => if forallb xml_space t then build tks' [] root else Raise ParseError
      end
  | TStart nm attrs :: tks' =>
      match stack, root with
      | [], Some _ => Raise ParseError
      | _, _ => build tks' (Frame nm attrs None [] :: stack) root
      end
  | TEmptyElem nm attrs :: tks' =>
      match stack, root with
      | [], Some _ => Raise ParseError
      | [], None => build tks' [] (Some (Elem nm attrs None [] None))
      | f :: stack', _ => build tks' (add_child (Elem nm attrs None [] None) f :: stack') root
      end
  | TEnd nm :: tks' =>
      match stack with
      | [] => Raise ParseError
      | f :: stack' =>
          if PyStr.eqb (f_tag f) nm then
            match stack' with
            | [] => build tks' [] (Some (close_frame f))
            | g :: stack'' => build tks' (add_child (close_frame f) g :: stack'') root
            end
          else Raise ParseError
      end
  end.

Definition fromstring (xml_text : pystr) : option (result Element) :=
  if negb (forallb supported_char xml_text) then None
  else if contains (of_string "]]>") xml_text then None
  else
    match tokenize (S (length xml_text)) xml_text with
    | None => None
    | Some (Raise e) => Some (Raise e)
    | Some (Return tks) => Some (build tks [] None)
    end.

End ET.

(* ===================================================================== *)
(** * [parse_wiki_structure] *)
(* ===================================================================== *)

(** The dict built for a page, with its six keys. *)
Record Page := mkPage {
  page_id : pystr;
  page_title : pystr;
  page_description : pystr;
  page_importance : pystr;
  page_file_paths : list pystr;
  page_related_pages : list pystr
}.

(** [[e.text for e in page_el.findall('.//name') if e.text]] *)
Definition texts_below (page_el : ET.Element) (name : pystr) : list pystr :=
  flat_map (fun e => match ET.text e with
                     | Some (c :: t) => [c :: t]
                     | _ => []
                     end)
           (ET.findall_below page_el name).

Definition page_of_element (page_el : ET.Element) : Page :=
  mkPage (ET.get page_el (of_string "id") [])
         (ET.findtext page_el (of_string "title") [])
         (ET.findtext page_el (of_string "description") [])
         (ET.findtext page_el (of_string "importance") (of_string "medium"))
         (texts_below page_el (of_string "file_path"))
         (texts_below page_el (of_string "related")).

(** The body of [parse_wiki_structure] after [ET.fromstring]. *)
Definition parse_root (root : ET.Element) : pystr * pystr * list Page :=
  (ET.findtext root (of_string "title") [],
   ET.findtext root (of_string "description") [],
   List.map page_of_element (ET.findall_below root (of_string "page"))).

(** [None]: the text is outside the fragment of XML that [ET.fromstring]
    is modelled on. *)
Definition parse_wiki_structure (xml_text : pystr)
  : option (result (pystr * pystr * list Page)) :=
  match ET.fromstring xml_text with
  | None => None
  | Some (Raise e) => Some (Raise e)
  | Some (Return root) => Some (Return (parse_root root))
  end.

(* ===================================================================== *)
(** * Python objects *)
(* ===================================================================== *)

(** The objects that the page data handed to the report writer may hold. *)
Inductive PyVal :=
| VNone
| VBool (b : bool)
| VInt (z : Z)
| VStr (s : pystr)
| VList (items : list PyVal)
| VDict (items : list (PyVal * PyVal)).

(** [d.get(key, default)] for a [str] key: a key of another type is never
    equal to it. *)
Fixpoint dict_get (d : list (PyVal * PyVal)) (key : pystr) (default : PyVal) : PyVal :=
  match d with
  | [] => default
  | (VStr k, v) :: d' => if PyStr.eqb k key then v else dict_get d' key default
  | _ :: d' => dict_get d' key default
  end.

(** [len(x)]: numbers, [None] and booleans have no length. *)
Definition py_len (v : PyVal) : result nat :=
  match v with
  | VStr s => Return (length s)
  | VList l => Return (length l)
  | VDict d => Return (length d)
  | _ => Raise TypeError
  end.

(** [sep.join(l)]: every item has to be a [str]. *)
Fixpoint strs_of (l : list PyVal) : result (list pystr) :=
  match l with
  | [] => Return []
  | VStr s :: l' =>
      match strs_of l' with
      | Return ss => Return (s :: ss)
      | Raise e => Raise e
      end
  | _ :: _ => Raise TypeError
  end.

Definition py_join (sep : pystr) (l : list PyVal) : result pystr :=
  match strs_of l with
  | Return ss => Return (join sep ss)
  | Raise e => Raise e
  end.

(* ===================================================================== *)
(** * The world of the report writer *)
(* ===================================================================== *)

Inductive level := INFO | WARNING | ERROR.

(** A log record: level, message, and the exception logged with it. *)
Record log_record := Log {
  log_level : level;
  log_message : pystr;
  log_exc : option exn
}.

(** The file system and the log. [w_faults n] is the [errno] with which the
    [n]-th call to the operating system fails, when it does. *)
Record world := World {
  w_faults : nat -> option N;
  w_calls : nat;
  w_dirs : list pystr;
  w_files : list (pystr * pystr);
  w_open : list pystr;
  w_log : list log_record
}.

(** A computation that may raise; the world survives the exception. *)
Definition IO (A : Type) := world -> world * result A.

Definition ret {A} (a : A) : IO A := fun w => (w, Return a).

Definition bind {A B} (c : IO A) (k : A -> IO B) : IO B :=
  fun w => match c w with
           | (w', Return a) => k a w'
           | (w', Raise e) => (w', Raise e)
           end.

Notation "x <- c ;; k" := (bind c (fun x => k))
  (at level 61, c at next level, right associativity).
Notation "c ;;; k" := (bind c (fun _ => k))
  (at level 61, right associativity).

Definition lift {A} (r : result A) : IO A := fun w => (w, r).

(** [try: c except Exception as e: h(e)] *)
Definition try_except {A} (c : IO A) (h : exn -> IO A) : IO A :=
  fun w => match c w with
           | (w', Return a) => (w', Return a)
           | (w', Raise e) => h e w'
           end.

Definition add_log (r : log_record) : IO unit :=
  fun w => (World (w_faults w) (w_calls w) (w_dirs w) (w_files w) (w_open w)
                  (w_log w ++ [r]), Return tt).

(** One call to the operating system. *)
Definition os_call : IO unit :=
  fun w =>
    let w' := World (w_faults w) (S (w_calls w)) (w_dirs w) (w_files w)
                    (w_open w) (w_log w) in
    match w_faults w (w_calls w) with
    | Some errno => (w', Raise (OSError errno))
    | None => (w', Return tt)
    end.

Fixpoint file_content (files : list (pystr * pystr)) (path : pystr) : option pystr :=
  match files with
  | [] => None
  | (p, c) :: files' => if PyStr.eqb p path then Some c else file_content files' path
  end.

Definition set_file (files : list (pystr * pystr)) (path content : pystr) :=
  (path, content) :: filter (fun pc => negb (PyStr.eqb (fst pc) path)) files.

(** [os.makedirs(d, exist_ok=True)] *)
Definition makedirs (d : pystr) : IO unit :=
  os_call ;;;
  fun w => (World (w_faults w) (w_calls w) (d :: w_dirs w) (w_files w)
                  (w_open w) (w_log w), Return tt).

Definition MSG_NULL := of_string "embedded null byte".

(** [open(path, "w", encoding="utf-8")]: the file is created or emptied. A
    path that holds a null character is refused before any call. *)
Definition open_w (path : pystr) : IO pystr :=
  if existsb (N.eqb 0) path then lift (Raise (ValueError MSG_NULL))
  else
    os_call ;;;
    fun w => (World (w_faults w) (w_calls w) (w_dirs w)
                    (set_file (w_files w) path []) (path :: w_open w) (w_log w),
              Return path).

Definition is_surrogate (c : N) : bool := in_range 55296 57343 c.

(** [f.write(s)]: a lone surrogate cannot be encoded as UTF-8. *)
Definition write (f : pystr) (s : pystr) : IO unit :=
  if existsb is_surrogate s then lift (Raise UnicodeEncodeError)
  else
    os_call ;;;
    fun w =>
      let old := match file_content (w_files w) f with
                 | Some c => c
                 | None => []
                 end in
      (World (w_faults w) (w_calls w) (w_dirs w)
             (set_file (w_files w) f (old ++ s)) (w_open w) (w_log w),
       Return tt).

(** [f.close()]: the stream is closed even when the call fails. *)
Definition close (f : pystr) : IO unit :=
  fun w =>
    os_call (World (w_faults w) (w_calls w) (w_dirs w) (w_files w)
                   (filter (fun p => negb (PyStr.eqb p f)) (w_open w)) (w_log w)).

(** [with open(path, "w", encoding="utf-8") as f: body(f)]: the stream is
    closed on every way out of the body. *)
Definition with_open_w (path : pystr) (body : pystr -> IO unit) : IO unit :=
  f <- open_w path ;;
  fun w =>
    match body f w with
    | (w1, Return _) => close f w1
    | (w1, Raise e) =>
        match close f w1 with
        | (w2, Return _) => (w2, Raise e)
        | (w2, Raise e') => (w2, Raise e')
        end
    end.

(** [for x in l: body(x)] *)
Fixpoint for_each {A} (l : list A) (body : A -> IO unit) : IO unit :=
  match l with
  | [] => ret tt
  | x :: l' => body x ;;; for_each l' body
  end.

(** [os.path.join(a, b)] on a POSIX system. *)
Definition path_join (a b : pystr) : pystr :=
  match b with
  | 47%N :: _ => b
  | _ => match rev a with
         | [] => b
         | 47%N :: _ => a ++ b
         | _ => a ++ [47%N] ++ b
         end
  end.

(* ===================================================================== *)
(** * [generate_llms_txt] *)
(* ===================================================================== *)

Section Report.

(** The tables of the interpreter that the module relies on and does not
    define: the text of [str(x)] for an object that is not a [str], and the
    Unicode case mappings of the characters outside ASCII (the mapping to
    lower case of a character depends on its place in the string). *)
Variable repr : PyVal -> pystr.
Variable uni_title : N -> pystr.
Variable uni_lower : pystr -> nat -> pystr.
Variable uni_cased : N -> bool.

(** [str(x)] *)
Definition py_str (v : PyVal) : pystr :=
  match v with
  | VStr s => s
  | other => repr other
  end.

Definition ascii_upper (c : N) : N := if in_range 97 122 c then (c - 32)%N else c.
Definition ascii_lower (c : N) : N := if in_range 65 90 c then (c + 32)%N else c.

Definition to_title (c : N) : pystr :=
  if N.ltb c 128 then [ascii_upper c] else uni_title c.

Definition lower_at (s : pystr) (i : nat) (c : N) : pystr :=
  if N.ltb c 128 then [ascii_lower c] else uni_lower s i.

Definition is_cased (c : N) : bool :=
  if N.ltb c 128 then (in_range 65 90 c || in_range 97 122 c)%bool else uni_cased c.

Fixpoint lower_from (s : pystr) (i : nat) (rest : pystr) : pystr :=
  match rest with
  | [] => []
  | c :: rest' => lower_at s i c ++ lower_from s (S i) rest'
  end.

(** [s.capitalize()]: the first character in title case, the others in
    lower case. *)
Definition capitalize (s : pystr) : pystr :=
  match s with
  | [] => []
  | c :: rest => to_title c ++ lower_from s 1 rest
  end.

Fixpoint title_from (s : pystr) (i : nat) (previous_is_cased : bool) (rest : pystr)
  : pystr :=
  match rest with
  | [] => []
  | c :: rest' =>
      (if previous_is_cased then lower_at s i c else to_title c)
      ++ title_from s (S i) (is_cased c) rest'
  end.

(** [s.title()] *)
Definition title (s : pystr) : pystr := title_from s 0 false s.

(** [clean_and_format_content] on any object: what is not a [str] is
    returned as it is, with a warning. *)
Definition clean_and_format_content_any (content : PyVal) : IO PyVal :=
  match content with
  | VStr s => ret (VStr (clean_and_format_content s))
  | other =>
      add_log (Log WARNING (of_string "Content to clean is not a string. Returning as is.") None) ;;;
      ret other
  end.

(** [", ".join(l) if isinstance(l, list) and l else 'None'] *)
Definition joined_or_none (v : PyVal) : result pystr :=
  match v with
  | VList (x :: l) => py_join (of_string ", ") (x :: l)
  | _ => Return (of_string "None")
  end.

(** The body of the loop, for one item of the dict. *)
Definition write_page (f : pystr) (page_id page_data : PyVal) : IO unit :=
  d <- lift (match page_data with
             | VDict d => Return d
             | _ => Raise AttributeError
             end) ;;
  default_title <- lift (match page_id with
                         | VStr s => Return (VStr (title (replace_char 45 32 s)))
                         | _ => Raise AttributeError
                         end) ;;
  let title := dict_get d (of_string "title") default_title in
  let content := dict_get d (of_string "content") (VStr []) in
  let importance := dict_get d (of_string "importance") (VStr (of_string "N/A")) in
  let related_pages_list := dict_get d (of_string "relatedPages") (VList []) in
  related_pages <- lift (joined_or_none related_pages_list) ;;
  let file_paths_list := dict_get d (of_string "filePaths") (VList []) in
  file_paths <- lift (joined_or_none file_paths_list) ;;
  let cleaned_content := clean_and_format_content (py_str content) in
  write f (of_string "# " ++ py_str title ++ [LF]) ;;;
  n <- lift (py_len title) ;;
  write f (times (of_string "-") (n + 2) ++ [LF; LF]) ;;;
  write f (of_string "**ID:** " ++ py_str (dict_get d (of_string "id") page_id) ++ [LF]) ;;;
  write f (of_string "**Importance:** " ++ capitalize (py_str importance) ++ [LF]) ;;;
  write f (of_string "**Related Pages:** " ++ related_pages ++ [LF]) ;;;
  write f (of_string "**Relevant Files:** " ++ file_paths ++ [LF; LF]) ;;;
  write f (of_string "## Content" ++ [LF]) ;;;
  write f (cleaned_content ++ [LF; LF]) ;;;
  write f (times (of_string "---") 10 ++ [LF; LF]).

Definition OUTPUT_DIR := of_string "repo_wiki_generations".

Definition success_record (filename : pystr) : log_record :=
  Log INFO (of_string "Successfully generated " ++ filename ++ of_string " at "
            ++ path_join OUTPUT_DIR filename) None.

(** The message ends with the text of the exception, which is kept as the
    exception itself. *)
Definition error_record (filename : pystr) (e : exn) : log_record :=
  Log ERROR (of_string "Error generating " ++ filename ++ of_string ": ") (Some e).

(** [data] is the dict in its iteration order. *)
Definition generate_llms_txt (data : list (PyVal * PyVal)) (filename : pystr)
  : IO unit :=
  try_except
    (makedirs OUTPUT_DIR ;;;
     let filepath := path_join OUTPUT_DIR filename in
     with_open_w filepath
       (fun f => for_each data (fun item => write_page f (fst item) (snd item))) ;;;
     add_log (success_record filename))
    (fun e => add_log (error_record filename e)).

End Report.

(* ===================================================================== *)
(** * What a pattern can match *)
(* ===================================================================== *)

Module ReSem.

(** The previous character after the text [u] has been consumed. *)
Definition prev_after (p : option N) (u : pystr) : option N :=
  fold_left (fun _ c => Some c) u p.

(** What a pattern can match, whatever the priorities: [r] matches the text
    [u] when [p] is the character before it and [rest] the text after it. *)
Fixpoint matches (fl : flags) (r : regex) (p : option N) (u rest : pystr) : Prop :=
  match r with
  | Eps => u = []
  | One a => exists c, u = [c] /\ atom_match fl a c = true
  | Rep _ plus a =>
      Forall (fun c => atom_match fl a c = true) u /\ (plus = true -> u <> [])
  | Opt r' => u = [] \/ matches fl r' p u rest
  | Cat r1 r2 =>
      exists u1 u2, u = u1 ++ u2 /\ matches fl r1 p u1 (u2 ++ rest)
                    /\ matches fl r2 (prev_after p u1) u2 rest
  | Group _ r' => matches fl r' p u rest
  | Bol => u = [] /\ at_bol fl p = true
  | Eol => u = [] /\ at_eol fl rest = true
  end.

(** Patterns that cannot match the empty string. *)
Fixpoint nonnull (r : regex) : bool :=
  match r with
  | One _ => true
  | Rep _ plus _ => plus
  | Cat r1 r2 => nonnull r1 || nonnull r2
  | Group _ r' => nonnull r'
  | _ => false
  end.

(** The twelve patterns of the module. *)
Definition module_patterns : list pattern :=
  [fence_open; fence_close; wiki_block; control_chars; details_block;
   sources_marker; image_markup; http_link; angle_tag; mermaid_block;
   whitespace_run; blank_lines].

End ReSem.

Import ReSem.

(* ===================================================================== *)
(** * Vocabulary of the statements *)
(* ===================================================================== *)

(** The first character of [s], if any, fails the test [f]. *)
Definition head_not (f : N -> bool) (s : pystr) : Prop :=
  match s with
  | [] => True
  | c :: _ => f c = false
  end.

(** A literal of a pattern that matches itself only. *)
Definition lit_exact (fl : flags) (c : N) : bool :=
  negb (ignorecase fl) || PyStr.eqb (case_variants c) [c].

(** Characters that every match of a pattern contains. *)
Fixpoint required (fl : flags) (r : regex) : list N :=
  match r with
  | One (Lit c) => if lit_exact fl c then [c] else []
  | Rep _ true (Lit c) => if lit_exact fl c then [c] else []
  | Cat r1 r2 => required fl r1 ++ required fl r2
  | Group _ r' => required fl r'
  | _ => []
  end.

(** Whitespace is made of single spaces: every whitespace character of [s]
    is a space and no two of them are adjacent ([after_space]: a space
    comes just before [s]). *)
Fixpoint single_spaced (after_space : bool) (s : pystr) : bool :=
  match s with
  | [] => true
  | c :: s' =>
      if is_space c
      then N.eqb c SPACE && negb after_space && single_spaced true s'
      else single_spaced false s'
  end.

(** No [<] of [s] is followed, however far, by a [>]. *)
Definition no_tag (s : pystr) : Prop :=
  forall a b, s = a ++ LT :: b -> ~ In GT b.

(** The character that every match of a pattern starts with. *)
Fixpoint leading (fl : flags) (r : regex) : option N :=
  match r with
  | One (Lit c) => if lit_exact fl c then Some c else None
  | Cat r1 _ => leading fl r1
  | Group _ r' => leading fl r'
  | _ => None
  end.

(** Characters that every match contains after its first character, for
    a pattern with a [leading] character. *)
Fixpoint required_after (fl : flags) (r : regex) : list N :=
  match r with
  | Cat r1 r2 => required_after fl r1 ++ required fl r2
  | Group _ r' => required_after fl r'
  | _ => []
  end.

(** The cleaning pipeline without its blank-line substitution: the six
    markup substitutions, the whitespace substitution and the trim. *)
Definition clean_without_blank_line_step (content : pystr) : pystr :=
  strip (clean_upto_whitespace content).

(** The characters that a pattern can consume. *)
Fixpoint consumes (fl : flags) (r : regex) (c : N) : bool :=
  match r with
  | One a => atom_match fl a c
  | Rep _ _ a => atom_match fl a c
  | Opt r' => consumes fl r' c
  | Cat r1 r2 => consumes fl r1 c || consumes fl r2 c
  | Group _ r' => consumes fl r' c
  | _ => false
  end.

(** The text holds a delimited fragment: a start marker and, after it, an
    end marker. *)
Definition has_fragment (s : pystr) : Prop :=
  exists pre body post, s = pre ++ START_MARKER ++ body ++ END_MARKER ++ post.

(** [pre], [body], [post] cut out the first delimited region of [s]: the
    start marker after [pre] is the leftmost one of [s], and the end marker
    after [body] is the first one that follows it. *)
Definition first_region (s pre body post : pystr) : Prop :=
  s = pre ++ START_MARKER ++ body ++ END_MARKER ++ post
  /\ (forall a b, s = a ++ START_MARKER ++ b -> length pre <= length a)
  /\ (forall b' post', body ++ END_MARKER ++ post = b' ++ END_MARKER ++ post' ->
                       length body <= length b').

(** The C0 control characters other than tab, newline and carriage return,
    and DEL. *)
Definition is_stripped_control (c : N) : bool :=
  (N.leb c 31 && negb (N.eqb c 9 || N.eqb c 10 || N.eqb c 13)) || N.eqb c 127.

Definition without_controls (s : pystr) : pystr :=
  filter (fun c => negb (is_stripped_control c)) s.

(** The class [[\s\S]] of all characters. *)
Definition any_char : atom := Cls false [CSpace; CNotSpace].

(** The rest of [wiki_block] after the body: the end marker. *)
Definition end_marker_cont : cont (pystr * caps) :=
  fun p s cs => m MULTILINE (lit END_MARKER) p s cs (fun _ s' cs' => Some (s', cs')).

(** The markers between their angle brackets. *)
Definition START_MID := of_string "wiki_structure".
Definition END_MID := of_string "/wiki_structure".

(** ** The sample documents *)

(** The document of the specification's example. *)
Definition SAMPLE_DOCUMENT : pystr :=
  of_string "<wiki_structure><title>Test Wiki</title><description>This is a test wiki.</description><pages><page id="
  ++ [DQUOTE] ++ of_string "p1" ++ [DQUOTE]
  ++ of_string "><title>Page 1</title><description>Content for page 1.</description><importance>high</importance><file_path>file1.txt</file_path></page></pages></wiki_structure>".

(** The same document in a fenced code block. *)
Definition FENCED_SAMPLE : pystr :=
  of_string "```xml" ++ [LF] ++ SAMPLE_DOCUMENT ++ [LF] ++ of_string "```".

(** [sample_xml_response] of the module's own test: the document spread
    over indented lines, the fences indented too. *)
Definition SOURCE_SAMPLE : pystr :=
  [LF]
  ++ of_string "    ```xml" ++ [LF]
  ++ of_string "    <wiki_structure>" ++ [LF]
  ++ of_string "        <title>Test Wiki</title>" ++ [LF]
  ++ of_string "        <description>This is a test wiki.</description>" ++ [LF]
  ++ of_string "        <pages>" ++ [LF]
  ++ of_string "            <page id=" ++ [DQUOTE] ++ of_string "p1" ++ [DQUOTE]
  ++ of_string ">" ++ [LF]
  ++ of_string "                <title>Page 1</title>" ++ [LF]
  ++ of_string "                <description>Content for page 1.</description>" ++ [LF]
  ++ of_string "                <importance>high</importance>" ++ [LF]
  ++ of_string "                <file_path>file1.txt</file_path>" ++ [LF]
  ++ of_string "            </page>" ++ [LF]
  ++ of_string "        </pages>" ++ [LF]
  ++ of_string "    </wiki_structure>" ++ [LF]
  ++ of_string "    ```" ++ [LF]
  ++ of_string "    ".

Definition SAMPLE_PAGE : Page :=
  mkPage (of_string "p1") (of_string "Page 1") (of_string "Content for page 1.")
         (of_string "high") [of_string "file1.txt"] [].

(** [parse_wiki_structure(extract_wiki_structure_xml(raw))] *)
Definition parse_extracted (raw : pystr)
  : option (result (pystr * pystr * list Page)) :=
  match extract_wiki_structure_xml raw with
  | Return xml_text => parse_wiki_structure xml_text
  | Raise e => Some (Raise e)
  end.

(** A page whose importance element is there and empty. *)
Definition EMPTY_IMPORTANCE_DOCUMENT : pystr :=
  of_string "<wiki_structure><pages><page id=" ++ [DQUOTE] ++ of_string "p1"
  ++ [DQUOTE] ++ of_string "><importance></importance></page></pages></wiki_structure>".

Definition IMPORTANCE := of_string "importance".
Definition MEDIUM := of_string "medium".

(** ** The report *)

(** The text of the file [f] ([""] when there is no such file). *)
Definition content (w : world) (f : pystr) : pystr :=
  match file_content (w_files w) f with
  | Some c => c
  | None => []
  end.

(** The value stored under a [str] key, if any. *)
Fixpoint dict_find (d : list (PyVal * PyVal)) (key : pystr) : option PyVal :=
  match d with
  | [] => None
  | (VStr k, v) :: d' => if PyStr.eqb k key then Some v else dict_find d' key
  | _ :: d' => dict_find d' key
  end.

(** No call to the operating system numbered from [a] to [b - 1] fails. *)
Definition no_fault (w : world) (a b : nat) : Prop :=
  forall n, a <= n < b -> w_faults w n = None.

(** The section of a page, as the format of the report lays it out:
    heading, underline, the four metadata lines, the content and a rule. *)
Definition section_layout (title : pystr) (width : nat)
    (id importance related files body : pystr) : pystr :=
  (of_string "# " ++ title ++ [LF])
  ++ (times (of_string "-") width ++ [LF; LF])
  ++ (of_string "**ID:** " ++ id ++ [LF])
  ++ (of_string "**Importance:** " ++ importance ++ [LF])
  ++ (of_string "**Related Pages:** " ++ related ++ [LF])
  ++ (of_string "**Relevant Files:** " ++ files ++ [LF; LF])
  ++ (of_string "## Content" ++ [LF])
  ++ (body ++ [LF; LF])
  ++ (times (of_string "---") 10 ++ [LF; LF]).

(** How a list field of a page is written: the entries joined by a comma
    and a space when the field is a list that is not empty, the word
    [None] when it is absent, empty, or not a list. *)
Definition field_rendering (d : list (PyVal * PyVal)) (key text : pystr) : Prop :=
  match dict_find d key with
  | Some (VList (x :: l)) =>
      exists entries, x :: l = List.map VStr entries
                      /\ text = join (of_string ", ") entries
  | _ => text = of_string "None"
  end.


Section ReportSpec.

Variable repr : PyVal -> pystr.
Variable uni_title : N -> pystr.
Variable uni_lower : pystr -> nat -> pystr.
Variable uni_cased : N -> bool.

(** The fields of a page as the writer resolves them: [d] is the page
    data, [s] the page id. *)
Definition resolved_title (d : list (PyVal * PyVal)) (s : pystr) : PyVal :=
  dict_get d (of_string "title")
    (VStr (title uni_title uni_lower uni_cased (replace_char 45 32 s))).

Definition resolved_id (d : list (PyVal * PyVal)) (page_id : PyVal) : pystr :=
  py_str repr (dict_get d (of_string "id") page_id).

Definition resolved_importance (d : list (PyVal * PyVal)) : pystr :=
  py_str repr (dict_get d (of_string "importance") (VStr (of_string "N/A"))).

Definition resolved_body (d : list (PyVal * PyVal)) : pystr :=
  clean_and_format_content
    (py_str repr (dict_get d (of_string "content") (VStr []))).

(** [text] is the section of the item [(page_id, page_data)]: the layout
    filled with the resolved fields. *)
Definition is_section (page_id page_data : PyVal) (text : pystr) : Prop :=
  exists d s width related files,
    page_data = VDict d /\ page_id = VStr s
    /\ py_len (resolved_title d s) = Return width
    /\ joined_or_none (dict_get d (of_string "relatedPages") (VList []))
       = Return related
    /\ joined_or_none (dict_get d (of_string "filePaths") (VList []))
       = Return files
    /\ text
       = section_layout (py_str repr (resolved_title d s)) (width + 2)
           (resolved_id d page_id)
           (capitalize uni_title uni_lower (resolved_importance d))
           related files (resolved_body d).

(** What a computation of the writer does to the world, seen from the file
    [f]: it leaves the faults, the log and the open streams alone; when it
    returns, no call has failed and the file has grown by a text that
    [post] describes; when it raises [OSError], a call has failed with that
    error; when it raises anything else, no call has failed. *)
Definition run_spec {A} (f : pystr) (c : IO A) (post : A -> pystr -> Prop) : Prop :=
  forall w,
    w_faults (fst (c w)) = w_faults w
    /\ w_log (fst (c w)) = w_log w
    /\ w_open (fst (c w)) = w_open w
    /\ w_calls w <= w_calls (fst (c w))
    /\ match snd (c w) with
       | Return a =>
           no_fault w (w_calls w) (w_calls (fst (c w)))
           /\ exists text, post a text
                           /\ content (fst (c w)) f = content w f ++ text
       | Raise (OSError errno) =>
           exists n, w_calls w <= n < w_calls (fst (c w))
                     /\ w_faults w n = Some errno
       | Raise _ => no_fault w (w_calls w) (w_calls (fst (c w)))
       end.

End ReportSpec.

(** Tables for the examples: no object but strings, no character outside
    ASCII. *)
Definition no_repr : PyVal -> pystr := fun _ => [].
Definition no_title : N -> pystr := fun c => [c].
Definition no_lower : pystr -> nat -> pystr := fun _ _ => [].
Definition no_cased : N -> bool := fun _ => false.

(** A world in which nothing exists yet and the call number [n] fails
    with [errno]. *)
Definition failing_world (n : nat) (errno : N) : world :=
  World (fun i => if Nat.eqb i n then Some errno else None) 0 [] [] [] [].

Definition fresh_world : world := World (fun _ => None) 0 [] [] [] [].

(** A report of one page, for the examples. *)
Definition SAMPLE_DATA : list (PyVal * PyVal) :=
  [(VStr (of_string "intro"),
    VDict [(VStr (of_string "title"), VStr (of_string "Intro"));
           (VStr (of_string "content"), VStr (of_string "Hello"))])].

Definition LLMS_TXT := of_string "llms.txt".
Definition LLMS_PATH := of_string "repo_wiki_generations/llms.txt".

(* ===================================================================== *)
(** * Vocabulary of the further properties *)
(* ===================================================================== *)

(** A text without the characters that start markup: [<], [[] and the
    backtick. *)
Definition plain (s : pystr) : bool :=
  forallb (fun c => negb (N.eqb c LT || N.eqb c LBRACK || N.eqb c BACKTICK)) s.

(** The steps of the cleaning that follow the tag substitution. *)
Definition clean_after_tags (s : pystr) : pystr :=
  strip (collapse_blank_lines (collapse_whitespace (remove_mermaid s))).

(** Patterns without [^] and [$]. *)
Fixpoint anchor_free (r : regex) : bool :=
  match r with
  | Bol | Eol => false
  | Opt r' => anchor_free r'
  | Cat r1 r2 => anchor_free r1 && anchor_free r2
  | Group _ r' => anchor_free r'
  | _ => true
  end.

(** The delimiters of the blocks that the cleaning deletes. *)
Definition DETAILS_OPEN := of_string "<details>".
Definition DETAILS_CLOSE := of_string "</details>".
Definition MERMAID_OPEN := of_string "```mermaid".
Definition FENCE := of_string "```".

(** The delimiters of image and link markup. *)
Definition IMAGE_OPEN := of_string "![".
Definition LABEL_CLOSE := of_string "](".

Definition LINK_TARGET_OPEN := of_string "](http".
Definition SCHEME_END := of_string "://".

(** A character of the target of a link: no whitespace, no [)]. *)
Definition url_char (c : N) : bool := negb (is_space c || N.eqb c RPAREN).

Definition CITE_WORD := of_string "source".
Definition CITE_WORDS := of_string "sources".
Definition CITE_SEP := of_string ": [".
Definition CITE_CLOSE := of_string ")`".

(** What a computation of the writer leaves alone, seen from the file [f]:
    the directories and every file but [f]. *)
Definition untouched {A} (f : pystr) (c : IO A) : Prop :=
  forall w,
    w_dirs (fst (c w)) = w_dirs w
    /\ forall q, q <> f ->
                 file_content (w_files (fst (c w))) q = file_content (w_files w) q.



Definition HYPHEN : N := 45%N.

Definition is_letter (c : N) : bool := (in_range 65 90 c || in_range 97 122 c)%bool.

(** A word with its first letter in upper case and the others in lower
    case. *)
Definition capital_word (w : pystr) : pystr :=
  match w with
  | [] => []
  | c :: rest => ascii_upper c :: List.map ascii_lower rest
  end.

Definition PAGE := of_string "page".

(** [a] is [b] with some of its characters deleted. *)
Inductive subseq : pystr -> pystr -> Prop :=
| subseq_nil : subseq [] []
| subseq_skip c a b : subseq a b -> subseq a (c :: b)
| subseq_keep c a b : subseq a b -> subseq (c :: a) (c :: b).

(** A replacement template that brings no text of its own: nothing, or one
    group of the match. *)
Definition shrinking (tpl : list repl_item) : bool :=
  match tpl with
  | [] => true
  | [RGroup _] => true
  | _ => false
  end.

(** The characters of a text that are not whitespace. *)
Definition visible (s : pystr) : pystr := filter (fun c => negb (is_space c)) s.

(** ** Documents in the vocabulary of the module *)

(** An element that holds text only; an element without text has the text
    [None]. *)
Definition leaf (name t : pystr) : ET.Element :=
  ET.Elem name [] (match t with [] => None | _ => Some t end) [] None.

(** The element of a page: the id as an attribute, then the title, the
    description, the importance, the file paths and the related pages. *)
Definition page_element (pg : Page) : ET.Element :=
  ET.Elem PAGE [(of_string "id", page_id pg)] None
    ([leaf (of_string "title") (page_title pg);
      leaf (of_string "description") (page_description pg);
      leaf (of_string "importance") (page_importance pg)]
     ++ List.map (leaf (of_string "file_path")) (page_file_paths pg)
     ++ List.map (leaf (of_string "related")) (page_related_pages pg))
    None.

(** The tree of a document: title, description and the pages in their
    container. *)
Definition document_element (title description : pystr) (pages : list Page)
  : ET.Element :=
  ET.Elem (of_string "wiki_structure") [] None
    [leaf (of_string "title") title;
     leaf (of_string "description") description;
     ET.Elem (of_string "pages") [] None (List.map page_element pages) None]
    None.

(** The list fields of a page hold no empty entry. *)
Definition listable (pg : Page) : Prop :=
  Forall (fun t => t <> []) (page_file_paths pg)
  /\ Forall (fun t => t <> []) (page_related_pages pg).

(** ** Documents as text *)

Definition open_tag (name : pystr) : pystr := [LT] ++ name ++ [GT].
Definition close_tag (name : pystr) : pystr := [LT; ET.SLASH] ++ name ++ [GT].

(** [<name>t</name>] *)
Definition render_leaf (name t : pystr) : pystr :=
  open_tag name ++ t ++ close_tag name.

(** [<page id="...">] and the fields of the page, [</page>]. *)
Definition render_page (pg : Page) : pystr :=
  (of_string "<page id=" ++ [DQUOTE] ++ page_id pg ++ [DQUOTE; GT])
  ++ render_leaf (of_string "title") (page_title pg)
  ++ render_leaf (of_string "description") (page_description pg)
  ++ render_leaf (of_string "importance") (page_importance pg)
  ++ List.concat (List.map (render_leaf (of_string "file_path")) (page_file_paths pg))
  ++ List.concat (List.map (render_leaf (of_string "related")) (page_related_pages pg))
  ++ close_tag PAGE.

(** The document, written without any space between its elements. *)
Definition render_document (title description : pystr) (pages : list Page)
  : pystr :=
  open_tag (of_string "wiki_structure")
  ++ render_leaf (of_string "title") title
  ++ render_leaf (of_string "description") description
  ++ open_tag (of_string "pages")
  ++ List.concat (List.map render_page pages)
  ++ close_tag (of_string "pages")
  ++ close_tag (of_string "wiki_structure").

(** A character of the modelled fragment of XML that the extractor keeps. *)
Definition printable (c : N) : bool :=
  (ET.supported_char c && negb (N.eqb c 127))%bool.

(** Character data that needs no escaping: printable characters other
    than [<] and [>]. *)
Definition plain_text (t : pystr) : bool :=
  forallb (fun c => printable c && negb (N.eqb c LT) && negb (N.eqb c GT)) t.

(** An attribute value that the parser reads back as it is: plain text
    without double quote, tab and newline. *)
Definition plain_value (t : pystr) : bool :=
  forallb (fun c => printable c && negb (N.eqb c LT) && negb (N.eqb c GT)
                    && negb (N.eqb c DQUOTE) && negb (N.eqb c ET.TAB)
                    && negb (N.eqb c LF)) t.

(** A page that can be written as text and read back. *)
Definition writable_page (pg : Page) : Prop :=
  plain_value (page_id pg) = true
  /\ plain_text (page_title pg) = true
  /\ plain_text (page_description pg) = true
  /\ plain_text (page_importance pg) = true
  /\ Forall (fun t => t <> [] /\ plain_text t = true) (page_file_paths pg)
  /\ Forall (fun t => t <> [] /\ plain_text t = true) (page_related_pages pg).

(** The tokens of a document. *)
Definition leaf_tokens (name t : pystr) : list ET.token :=
  ET.TStart name []
  :: match t with [] => [] | _ => [ET.TText t] end ++ [ET.TEnd name].

Definition page_tokens (pg : Page) : list ET.token :=
  ET.TStart PAGE [(of_string "id", page_id pg)]
  :: leaf_tokens (of_string "title") (page_title pg)
  ++ leaf_tokens (of_string "description") (page_description pg)
  ++ leaf_tokens (of_string "importance") (page_importance pg)
  ++ List.concat (List.map (leaf_tokens (of_string "file_path")) (page_file_paths pg))
  ++ List.concat (List.map (leaf_tokens (of_string "related")) (page_related_pages pg))
  ++ [ET.TEnd PAGE].

Definition document_tokens (title description : pystr) (pages : list Page)
  : list ET.token :=
  ET.TStart (of_string "wiki_structure") []
  :: leaf_tokens (of_string "title") title
  ++ leaf_tokens (of_string "description") description
  ++ ET.TStart (of_string "pages") []
  :: List.concat (List.map page_tokens pages)
  ++ [ET.TEnd (of_string "pages"); ET.TEnd (of_string "wiki_structure")].

(** The text between [<] and [>] of a tag. *)
Definition render_attr (kv : pystr * pystr) : pystr :=
  [SPACE] ++ fst kv ++ [ET.EQUALS; DQUOTE] ++ snd kv ++ [DQUOTE].

Definition tag_body (tk : ET.token) : pystr :=
  match tk with
  | ET.TStart name attrs => name ++ List.concat (List.map render_attr attrs)
  | ET.TEnd name => [ET.SLASH] ++ name
  | ET.TEmptyElem name attrs =>
      name ++ List.concat (List.map render_attr attrs) ++ [ET.SLASH]
  | ET.TText _ => []
  end.

Definition render_token (tk : ET.token) : pystr :=
  match tk with
  | ET.TText t => t
  | _ => [LT] ++ tag_body tk ++ [GT]
  end.

Definition is_text (tk : ET.token) : bool :=
  match tk with ET.TText _ => true | _ => false end.

(** A tag that the tokenizer reads back from its text. *)
Definition readable_tag (tk : ET.token) : Prop :=
  is_text tk = false
  /\ (forall rest, ET.scan_tag None [] (tag_body tk ++ GT :: rest)
                   = Some (Return (tag_body tk, rest)))
  /\ ET.read_tag (tag_body tk) = Some (Return tk).

(** Tokens that the tokenizer reads back from their text: readable tags,
    and character data that is not empty, holds no [<] and is followed by
    a tag. *)
Fixpoint readable (tks : list ET.token) : Prop :=
  match tks with
  | [] => True
  | ET.TText t :: rest =>
      t <> [] /\ ~ In LT t
      /\ match rest with
         | tk :: _ => is_text tk = false
         | [] => True
         end
      /\ readable rest
  | tk :: rest => readable_tag tk /\ readable rest
  end.

(** No [>] of the text comes just after a []]; [p] is the character before
    the text. *)
Fixpoint closes_no_section (p : option N) (s : pystr) : bool :=
  match s with
  | [] => true
  | c :: s' =>
      (if N.eqb c GT
       then match p with
            | Some q => negb (N.eqb q RBRACK)
            | None => true
            end
       else true)
      && closes_no_section (Some c) s'
  end.

(** Readable tokens of which the first, if any, is a tag. *)
Definition tagged (tks : list ET.token) : Prop :=
  readable tks
  /\ match tks with
     | tk :: _ => is_text tk = false
     | [] => True
     end.

(** A name that can be written as a start tag and as an end tag. *)
Definition known_name (name : pystr) : Prop :=
  readable_tag (ET.TStart name [])
  /\ readable_tag (ET.TEnd name)
  /\ forallb printable name = true
  /\ (forall p r, closes_no_section p (open_tag name ++ r)
                  = closes_no_section (Some GT) r)
  /\ (forall p r, closes_no_section p (close_tag name ++ r)
                  = closes_no_section (Some GT) r).

(** A text that can follow a tag and be followed by anything. *)
Definition passes (s : pystr) : Prop :=
  forall r, closes_no_section (Some GT) (s ++ r) = closes_no_section (Some GT) r.


(** The open element [f] with the elements [es] added after its children. *)
Definition add_children (es : list ET.Element) (f : ET.frame) : ET.frame :=
  ET.Frame (ET.f_tag f) (ET.f_attrib f) (ET.f_text f) (rev es ++ ET.f_children f).

(** No end marker starts inside [s], whatever follows [s]: no [<] of [s]
    is followed by [/w]. *)
Definition no_end_inside (s : pystr) : Prop :=
  forall r a b, s ++ r = a ++ LT :: b -> length a < length s ->
                startswith (of_string "/w") b = false.

(** A name of an element within the document. *)
Definition inner_name (name : pystr) : Prop :=
  no_end_inside (open_tag name) /\ no_end_inside (close_tag name).

(** The document between its markers. *)
Definition document_body (title description : pystr) (pages : list Page)
  : pystr :=
  render_leaf (of_string "title") title
  ++ render_leaf (of_string "description") description
  ++ open_tag (of_string "pages")
  ++ List.concat (List.map render_page pages)
  ++ close_tag (of_string "pages").

(** The names of the elements whose text the parser reads. *)
Definition is_field (name : pystr) : bool :=
  (PyStr.eqb name (of_string "title") || PyStr.eqb name (of_string "description")
   || PyStr.eqb name (of_string "importance")
   || PyStr.eqb name (of_string "file_path")
   || PyStr.eqb name (of_string "related"))%bool.

(** What the parser can see of a tree: the tags, the attributes, the
    children and the text of the field elements; not the text that follows
    an element, nor the text of the other elements. *)
Fixpoint essential (e : ET.Element) : ET.Element :=
  match e with
  | ET.Elem t a x cs _ =>
      ET.Elem t a (if is_field t then x else None) (List.map essential cs) None
  end.

(** The tree of a text that the XML parser accepts. *)
Definition tree_of (xml_text : pystr) : ET.Element :=
  match ET.fromstring xml_text with
  | Some (Return root) => root
  | _ => ET.Elem [] [] None [] None
  end.

(** A document with its elements on lines of their own, and the same
    document written without any space. *)
Definition INDENTED_DOCUMENT : pystr :=
  of_string "<wiki_structure>" ++ [LF] ++ of_string "  <title>Guide</title>"
  ++ [LF] ++ of_string "  <pages>" ++ [LF]
  ++ of_string "    <page id=" ++ [DQUOTE] ++ of_string "p1" ++ [DQUOTE]
  ++ of_string ">" ++ [LF]
  ++ of_string "      <title>Set up</title>" ++ [LF]
  ++ of_string "      <file_path>src/a.py</file_path>" ++ [LF]
  ++ of_string "    </page>" ++ [LF] ++ of_string "  </pages>" ++ [LF]
  ++ of_string "</wiki_structure>".

Definition COMPACT_DOCUMENT : pystr :=
  of_string "<wiki_structure><title>Guide</title><pages><page id="
  ++ [DQUOTE] ++ of_string "p1" ++ [DQUOTE]
  ++ of_string "><title>Set up</title><file_path>src/a.py</file_path>"
  ++ of_string "</page></pages></wiki_structure>".

(* ===================================================================== *)
(** * Facts about the matcher *)
(* ===================================================================== *)

Module ReFacts.


Lemma prev_after_app p u v :
  prev_after p (u ++ v) = prev_after (prev_after p u) v.
Proof. apply fold_left_app. Qed.


Section Soundness.
Variable R : Type.
Implicit Types k : cont R.

Lemma one_sound f p s cs k x :
  one f p s cs k = Some x ->
  exists c rest, s = c :: rest /\ f c = true /\ k (Some c) rest cs = Some x.
Proof.
  destruct s as [|c s']; simpl; [discriminate|].
  destruct (f c) eqn:E; [|discriminate].
  intros H. exists c, s'. auto.
Qed.

Lemma rep_greedy_sound f : forall s p cs k x,
  rep_greedy f p s cs k = Some x ->
  exists u rest, s = u ++ rest /\ Forall (fun c => f c = true) u
                 /\ k (prev_after p u) rest cs = Some x.
Proof.
  induction s as [|c s' IH]; simpl; intros p cs k x H.
  - exists [], []. auto.
  - destruct (f c) eqn:E.
    + destruct (rep_greedy f (Some c) s' cs k) eqn:G.
      * inversion H; subst. apply IH in G. destruct G as (u & rest & -> & Hu & Hk).
        exists (c :: u), rest. repeat split; auto.
      * exists [], (c :: s'). auto.
    + exists [], (c :: s'). auto.
Qed.

Lemma rep_lazy_sound f : forall s p cs k x,
  rep_lazy f p s cs k = Some x ->
  exists u rest, s = u ++ rest /\ Forall (fun c => f c = true) u
                 /\ k (prev_after p u) rest cs = Some x.
Proof.
  induction s as [|c s' IH]; simpl; intros p cs k x H.
  - destruct (k p [] cs) eqn:K; [|discriminate].
    inversion H; subst. exists [], []. auto.
  - destruct (k p (c :: s') cs) eqn:K.
    + inversion H; subst. exists [], (c :: s'). auto.
    + destruct (f c) eqn:E; [|discriminate].
      apply IH in H. destruct H as (u & rest & -> & Hu & Hk).
      exists (c :: u), rest. repeat split; auto.
Qed.

(** Whenever the matcher succeeds, its continuation succeeded after a text
    that the pattern can match. *)
Lemma m_sound fl : forall r p s cs k x,
  m fl r p s cs k = Some x ->
  exists u rest cs', s = u ++ rest /\ matches fl r p u rest
                     /\ k (prev_after p u) rest cs' = Some x.
Proof.
  induction r as [|a|g plus a|r' IH|r1 IH1 r2 IH2|n r' IH| |];
    simpl; intros p s cs k x H.
  - exists [], s, cs. auto.
  - apply one_sound in H. destruct H as (c & rest & -> & Hc & Hk).
    exists [c], rest, cs. repeat split; eauto.
  - destruct plus.
    + apply one_sound in H. destruct H as (c & rest & -> & Hc & Hk).
      assert (G : exists u rest', rest = u ++ rest'
                   /\ Forall (fun c => atom_match fl a c = true) u
                   /\ k (prev_after (Some c) u) rest' cs = Some x).
      { destruct g; [apply rep_greedy_sound|apply rep_lazy_sound]; exact Hk. }
      destruct G as (u & rest' & -> & Hu & Hk').
      exists (c :: u), rest', cs. repeat split; auto. discriminate.
    + assert (G : exists u rest', s = u ++ rest'
                   /\ Forall (fun c => atom_match fl a c = true) u
                   /\ k (prev_after p u) rest' cs = Some x).
      { destruct g; [apply rep_greedy_sound|apply rep_lazy_sound]; exact H. }
      destruct G as (u & rest' & -> & Hu & Hk').
      exists u, rest', cs. repeat split; auto. discriminate.
  - destruct (m fl r' p s cs k) eqn:E.
    + inversion H; subst. apply IH in E.
      destruct E as (u & rest & cs' & -> & Hm & Hk).
      exists u, rest, cs'. auto.
    + exists [], s, cs. auto.
  - apply IH1 in H. destruct H as (u1 & rest1 & cs1 & -> & Hm1 & H).
    apply IH2 in H. destruct H as (u2 & rest & cs2 & -> & Hm2 & Hk).
    exists (u1 ++ u2), rest, cs2. rewrite prev_after_app, <- app_assoc.
    repeat split; auto. exists u1, u2. auto.
  - apply IH in H. destruct H as (u & rest & cs' & -> & Hm & Hk).
    eexists u, rest, _. repeat split; eauto.
  - destruct (at_bol fl p) eqn:E; [|discriminate]. exists [], s, cs. auto.
  - destruct (at_eol fl s) eqn:E; [|discriminate]. exists [], s, cs. auto.
Qed.

End Soundness.

Lemma match_at_sound pt p s rest cs :
  match_at pt p s = Some (rest, cs) ->
  exists u, s = u ++ rest /\ matches (pat_flags pt) (pat_re pt) p u rest.
Proof.
  unfold match_at. intros H. apply m_sound in H.
  destruct H as (u & rest' & cs' & -> & Hm & Hk). inversion Hk; subst.
  exists u. auto.
Qed.


Lemma nonnull_matches fl : forall r p u rest,
  nonnull r = true -> matches fl r p u rest -> u <> [].
Proof.
  induction r as [|a|g plus a|r' IH|r1 IH1 r2 IH2|n r' IH| |];
    simpl; intros p u rest Hn Hm; try discriminate.
  - destruct Hm as (c & -> & _). discriminate.
  - destruct Hm as [_ Hp]. auto.
  - destruct Hm as (u1 & u2 & -> & H1 & H2). intros E.
    apply app_eq_nil in E. destruct E as [-> ->].
    apply orb_true_iff in Hn. destruct Hn as [Hn|Hn].
    + eapply IH1; eauto.
    + eapply IH2; eauto.
  - eauto.
Qed.

Lemma match_at_nonempty pt p s rest cs :
  nonnull (pat_re pt) = true ->
  match_at pt p s = Some (rest, cs) ->
  exists c u, s = (c :: u) ++ rest
              /\ matches (pat_flags pt) (pat_re pt) p (c :: u) rest.
Proof.
  intros Hn H. apply match_at_sound in H. destruct H as (u & -> & Hm).
  destruct u as [|c u].
  - exfalso. eapply nonnull_matches; eauto.
  - exists c, u. auto.
Qed.

(** No pattern of the module matches the empty string: a match always
    consumes a character. *)
Lemma no_empty_match pt p s rest cs :
  In pt module_patterns ->
  match_at pt p s = Some (rest, cs) -> length rest < length s.
Proof.
  intros Hin H.
  assert (Hn : nonnull (pat_re pt) = true).
  { simpl in Hin.
    repeat (destruct Hin as [<-|Hin]; [reflexivity|]). destruct Hin. }
  apply match_at_nonempty in H; [|exact Hn].
  destruct H as (c & u & -> & _). simpl. rewrite length_app. lia.
Qed.

(** ** Unfolding [sub] *)

Section Sub.
Variable pt : pattern.
Variable tpl : list repl_item.
Hypothesis pt_nonnull : nonnull (pat_re pt) = true.

Lemma sub_from_skip : forall u p rest,
  sub_from pt tpl (length u) p (u ++ rest)
  = sub_from pt tpl 0 (prev_after p u) rest.
Proof.
  induction u as [|c u IH]; intros p rest.
  - reflexivity.
  - simpl. apply IH.
Qed.

Lemma match_at_nil p : match_at pt p [] = None.
Proof.
  destruct (match_at pt p []) as [[rest cs]|] eqn:E; [|reflexivity].
  apply match_at_nonempty in E; auto. destruct E as (c & u & E & _).
  discriminate.
Qed.

Lemma sub_from_nil p : sub_from pt tpl 0 p [] = [].
Proof. simpl. now rewrite match_at_nil. Qed.

Lemma sub_from_miss p c s :
  match_at pt p (c :: s) = None ->
  sub_from pt tpl 0 p (c :: s) = c :: sub_from pt tpl 0 (Some c) s.
Proof. intros H. simpl. now rewrite H. Qed.

Lemma sub_from_cons p c s :
  sub_from pt tpl 0 p (c :: s)
  = match match_at pt p (c :: s) with
    | Some (rest, cs) =>
        expand tpl cs ++
        match length (c :: s) - length rest with
        | O => c :: sub_from pt tpl 0 (Some c) s
        | S j => sub_from pt tpl j (Some c) s
        end
    | None => c :: sub_from pt tpl 0 (Some c) s
    end.
Proof. reflexivity. Qed.

Lemma sub_from_hit p u rest cs :
  match_at pt p (u ++ rest) = Some (rest, cs) ->
  sub_from pt tpl 0 p (u ++ rest)
  = expand tpl cs ++ sub_from pt tpl 0 (prev_after p u) rest.
Proof.
  intros H. destruct u as [|c u].
  - apply match_at_nonempty in H; auto. destruct H as (c & u & E & _).
    exfalso. apply (f_equal (@length N)) in E. simpl in E.
    rewrite length_app in E. simpl in E. lia.
  - change ((c :: u) ++ rest) with (c :: u ++ rest) in *.
    rewrite sub_from_cons, H. f_equal.
    assert (L : length (c :: u ++ rest) - length rest = S (length u)).
    { cbn [length]. rewrite length_app. lia. }
    rewrite L. apply (sub_from_skip u (Some c) rest).
Qed.

(** The graph of [sub]: a property of the scan is proved by following it. *)
Lemma sub_from_ind (Q : option N -> pystr -> pystr -> Prop) :
  (forall p, Q p [] []) ->
  (forall p c s out,
      match_at pt p (c :: s) = None ->
      Q (Some c) s out -> Q p (c :: s) (c :: out)) ->
  (forall p c u rest cs out,
      match_at pt p ((c :: u) ++ rest) = Some (rest, cs) ->
      matches (pat_flags pt) (pat_re pt) p (c :: u) rest ->
      Q (prev_after p (c :: u)) rest out ->
      Q p ((c :: u) ++ rest) (expand tpl cs ++ out)) ->
  forall s p, Q p s (sub_from pt tpl 0 p s).
Proof.
  intros Hnil Hmiss Hhit.
  assert (G : forall n s, length s <= n -> forall p, Q p s (sub_from pt tpl 0 p s)).
  { induction n as [|n IH]; intros s Hs p; destruct s as [|c s];
      try (rewrite sub_from_nil; apply Hnil); simpl in Hs; try lia.
    destruct (match_at pt p (c :: s)) as [[rest cs]|] eqn:E.
    - pose proof E as E'. apply match_at_nonempty in E'; auto.
      destruct E' as (c' & u & Es & Hm). rewrite Es in *.
      rewrite sub_from_hit with (cs := cs) by exact E.
      apply Hhit; auto. apply IH.
      apply (f_equal (@length N)) in Es. simpl in Es.
      rewrite length_app in Es. lia.
    - rewrite sub_from_miss by exact E. apply Hmiss; auto.
      apply IH. lia. }
  intros s p. apply (G (length s)). lia.
Qed.

End Sub.

End ReFacts.

Import ReFacts.

(* ===================================================================== *)
(** * Facts about strings *)
(* ===================================================================== *)

Module StrFacts.

Lemma eqb_eq (a b : pystr) : PyStr.eqb a b = true <-> a = b.
Proof.
  revert b. induction a as [|x a IH]; intros [|y b]; simpl; split;
    try discriminate; try reflexivity.
  - intros H. apply andb_true_iff in H. destruct H as [H1 H2].
    apply N.eqb_eq in H1. apply IH in H2. congruence.
  - intros H. inversion H; subst. rewrite N.eqb_refl. simpl. now apply IH.
Qed.

Lemma startswith_app (w s : pystr) : startswith w (w ++ s) = true.
Proof. induction w as [|c w IH]; simpl; [reflexivity|]. now rewrite N.eqb_refl. Qed.

Lemma startswith_iff (w s : pystr) :
  startswith w s = true <-> exists t, s = w ++ t.
Proof.
  revert s. induction w as [|c w IH]; intros s; simpl.
  - split; eauto.
  - destruct s as [|d s]; [split; [discriminate|intros [t H]; discriminate]|].
    rewrite andb_true_iff, N.eqb_eq, IH. split.
    + intros [-> [t ->]]. eauto.
    + intros [t H]. inversion H; subst. eauto.
Qed.

Lemma lstrip_split (s : pystr) :
  exists a, s = a ++ lstrip s /\ Forall (fun c => is_space c = true) a.
Proof.
  induction s as [|c s (a & E & Ha)]; simpl.
  - exists []. auto.
  - destruct (is_space c) eqn:W.
    + exists (c :: a). simpl. split; [congruence|auto].
    + exists []. auto.
Qed.

Lemma lstrip_head (s : pystr) : head_not is_space (lstrip s).
Proof.
  induction s as [|c s IH]; simpl; [exact I|].
  destruct (is_space c) eqn:W; [exact IH|exact W].
Qed.

Lemma lstrip_id (s : pystr) : head_not is_space s -> lstrip s = s.
Proof. destruct s as [|c s]; simpl; [reflexivity|]. now intros ->. Qed.

Lemma lstrip_idem (s : pystr) : lstrip (lstrip s) = lstrip s.
Proof. apply lstrip_id, lstrip_head. Qed.

Lemma rstrip_split (s : pystr) :
  exists b, s = rstrip s ++ b /\ Forall (fun c => is_space c = true) b.
Proof.
  unfold rstrip. destruct (lstrip_split (rev s)) as (a & E & Ha).
  exists (rev a). split.
  - rewrite <- rev_app_distr, <- E. now rewrite rev_involutive.
  - now apply Forall_rev.
Qed.

Lemma strip_split (s : pystr) : exists a b, s = a ++ strip s ++ b.
Proof.
  unfold strip. destruct (lstrip_split s) as (a & E & _).
  destruct (rstrip_split (lstrip s)) as (b & E' & _).
  exists a, b. now rewrite <- E', <- E.
Qed.

Lemma rstrip_head (s : pystr) : head_not is_space s -> head_not is_space (rstrip s).
Proof.
  intros H. destruct (rstrip_split s) as (b & E & _).
  destruct (rstrip s) as [|c t]; [exact I|].
  rewrite E in H. exact H.
Qed.

Lemma strip_idem (s : pystr) : strip (strip s) = strip s.
Proof.
  unfold strip at 1.
  rewrite (lstrip_id (strip s)) by (apply rstrip_head, lstrip_head).
  unfold strip, rstrip. rewrite rev_involutive, lstrip_idem. reflexivity.
Qed.

Lemma strip_nil_iff (s : pystr) :
  strip s = [] <-> Forall (fun c => is_space c = true) s.
Proof.
  split.
  - intros H. unfold strip in H.
    destruct (lstrip_split s) as (a & E & Ha).
    destruct (rstrip_split (lstrip s)) as (b & E' & Hb).
    rewrite H in E'. simpl in E'. rewrite E, E'. apply Forall_app; auto.
  - intros H. unfold strip.
    assert (L : lstrip s = []).
    { induction H as [|c s Hc _ IH]; simpl; [reflexivity|]. now rewrite Hc. }
    now rewrite L.
Qed.

(** ** Single spacing *)

Lemma single_spaced_weaken b s :
  single_spaced b s = true -> single_spaced false s = true.
Proof.
  destruct s as [|c s]; simpl; [reflexivity|].
  destruct (is_space c); [|auto].
  rewrite !andb_true_iff. intros [[H1 _] H2]. auto.
Qed.

Lemma single_spaced_head s :
  single_spaced false s = true -> head_not is_space s ->
  single_spaced true s = true.
Proof.
  destruct s as [|c s]; simpl; [reflexivity|].
  intros H E. rewrite E in *. exact H.
Qed.

Lemma single_spaced_app b u v :
  single_spaced b (u ++ v) = true -> single_spaced b u = true.
Proof.
  revert b. induction u as [|c u IH]; intros b; simpl; [reflexivity|].
  destruct (is_space c); [|apply IH].
  rewrite !andb_true_iff. intros [H1 H2]. split; [exact H1|]. now apply IH.
Qed.

Lemma single_spaced_suffix b u v :
  single_spaced b (u ++ v) = true -> single_spaced false v = true.
Proof.
  revert b. induction u as [|c u IH]; intros b; simpl.
  - apply single_spaced_weaken.
  - destruct (is_space c); [|apply IH].
    rewrite !andb_true_iff. intros [_ H]. now apply IH in H.
Qed.

Lemma single_spaced_strip s :
  single_spaced false s = true -> single_spaced false (strip s) = true.
Proof.
  intros H. destruct (strip_split s) as (a & b & E). rewrite E in H.
  apply single_spaced_suffix in H. now apply single_spaced_app in H.
Qed.

Lemma single_spaced_chars b s c :
  single_spaced b s = true -> In c s -> is_space c = true -> c = SPACE.
Proof.
  revert b. induction s as [|d s IH]; intros b H Hin Hc; [destruct Hin|].
  simpl in H. destruct Hin as [->|Hin].
  - rewrite Hc in H. rewrite !andb_true_iff in H. destruct H as [[H _] _].
    now apply N.eqb_eq in H.
  - destruct (is_space d).
    + rewrite !andb_true_iff in H. destruct H as [_ H]. eapply IH; eauto.
    + eapply IH; eauto.
Qed.

Lemma single_spaced_no_newline b s : single_spaced b s = true -> ~ In LF s.
Proof.
  intros H Hin. apply (single_spaced_chars _ _ _ H) in Hin; [discriminate|].
  reflexivity.
Qed.

End StrFacts.

Import StrFacts.

(* ===================================================================== *)
(** * Facts about substitution *)
(* ===================================================================== *)

Module SubFacts.

Lemma lit_exact_match fl c ch :
  lit_exact fl c = true -> lit_match fl c ch = true -> ch = c.
Proof.
  unfold lit_exact, lit_match. destruct (ignorecase fl); simpl.
  - intros H. apply eqb_eq in H. rewrite H. simpl. rewrite orb_false_r.
    apply N.eqb_eq.
  - intros _. apply N.eqb_eq.
Qed.

(** Every match contains the required characters of its pattern. *)
Lemma required_matches fl x : forall r p u rest,
  In x (required fl r) -> matches fl r p u rest -> In x u.
Proof.
  induction r as [|a|g plus a|r' IH|r1 IH1 r2 IH2|n r' IH| |];
    simpl; intros p u rest Hx Hm; try contradiction.
  - destruct a as [c| |]; try contradiction.
    destruct (lit_exact fl c) eqn:E; [|contradiction].
    destruct Hx as [<-|[]]. destruct Hm as (ch & -> & Hc).
    simpl in Hc. apply lit_exact_match in Hc; auto. subst. now left.
  - destruct plus; [|contradiction]. destruct a as [c| |]; try contradiction.
    destruct (lit_exact fl c) eqn:E; [|contradiction].
    destruct Hx as [<-|[]]. destruct Hm as [Hall Hne].
    destruct u as [|ch u]; [now elim Hne|].
    inversion Hall; subst. simpl in H1. apply lit_exact_match in H1; auto.
    subst. now left.
  - destruct Hm as (u1 & u2 & -> & H1 & H2). apply in_or_app.
    apply in_app_or in Hx. destruct Hx as [Hx|Hx]; [left|right]; eauto.
  - eauto.
Qed.

(** A substitution leaves a text without a required character as it is. *)
Lemma sub_without_required pt tpl x s :
  nonnull (pat_re pt) = true ->
  In x (required (pat_flags pt) (pat_re pt)) ->
  ~ In x s -> sub pt tpl s = s.
Proof.
  intros Hn Hx. unfold sub. generalize (@None N).
  intros p Hs. revert s p Hs.
  apply (sub_from_ind pt tpl Hn (fun p s out => ~ In x s -> out = s)).
  - reflexivity.
  - intros p c s out _ IH Hs. f_equal. apply IH. intros H. apply Hs. now right.
  - intros p c u rest cs out _ Hm _ Hs. exfalso. apply Hs.
    apply in_or_app. left. eapply required_matches; eauto.
Qed.

(** ** The whitespace substitution *)

Lemma rep_greedy_all f : forall s p cs,
  exists u rest, s = u ++ rest /\ Forall (fun c => f c = true) u
                 /\ head_not f rest
                 /\ rep_greedy f p s cs (fun _ s' cs' => Some (s', cs'))
                    = Some (rest, cs).
Proof.
  induction s as [|c s IH]; intros p cs; simpl.
  - exists [], []. simpl. auto.
  - destruct (f c) eqn:E.
    + destruct (IH (Some c) cs) as (u & rest & -> & Hu & Hr & G).
      rewrite G. exists (c :: u), rest. auto.
    + exists [], (c :: s). simpl. auto.
Qed.

Lemma whitespace_run_hit p c s :
  is_space c = true ->
  exists u rest cs, s = u ++ rest /\ head_not is_space rest
               /\ match_at whitespace_run p (c :: s) = Some (rest, cs).
Proof.
  intros Hc. unfold match_at. simpl. rewrite orb_false_r. rewrite Hc.
  destruct (rep_greedy_all (fun ch => xorb false (is_space ch || false))
              s (Some c) []) as (u & rest & E & _ & Hr & G).
  exists u, rest, []. repeat split; auto.
  destruct rest; simpl in *; auto. now rewrite orb_false_r in Hr.
Qed.

Lemma whitespace_run_miss p c s :
  match_at whitespace_run p (c :: s) = None -> is_space c = false.
Proof.
  intros H. destruct (is_space c) eqn:E; [|reflexivity].
  destruct (whitespace_run_hit p c s E) as (u & rest & cs & _ & _ & G).
  congruence.
Qed.

Lemma whitespace_run_matches p u rest :
  matches (pat_flags whitespace_run) (pat_re whitespace_run) p u rest ->
  Forall (fun c => is_space c = true) u.
Proof.
  simpl. intros [H _]. eapply Forall_impl; [|exact H].
  intros c Hc. simpl in Hc. now rewrite orb_false_r in Hc.
Qed.

Lemma whitespace_run_rest p s rest cs :
  match_at whitespace_run p s = Some (rest, cs) -> head_not is_space rest.
Proof.
  intros H. destruct s as [|c s].
  - now rewrite match_at_nil in H.
  - destruct (is_space c) eqn:E.
    + destruct (whitespace_run_hit p c s E) as (u & rest' & cs' & _ & Hr & G).
      rewrite G in H. now inversion H; subst.
    + unfold match_at in H. simpl in H. rewrite orb_false_r, E in H. discriminate.
Qed.

(** After the whitespace substitution every whitespace is a single space. *)
Lemma collapse_whitespace_single_spaced s :
  single_spaced false (collapse_whitespace s) = true.
Proof.
  unfold collapse_whitespace, sub. generalize (@None N). intros p.
  enough (G : single_spaced false
                (sub_from whitespace_run [RText [SPACE]] 0 p s) = true
              /\ (head_not is_space s ->
                  head_not is_space (sub_from whitespace_run [RText [SPACE]] 0 p s)))
    by apply G.
  revert s p.
  apply (sub_from_ind whitespace_run [RText [SPACE]] eq_refl
           (fun p s out => single_spaced false out = true
                           /\ (head_not is_space s -> head_not is_space out))).
  - intros p. split; [reflexivity|auto].
  - intros p c s out Hmiss [IH1 IH2]. apply whitespace_run_miss in Hmiss.
    simpl. rewrite Hmiss. auto.
  - intros p c u rest cs out Hhit Hm [IH1 IH2]. split.
    + apply whitespace_run_rest in Hhit. simpl.
      now apply single_spaced_head; auto.
    + apply whitespace_run_matches in Hm. inversion Hm; subst.
      simpl. intros H. congruence.
Qed.

(** On such a text the whitespace substitution changes nothing. *)
Lemma collapse_whitespace_id s :
  single_spaced false s = true -> collapse_whitespace s = s.
Proof.
  unfold collapse_whitespace, sub. generalize (@None N). intros p. revert s p.
  apply (sub_from_ind whitespace_run [RText [SPACE]] eq_refl
           (fun p s out => single_spaced false s = true -> out = s)).
  - reflexivity.
  - intros p c s out Hmiss IH H. apply whitespace_run_miss in Hmiss.
    simpl in H. rewrite Hmiss in H. f_equal. auto.
  - intros p c u rest cs out Hhit Hm IH H.
    apply whitespace_run_matches in Hm. inversion Hm as [|? ? Hc Hu]; subst.
    simpl in H. rewrite Hc in H. rewrite !andb_true_iff in H.
    destruct H as [[Hsp _] H]. apply N.eqb_eq in Hsp. subst c.
    destruct u as [|d u].
    + simpl in *. f_equal. apply IH. eapply single_spaced_weaken; eauto.
    + exfalso. inversion Hu as [|? ? Hd _]; subst. simpl in H.
      rewrite Hd in H. rewrite !andb_true_iff in H.
      destruct H as [[_ H] _]. discriminate.
Qed.

Lemma collapse_blank_lines_id s : ~ In LF s -> collapse_blank_lines s = s.
Proof.
  apply sub_without_required with (x := LF); [reflexivity|].
  simpl. now left.
Qed.

End SubFacts.

Import SubFacts.

(* ===================================================================== *)
(** * Facts about tags *)
(* ===================================================================== *)

Module TagFacts.

Lemma no_tag_nil : no_tag [].
Proof. intros a b E. destruct a; discriminate. Qed.

Lemma no_tag_cons c s :
  no_tag (c :: s) <-> (c = LT -> ~ In GT s) /\ no_tag s.
Proof.
  split.
  - intros H. split.
    + intros ->. apply (H [] s). reflexivity.
    + intros a b E. apply (H (c :: a) b). simpl. now rewrite E.
  - intros [H1 H2] a b E. destruct a as [|d a]; simpl in E; inversion E; subst.
    + now apply H1.
    + eapply H2; eauto.
Qed.

Lemma no_tag_suffix u s : no_tag (u ++ s) -> no_tag s.
Proof.
  induction u as [|c u IH]; simpl; [auto|].
  intros H. apply no_tag_cons in H. now apply IH.
Qed.

Lemma no_tag_prefix u s : no_tag (u ++ s) -> no_tag u.
Proof.
  induction u as [|c u IH]; simpl; intros H; [apply no_tag_nil|].
  apply no_tag_cons in H. destruct H as [H1 H2]. apply no_tag_cons. split.
  - intros E Hin. apply (H1 E). apply in_or_app. now left.
  - now apply IH.
Qed.

Lemma no_tag_strip s : no_tag s -> no_tag (strip s).
Proof.
  intros H. destruct (strip_split s) as (a & b & E). rewrite E in H.
  apply no_tag_suffix in H. now apply no_tag_prefix in H.
Qed.

Lemma no_tag_app_plain e s : ~ In LT e -> no_tag s -> no_tag (e ++ s).
Proof.
  induction e as [|c e IH]; simpl; intros He Hs; [exact Hs|].
  apply no_tag_cons. split.
  - intros ->. exfalso. apply He. now left.
  - apply IH; auto.
Qed.

Lemma leading_matches fl c : forall r p u rest,
  leading fl r = Some c -> matches fl r p u rest -> exists u', u = c :: u'.
Proof.
  induction r as [|a|g plus a|r' IH|r1 IH1 r2 IH2|n r' IH| |];
    simpl; intros p u rest Hl Hm; try discriminate.
  - destruct a as [d| |]; try discriminate.
    destruct (lit_exact fl d) eqn:E; [|discriminate]. inversion Hl; subst.
    destruct Hm as (ch & -> & Hc). simpl in Hc.
    apply lit_exact_match in Hc; auto. subst. eauto.
  - destruct Hm as (u1 & u2 & -> & H1 & H2).
    destruct (IH1 _ _ _ Hl H1) as (u' & ->). simpl. eauto.
  - eauto.
Qed.

Lemma required_after_matches fl c x : forall r p u rest,
  leading fl r = Some c -> In x (required_after fl r) ->
  matches fl r p u rest -> exists u', u = c :: u' /\ In x u'.
Proof.
  induction r as [|a|g plus a|r' IH|r1 IH1 r2 IH2|n r' IH| |];
    simpl; intros p u rest Hl Hx Hm; try contradiction.
  - destruct Hm as (u1 & u2 & -> & H1 & H2).
    apply in_app_or in Hx. destruct Hx as [Hx|Hx].
    + destruct (IH1 _ _ _ Hl Hx H1) as (u' & -> & Hin).
      exists (u' ++ u2). split; [reflexivity|]. apply in_or_app. now left.
    + destruct (leading_matches _ _ _ _ _ _ Hl H1) as (u' & ->).
      exists (u' ++ u2). split; [reflexivity|]. apply in_or_app. right.
      eapply required_matches; eauto.
  - eauto.
Qed.

(** A pattern whose matches are tags leaves a text without tags alone. *)
Lemma sub_without_tag pt tpl s :
  nonnull (pat_re pt) = true ->
  leading (pat_flags pt) (pat_re pt) = Some LT ->
  In GT (required_after (pat_flags pt) (pat_re pt)) ->
  no_tag s -> sub pt tpl s = s.
Proof.
  intros Hn Hl Hx. unfold sub. generalize (@None N). intros p Hs.
  revert s p Hs.
  apply (sub_from_ind pt tpl Hn (fun p s out => no_tag s -> out = s)).
  - reflexivity.
  - intros p c s out _ IH Hs. f_equal. apply IH.
    apply no_tag_cons in Hs. apply Hs.
  - intros p c u rest cs out _ Hm _ Hs. exfalso.
    destruct (required_after_matches _ _ _ _ _ _ _ Hl Hx Hm) as (u' & E & Hin).
    inversion E; subst. apply (Hs [] (u' ++ rest)); [reflexivity|].
    apply in_or_app. now left.
Qed.

(** A substitution whose replacement holds no angle bracket keeps a text
    free of tags. *)
Lemma sub_keeps_no_tag pt tpl s :
  nonnull (pat_re pt) = true ->
  (forall cs, ~ In LT (expand tpl cs) /\ ~ In GT (expand tpl cs)) ->
  no_tag s -> no_tag (sub pt tpl s).
Proof.
  intros Hn Ht. unfold sub. generalize (@None N). intros p.
  enough (G : (In GT (sub_from pt tpl 0 p s) -> In GT s)
              /\ (no_tag s -> no_tag (sub_from pt tpl 0 p s))) by apply G.
  revert s p.
  apply (sub_from_ind pt tpl Hn
           (fun p s out => (In GT out -> In GT s) /\ (no_tag s -> no_tag out))).
  - intros p. split; auto.
  - intros p c s out _ [IH1 IH2]. split.
    + intros [->|H]; [now left|right; auto].
    + intros H. apply no_tag_cons in H. destruct H as [H1 H2].
      apply no_tag_cons. split; auto.
      intros E Hin. apply (H1 E). auto.
  - intros p c u rest cs out _ _ [IH1 IH2]. destruct (Ht cs) as [HL HG]. split.
    + intros H. apply in_app_or in H. destruct H as [H|H]; [contradiction|].
      apply in_or_app. right. auto.
    + intros H. apply no_tag_suffix in H. apply no_tag_app_plain; auto.
Qed.

Lemma rep_greedy_until (f g : N -> bool) :
  (forall c, f c = false -> g c = true) ->
  forall s p cs,
    rep_greedy f p s cs
      (fun p' s' cs' => one g p' s' cs' (fun _ s2 cs2 => Some (s2, cs2))) = None ->
    Forall (fun c => f c = true) s.
Proof.
  intros Hfg. induction s as [|c s IH]; intros p cs; simpl; [constructor|].
  destruct (f c) eqn:E.
  - destruct (rep_greedy f (Some c) s cs _) eqn:G; [discriminate|].
    intros _. constructor; eauto.
  - rewrite (Hfg _ E). discriminate.
Qed.

Lemma angle_tag_miss p s :
  match_at angle_tag p (LT :: s) = None -> ~ In GT s.
Proof.
  unfold match_at. simpl. intros H Hin.
  apply rep_greedy_until in H.
  - rewrite Forall_forall in H. apply H in Hin. discriminate.
  - intros c. unfold atom_match, lit_match. simpl.
    destruct (N.eqb c GT); simpl; auto.
Qed.

Lemma angle_tag_first p c s :
  match_at angle_tag p (c :: s) = None -> c = LT -> ~ In GT s.
Proof. intros H ->. eapply angle_tag_miss; eauto. Qed.

(** After the tag substitution no tag is left. *)
Lemma remove_tags_no_tag s : no_tag (remove_tags s).
Proof.
  unfold remove_tags, sub. generalize (@None N). intros p.
  enough (G : (In GT (sub_from angle_tag [] 0 p s) -> In GT s)
              /\ no_tag (sub_from angle_tag [] 0 p s)) by apply G.
  revert s p.
  apply (sub_from_ind angle_tag [] eq_refl
           (fun p s out => (In GT out -> In GT s) /\ no_tag out)).
  - intros p. split; [auto|apply no_tag_nil].
  - intros p c s out Hmiss [IH1 IH2]. split.
    + intros [->|H]; [now left|right; auto].
    + apply no_tag_cons. split; auto.
      intros E Hin. eapply angle_tag_first; eauto.
  - intros p c u rest cs out _ _ [IH1 IH2]. split; [|exact IH2].
    intros H. apply (in_or_app (c :: u) rest). right. auto.
Qed.

Lemma contains_split w : forall s,
  contains w s = true -> exists a b, s = a ++ w ++ b.
Proof.
  induction s as [|c s IH]; simpl; intros H.
  - rewrite orb_false_r in H. apply startswith_iff in H.
    destruct H as [t E]. exists [], t. exact E.
  - apply orb_true_iff in H. destruct H as [H|H].
    + apply startswith_iff in H. destruct H as [t E]. exists [], t. exact E.
    + destruct (IH H) as (a & b & ->). exists (c :: a), b. reflexivity.
Qed.

End TagFacts.

Import TagFacts.

(* ===================================================================== *)
(** * Facts about [clean_and_format_content] *)
(* ===================================================================== *)

Module CleanFacts.

Lemma clean_upto_whitespace_single_spaced x :
  single_spaced false (clean_upto_whitespace x) = true.
Proof. apply collapse_whitespace_single_spaced. Qed.

Lemma clean_upto_whitespace_no_newline x : ~ In LF (clean_upto_whitespace x).
Proof.
  eapply single_spaced_no_newline, clean_upto_whitespace_single_spaced.
Qed.

Lemma clean_is_trim x :
  clean_and_format_content x = strip (clean_upto_whitespace x).
Proof.
  unfold clean_and_format_content.
  now rewrite collapse_blank_lines_id by apply clean_upto_whitespace_no_newline.
Qed.

Lemma clean_single_spaced x :
  single_spaced false (clean_and_format_content x) = true.
Proof.
  rewrite clean_is_trim.
  apply single_spaced_strip, clean_upto_whitespace_single_spaced.
Qed.

Lemma clean_no_tag x : no_tag (clean_and_format_content x).
Proof.
  rewrite clean_is_trim. apply no_tag_strip.
  unfold clean_upto_whitespace, collapse_whitespace, remove_mermaid.
  apply sub_keeps_no_tag; [reflexivity| |].
  { intros cs. simpl. split; intros [H|[]]; discriminate. }
  apply sub_keeps_no_tag; [reflexivity| |].
  { intros cs. simpl. auto. }
  apply remove_tags_no_tag.
Qed.

End CleanFacts.

Import CleanFacts.

(* ===================================================================== *)
(** * Facts about [extract_wiki_structure_xml] *)
(* ===================================================================== *)

Module ExtractFacts.

Lemma consumes_matches fl : forall r p u rest,
  matches fl r p u rest -> Forall (fun c => consumes fl r c = true) u.
Proof.
  induction r as [|a|g plus a|r' IH|r1 IH1 r2 IH2|n r' IH| |];
    simpl; intros p u rest Hm.
  - subst. constructor.
  - destruct Hm as (c & -> & Hc). repeat constructor. exact Hc.
  - apply Hm.
  - destruct Hm as [->|Hm]; [constructor|eauto].
  - destruct Hm as (u1 & u2 & -> & H1 & H2). apply Forall_app. split.
    + eapply Forall_impl; [|eapply IH1; eauto].
      intros c Hc. simpl in Hc. now rewrite Hc.
    + eapply Forall_impl; [|eapply IH2; eauto].
      intros c Hc. simpl in Hc. rewrite Hc. apply orb_true_r.
  - eauto.
  - destruct Hm as [-> _]. constructor.
  - destruct Hm as [-> _]. constructor.
Qed.

Lemma not_consumed fl r p u rest x :
  consumes fl r x = false -> matches fl r p u rest -> ~ In x u.
Proof.
  intros Hx Hm Hin. apply consumes_matches in Hm.
  rewrite Forall_forall in Hm. apply Hm in Hin. congruence.
Qed.

(** ** The opening fence *)

Lemma fence_open_not_at_start c s : match_at fence_open (Some c) s = None.
Proof. reflexivity. Qed.

Lemma fence_open_later : forall s c,
  sub_from fence_open [] 0 (Some c) s = s.
Proof.
  induction s as [|d s IH]; intros c.
  - reflexivity.
  - rewrite sub_from_cons, fence_open_not_at_start. now rewrite IH.
Qed.

(** The opening-fence substitution removes a prefix without [<]. *)
Lemma fence_open_split s :
  exists a, s = a ++ sub fence_open [] s /\ ~ In LT a.
Proof.
  unfold sub. destruct s as [|c s].
  - exists []. simpl. auto.
  - destruct (match_at fence_open None (c :: s)) as [[rest cs]|] eqn:E.
    + pose proof E as E'. apply match_at_nonempty in E'; [|reflexivity].
      destruct E' as (c' & u & Es & Hm). rewrite Es in *.
      rewrite (sub_from_hit fence_open [] eq_refl None (c' :: u) rest cs E).
      simpl expand. simpl prev_after.
      assert (P : exists d, prev_after (Some c') u = Some d).
      { clear. revert c'. induction u as [|x u IH]; intros c'; simpl; eauto. }
      destruct P as [d ->]. rewrite fence_open_later.
      exists (c' :: u). split; [reflexivity|].
      eapply not_consumed; eauto. reflexivity.
    + rewrite sub_from_miss by exact E. rewrite fence_open_later.
      exists []. auto.
Qed.

(** ** The closing fence *)

Lemma rep_greedy_eol f : forall s p cs rest cs',
  f LF = true ->
  rep_greedy f p s cs
    (fun _ s' c' => if at_eol IGNORECASE s' then Some (s', c') else None)
  = Some (rest, cs') ->
  rest = [].
Proof.
  induction s as [|c s IH]; intros p cs rest cs' Hf; simpl.
  - intros H. now inversion H.
  - destruct (f c) eqn:E.
    + destruct (rep_greedy f (Some c) s cs _) as [[r1 c1]|] eqn:G.
      * intros H. inversion H; subst. eapply IH; eauto.
      * destruct (N.eqb c LF) eqn:L; simpl; [|discriminate].
        destruct s as [|d s]; [|discriminate].
        simpl in G. discriminate.
    + destruct (N.eqb c LF) eqn:L; simpl; [|discriminate].
      apply N.eqb_eq in L. subst. congruence.
Qed.

Lemma fence_close_to_end p s rest cs :
  match_at fence_close p s = Some (rest, cs) -> rest = [].
Proof.
  unfold match_at, fence_close. cbn [pat_re pat_flags cat m star].
  intros H. apply m_sound in H.
  destruct H as (u & r1 & c1 & _ & _ & H).
  eapply rep_greedy_eol in H; [exact H|reflexivity].
Qed.

(** The closing-fence substitution removes a suffix without [>]. *)
Lemma fence_close_split s :
  exists b, s = sub fence_close [] s ++ b /\ ~ In GT b.
Proof.
  unfold sub. generalize (@None N). intros p. revert s p.
  apply (sub_from_ind fence_close [] eq_refl
           (fun p s out => exists b, s = out ++ b /\ ~ In GT b)).
  - intros p. exists []. auto.
  - intros p c s out _ (b & -> & Hb). exists b. auto.
  - intros p c u rest cs out Hhit Hm (b & E & Hb).
    apply fence_close_to_end in Hhit. subst rest.
    destruct out; [|discriminate]. simpl in E. subst b.
    exists (c :: u). split; [now rewrite app_nil_r|].
    eapply not_consumed; eauto. reflexivity.
Qed.

(** ** The control characters *)

Lemma control_class c :
  atom_match no_flags
    (Cls false [CRange 0 8; CChar 11; CChar 12; CRange 14 31; CChar 127]) c
  = is_stripped_control c.
Proof.
  unfold atom_match, is_stripped_control, item_match, existsb, in_range, xorb.
  repeat match goal with
         | |- context [N.leb ?a ?b] => destruct (N.leb_spec a b)
         | |- context [N.eqb ?a ?b] => destruct (N.eqb_spec a b)
         end; simpl; try reflexivity; lia.
Qed.

Lemma control_chars_at p c s :
  match_at control_chars p (c :: s)
  = if is_stripped_control c then Some (s, []) else None.
Proof. rewrite <- control_class. reflexivity. Qed.

Lemma sub_control_chars s : sub control_chars [] s = without_controls s.
Proof.
  unfold sub. generalize (@None N). intros p. revert s p.
  apply (sub_from_ind control_chars [] eq_refl
           (fun p s out => out = without_controls s)).
  - reflexivity.
  - intros p c s out Hmiss ->. rewrite control_chars_at in Hmiss.
    unfold without_controls. simpl.
    destruct (is_stripped_control c); [discriminate|reflexivity].
  - intros p c u rest cs out Hhit _ ->.
    change ((c :: u) ++ rest) with (c :: u ++ rest) in *.
    rewrite control_chars_at in Hhit.
    unfold without_controls. simpl.
    destruct (is_stripped_control c); [|discriminate].
    inversion Hhit as [E]. apply (f_equal (@length N)) in E.
    rewrite length_app in E. destruct u; [reflexivity|simpl in E; lia].
Qed.

End ExtractFacts.

Import ExtractFacts.

(* ===================================================================== *)
(** * The search for the delimited region *)
(* ===================================================================== *)

Module SearchFacts.

Lemma skipn_length_app (w t : pystr) : skipn (length w) (w ++ t) = t.
Proof. induction w as [|c w IH]; simpl; auto. Qed.

Lemma firstn_length_app (w t : pystr) : firstn (length w) (w ++ t) = w.
Proof. induction w as [|c w IH]; simpl; [reflexivity|now rewrite IH]. Qed.

(** A literal of a case-sensitive pattern matches its own text only. *)
Lemma m_lit (R : Type) fl : ignorecase fl = false ->
  forall w p s cs (k : cont R),
    m fl (lit w) p s cs k
    = if startswith w s then k (prev_after p w) (skipn (length w) s) cs
      else None.
Proof.
  intros Hfl. induction w as [|c w IH]; intros p s cs k.
  - reflexivity.
  - assert (H1 : forall (k' : cont R),
               one (atom_match fl (Lit c)) p s cs k'
               = match s with
                 | e :: s' => if N.eqb c e then k' (Some e) s' cs else None
                 | [] => None
                 end).
    { intros k'. destruct s as [|e s']; [reflexivity|]. simpl.
      unfold lit_match. rewrite Hfl, N.eqb_sym. reflexivity. }
    destruct w as [|d w].
    + simpl lit. cbn [m]. rewrite H1. destruct s as [|e s']; [reflexivity|].
      simpl. destruct (N.eqb c e) eqn:E; [|reflexivity].
      apply N.eqb_eq in E. now subst.
    + change (lit (c :: d :: w)) with (Cat (One (Lit c)) (lit (d :: w))).
      cbn [m]. rewrite H1. destruct s as [|e s']; [reflexivity|].
      cbn [startswith]. destruct (N.eqb c e) eqn:E; [|reflexivity].
      apply N.eqb_eq in E. subst. rewrite IH. reflexivity.
Qed.

(** A lazy repetition of the class of all characters stops at the first
    place where the rest of the pattern matches. *)
Lemma rep_lazy_first (R : Type) f : (forall c, f c = true) ->
  forall s p cs (k : cont R),
    match rep_lazy f p s cs k with
    | Some x =>
        exists u rest, s = u ++ rest /\ k (prev_after p u) rest cs = Some x
          /\ (forall u' rest', s = u' ++ rest' -> length u' < length u ->
                               k (prev_after p u') rest' cs = None)
    | None => forall u rest, s = u ++ rest -> k (prev_after p u) rest cs = None
    end.
Proof.
  intros Hf. induction s as [|c s IH]; intros p cs k; simpl.
  - destruct (k p [] cs) eqn:K.
    + exists [], []. repeat split; auto. intros u' rest' _ H. simpl in H. lia.
    + intros u rest E. symmetry in E. apply app_eq_nil in E.
      destruct E as [-> ->]. exact K.
  - destruct (k p (c :: s) cs) eqn:K.
    + exists [], (c :: s). repeat split; auto.
      intros u' rest' _ H. simpl in H. lia.
    + rewrite Hf. specialize (IH (Some c) cs k).
      destruct (rep_lazy f (Some c) s cs k) as [x|].
      * destruct IH as (u & rest & -> & Hk & Hmin).
        exists (c :: u), rest. repeat split; auto.
        intros u' rest' E H. destruct u' as [|d u'].
        -- simpl in E. subst rest'. exact K.
        -- simpl in E. inversion E; subst. apply Hmin; auto. simpl in H. lia.
      * intros u rest E. destruct u as [|d u].
        -- simpl in E. subst rest. exact K.
        -- simpl in E. inversion E; subst. now apply IH.
Qed.


Lemma any_char_matches fl c : atom_match fl any_char c = true.
Proof. simpl. destruct (is_space c); reflexivity. Qed.


Lemma end_marker_cont_eq p s cs :
  end_marker_cont p s cs
  = if startswith END_MARKER s then Some (skipn (length END_MARKER) s, cs)
    else None.
Proof. unfold end_marker_cont. now rewrite m_lit. Qed.

Lemma wiki_block_at p s :
  match_at wiki_block p s
  = if startswith START_MARKER s
    then rep_lazy (atom_match MULTILINE any_char) (prev_after p START_MARKER)
           (skipn (length START_MARKER) s) [] end_marker_cont
    else None.
Proof.
  unfold match_at, wiki_block. cbn [pat_re pat_flags cat m lazy_star].
  rewrite m_lit by reflexivity. reflexivity.
Qed.

Lemma wiki_block_hit p s rest cs :
  match_at wiki_block p s = Some (rest, cs) ->
  exists body,
    s = START_MARKER ++ body ++ END_MARKER ++ rest
    /\ (forall b' post', body ++ END_MARKER ++ rest = b' ++ END_MARKER ++ post' ->
                         length body <= length b').
Proof.
  rewrite wiki_block_at. destruct (startswith START_MARKER s) eqn:S;
    [|discriminate].
  apply startswith_iff in S. destruct S as [t ->].
  rewrite skipn_length_app. intros H.
  pose proof (rep_lazy_first (pystr * caps) _ (any_char_matches MULTILINE) t
                (prev_after p START_MARKER) [] end_marker_cont) as L.
  rewrite H in L. destruct L as (u & r & -> & Hk & Hmin).
  rewrite end_marker_cont_eq in Hk.
  destruct (startswith END_MARKER r) eqn:E; [|discriminate].
  apply startswith_iff in E. destruct E as [r' ->].
  rewrite skipn_length_app in Hk. inversion Hk; subst.
  exists u. split; [reflexivity|].
  intros b' post' E. destruct (le_lt_dec (length u) (length b')) as [|Hlt];
    [assumption|exfalso].
  specialize (Hmin b' (END_MARKER ++ post') E Hlt).
  rewrite end_marker_cont_eq, startswith_app in Hmin. discriminate.
Qed.

Lemma wiki_block_miss p b :
  match_at wiki_block p (START_MARKER ++ b) = None ->
  forall u post, b <> u ++ END_MARKER ++ post.
Proof.
  rewrite wiki_block_at, startswith_app, skipn_length_app. intros H u post E.
  pose proof (rep_lazy_first (pystr * caps) _ (any_char_matches MULTILINE) b
                (prev_after p START_MARKER) [] end_marker_cont) as L.
  rewrite H in L. specialize (L u (END_MARKER ++ post) E).
  rewrite end_marker_cont_eq, startswith_app in L. discriminate.
Qed.

Lemma wiki_block_needs_start p s :
  startswith START_MARKER s = false -> match_at wiki_block p s = None.
Proof. intros H. now rewrite wiki_block_at, H. Qed.

Lemma has_fragment_cons c s :
  has_fragment (c :: s) ->
  (exists body post, c :: s = START_MARKER ++ body ++ END_MARKER ++ post)
  \/ has_fragment s.
Proof.
  intros (pre & body & post & E). destruct pre as [|d pre].
  - left. eauto.
  - right. simpl in E. inversion E; subst. exists pre, body, post. reflexivity.
Qed.

(** [re.search] finds the first delimited region, or there is none. *)
Lemma search_wiki_block : forall t p,
  match search_from wiki_block p t with
  | Some x => exists pre body post,
                first_region t pre body post
                /\ x = START_MARKER ++ body ++ END_MARKER
  | None => ~ has_fragment t
  end.
Proof.
  induction t as [|c t IH]; intros p.
  - cbn [search_from]. rewrite (match_at_nil wiki_block eq_refl).
    intros (pre & body & post & E). destruct pre; discriminate.
  - cbn [search_from].
    destruct (match_at wiki_block p (c :: t)) as [[rest cs]|] eqn:M.
    + apply wiki_block_hit in M. destruct M as (body & E & Hmin).
      exists [], body, rest. split.
      * split; [exact E|]. split; [intros; simpl; lia|exact Hmin].
      * rewrite E.
        assert (A : START_MARKER ++ body ++ END_MARKER ++ rest
                    = (START_MARKER ++ body ++ END_MARKER) ++ rest)
          by now rewrite <- !app_assoc.
        rewrite A, length_app.
        replace (length (START_MARKER ++ body ++ END_MARKER) + length rest
                 - length rest)
          with (length (START_MARKER ++ body ++ END_MARKER)) by lia.
        apply firstn_length_app.
    + specialize (IH (Some c)).
      assert (No : forall body post,
                 c :: t <> START_MARKER ++ body ++ END_MARKER ++ post).
      { intros body post E. rewrite E in M.
        eapply wiki_block_miss in M. apply M. reflexivity. }
      destruct (search_from wiki_block (Some c) t) as [x|].
      * destruct IH as (pre & body & post & (E & Hpre & Hbody) & ->).
        exists (c :: pre), body, post. split; [|reflexivity].
        split; [simpl; now rewrite E|]. split; [|exact Hbody].
        intros a b Ea. destruct a as [|d a].
        -- exfalso. change ([] ++ START_MARKER ++ b) with (START_MARKER ++ b) in Ea.
           (* a start marker at the head would have matched *)
           assert (Eq : START_MARKER ++ b
                        = (c :: pre ++ START_MARKER ++ body) ++ END_MARKER ++ post).
           { rewrite <- Ea, E. cbn [app]. now rewrite <- !app_assoc. }
           apply (f_equal (skipn (length START_MARKER))) in Eq.
           rewrite skipn_length_app, skipn_app in Eq.
           replace (length START_MARKER
                    - length (c :: pre ++ START_MARKER ++ body)) with 0 in Eq
             by (cbn [length]; rewrite !length_app; lia).
           rewrite skipn_O in Eq.
           apply (No _ _ (eq_trans Ea (f_equal (app START_MARKER) Eq))).
        -- change ((d :: a) ++ START_MARKER ++ b)
             with (d :: a ++ START_MARKER ++ b) in Ea.
           inversion Ea; subst d.
           simpl. apply le_n_S. apply (Hpre a b). exact H1.
      * intros Hf. apply has_fragment_cons in Hf.
        destruct Hf as [(body & post & E)|Hf]; [eapply No; eauto|auto].
Qed.

(** ** Cutting the fences off keeps the region *)

Lemma app_eq_left (c : N) : forall a x pre y,
  a ++ x = pre ++ c :: y -> ~ In c a ->
  exists pre', pre = a ++ pre' /\ x = pre' ++ c :: y.
Proof.
  induction a as [|d a IH]; intros x pre y E Ha.
  - exists pre. auto.
  - destruct pre as [|e pre]; simpl in E; inversion E; subst.
    + exfalso. apply Ha. now left.
    + destruct (IH x pre y H1) as (pre' & -> & ->).
      * intros H. apply Ha. now right.
      * exists pre'. auto.
Qed.

Lemma app_eq_right (c : N) x b y post :
  x ++ b = (y ++ [c]) ++ post -> ~ In c b ->
  exists post', post = post' ++ b /\ x = (y ++ [c]) ++ post'.
Proof.
  intros E Hb. apply (f_equal (@rev N)) in E.
  rewrite !rev_app_distr in E. simpl in E.
  destruct (app_eq_left c (rev b) (rev x) (rev post) (rev y) E) as (q & E1 & E2).
  { intros H. apply Hb. now apply in_rev. }
  exists (rev q). split.
  - apply (f_equal (@rev N)) in E1. rewrite rev_involutive in E1.
    rewrite E1, rev_app_distr, rev_involutive. reflexivity.
  - apply (f_equal (@rev N)) in E2. rewrite rev_involutive in E2.
    rewrite E2, rev_app_distr. simpl. rewrite rev_involutive.
    now rewrite <- app_assoc.
Qed.


Lemma start_marker_shape : START_MARKER = LT :: START_MID ++ [GT].
Proof. reflexivity. Qed.

Lemma end_marker_shape : END_MARKER = LT :: END_MID ++ [GT].
Proof. reflexivity. Qed.

(** An occurrence of a text that starts with [<] and ends with [>] in
    [a ++ r ++ b], where [a] holds no [<] and [b] no [>], lies in [r]. *)
Lemma occurrence_inside a r b pre w post :
  a ++ r ++ b = pre ++ (LT :: w ++ [GT]) ++ post ->
  ~ In LT a -> ~ In GT b ->
  exists pre' post', pre = a ++ pre' /\ post = post' ++ b
                     /\ r = pre' ++ (LT :: w ++ [GT]) ++ post'.
Proof.
  intros E Ha Hb. simpl in E.
  destruct (app_eq_left LT a (r ++ b) pre ((w ++ [GT]) ++ post) E Ha)
    as (pre' & -> & E').
  assert (E2 : r ++ b = ((pre' ++ LT :: w) ++ [GT]) ++ post).
  { rewrite E'. rewrite <- !app_assoc. reflexivity. }
  destruct (app_eq_right GT r b (pre' ++ LT :: w) post E2 Hb)
    as (post' & -> & ->).
  exists pre', post'. repeat split. simpl. rewrite <- !app_assoc. reflexivity.
Qed.

Lemma first_region_inside a r b pre body post :
  ~ In LT a -> ~ In GT b ->
  first_region r pre body post ->
  first_region (a ++ r ++ b) (a ++ pre) body (post ++ b).
Proof.
  intros Ha Hb (E & Hpre & Hbody). split; [|split].
  - rewrite E. now rewrite <- !app_assoc.
  - intros a0 b0 E0. rewrite start_marker_shape in E0.
    destruct (occurrence_inside a r b a0 START_MID b0 E0 Ha Hb)
      as (a1 & b1 & -> & -> & Er).
    rewrite <- start_marker_shape in Er. apply Hpre in Er.
    rewrite !length_app. lia.
  - intros b' q E0.
    assert (E1 : [] ++ (body ++ END_MARKER ++ post) ++ b
                 = b' ++ (LT :: END_MID ++ [GT]) ++ q).
    { rewrite <- end_marker_shape, <- E0, app_nil_l.
      now rewrite <- !app_assoc. }
    destruct (occurrence_inside [] _ b b' END_MID q E1 (fun H => H) Hb)
      as (a1 & b1 & -> & -> & Er).
    rewrite <- end_marker_shape in Er. apply Hbody in Er. exact Er.
Qed.

Lemma first_region_fragment s pre body post :
  first_region s pre body post -> has_fragment s.
Proof. intros [E _]. exists pre, body, post. exact E. Qed.

Lemma region_shape body :
  START_MARKER ++ body ++ END_MARKER
  = LT :: (START_MID ++ [GT] ++ body ++ LT :: END_MID) ++ [GT].
Proof.
  rewrite start_marker_shape, end_marker_shape.
  repeat (cbn [app]; rewrite <- ?app_assoc). reflexivity.
Qed.

Lemma has_fragment_inside a r b :
  ~ In LT a -> ~ In GT b -> has_fragment (a ++ r ++ b) -> has_fragment r.
Proof.
  intros Ha Hb (pre & body & post & E).
  assert (E1 : a ++ r ++ b
               = pre ++ (LT :: (START_MID ++ [GT] ++ body ++ LT :: END_MID) ++ [GT])
                 ++ post).
  { rewrite E, <- region_shape. now rewrite <- !app_assoc. }
  destruct (occurrence_inside a r b pre _ post E1 Ha Hb)
    as (a1 & b1 & _ & _ & Er).
  exists a1, body, b1. rewrite Er, <- region_shape. now rewrite <- !app_assoc.
Qed.

(** The fences cut off, the search finds the first region of the response. *)
Lemma search_after_fences s :
  match search wiki_block (sub fence_close [] (sub fence_open [] s)) with
  | Some x => exists pre body post,
                first_region s pre body post
                /\ x = START_MARKER ++ body ++ END_MARKER
  | None => ~ has_fragment s
  end.
Proof.
  destruct (fence_open_split s) as (a & Ea & Ha).
  destruct (fence_close_split (sub fence_open [] s)) as (b & Eb & Hb).
  set (r := sub fence_close [] (sub fence_open [] s)) in *.
  assert (Es : s = a ++ r ++ b) by (rewrite <- Eb; exact Ea).
  pose proof (search_wiki_block r None) as H. unfold search.
  destruct (search_from wiki_block None r) as [x|].
  - destruct H as (pre & body & post & Hr & ->).
    exists (a ++ pre), body, (post ++ b). split; [|reflexivity].
    rewrite Es. now apply first_region_inside.
  - intros Hf. apply H. rewrite Es in Hf. eapply has_fragment_inside; eauto.
Qed.

Lemma fragment_not_blank s :
  has_fragment s -> ~ Forall (fun c => is_space c = true) s.
Proof.
  intros (pre & body & post & ->) H.
  apply Forall_app in H. destruct H as [_ H].
  rewrite start_marker_shape in H. inversion H; subst. discriminate.
Qed.

Lemma extract_blank s :
  Forall (fun c => is_space c = true) s ->
  extract_wiki_structure_xml s = Raise (ValueError MSG_EMPTY).
Proof.
  intros H. apply strip_nil_iff in H. unfold extract_wiki_structure_xml.
  rewrite H. now destruct s.
Qed.

Lemma extract_not_blank s :
  ~ Forall (fun c => is_space c = true) s ->
  extract_wiki_structure_xml s
  = match search wiki_block (sub fence_close [] (sub fence_open [] s)) with
    | None => Raise (ValueError MSG_NO_XML)
    | Some xml_match => Return (sub control_chars [] xml_match)
    end.
Proof.
  intros H. unfold extract_wiki_structure_xml.
  destruct s as [|c s]; [elim H; constructor|].
  destruct (strip (c :: s)) eqn:E; [|reflexivity].
  elim H. now apply strip_nil_iff.
Qed.

Lemma blank_dec s :
  {Forall (fun c => is_space c = true) s}
  + {~ Forall (fun c => is_space c = true) s}.
Proof.
  apply Forall_dec. intros c. destruct (is_space c); [left|right]; congruence.
Qed.

(** The three outcomes of the extractor. *)
Lemma extract_cases s :
  (Forall (fun c => is_space c = true) s
   /\ extract_wiki_structure_xml s = Raise (ValueError MSG_EMPTY))
  \/ (~ Forall (fun c => is_space c = true) s /\ ~ has_fragment s
      /\ extract_wiki_structure_xml s = Raise (ValueError MSG_NO_XML))
  \/ (~ Forall (fun c => is_space c = true) s
      /\ exists pre body post,
           first_region s pre body post
           /\ extract_wiki_structure_xml s
              = Return (without_controls (START_MARKER ++ body ++ END_MARKER))).
Proof.
  destruct (blank_dec s) as [B|B].
  - left. split; [exact B|now apply extract_blank].
  - right. rewrite (extract_not_blank s B).
    pose proof (search_after_fences s) as H.
    destruct (search wiki_block _) as [x|].
    + right. split; [exact B|].
      destruct H as (pre & body & post & Hr & ->).
      exists pre, body, post. split; [exact Hr|].
      now rewrite sub_control_chars.
    + left. auto.
Qed.

Lemma without_controls_region body :
  without_controls (START_MARKER ++ body ++ END_MARKER)
  = START_MARKER ++ without_controls body ++ END_MARKER.
Proof. unfold without_controls. now rewrite !filter_app. Qed.

Lemma strip_region body :
  strip (START_MARKER ++ body ++ END_MARKER)
  = START_MARKER ++ body ++ END_MARKER.
Proof.
  unfold strip. rewrite lstrip_id by reflexivity.
  unfold rstrip. rewrite !rev_app_distr, lstrip_id by reflexivity.
  rewrite <- !rev_app_distr, rev_involutive. reflexivity.
Qed.

Lemma endswith_app w s : endswith w (s ++ w) = true.
Proof. unfold endswith. rewrite rev_app_distr. apply startswith_app. Qed.

End SearchFacts.

Import SearchFacts.

(* ===================================================================== *)
(** * Facts about the report writer *)
(* ===================================================================== *)

Module ReportFacts.

Lemma dict_get_find d key default :
  dict_get d key default = match dict_find d key with
                           | Some v => v
                           | None => default
                           end.
Proof.
  induction d as [|[k v] d IH]; simpl; [reflexivity|].
  destruct k; auto. destruct (PyStr.eqb s key); auto.
Qed.

Lemma file_content_set files f c : file_content (set_file files f c) f = Some c.
Proof.
  unfold set_file. simpl.
  replace (PyStr.eqb f f) with true; [reflexivity|].
  symmetry. now apply eqb_eq.
Qed.

Lemma strs_of_ok l ss : strs_of l = Return ss -> l = List.map VStr ss.
Proof.
  revert ss. induction l as [|x l IH]; simpl; intros ss H.
  - inversion H. reflexivity.
  - destruct x; try discriminate.
    destruct (strs_of l) as [ss'|e]; [|discriminate].
    inversion H; subst. simpl. f_equal. now apply IH.
Qed.

Lemma strs_of_error l e : strs_of l = Raise e -> e = TypeError.
Proof.
  induction l as [|x l IH]; simpl; [discriminate|].
  destruct x; try (intros H; inversion H; reflexivity).
  destruct (strs_of l) as [ss'|e']; [discriminate|].
  intros H. inversion H; subst. now apply IH.
Qed.

Lemma joined_or_none_error v e : joined_or_none v = Raise e -> e = TypeError.
Proof.
  destruct v as [| | | |l|]; try discriminate.
  destruct l as [|x l]; [discriminate|].
  unfold joined_or_none, py_join.
  destruct (strs_of (x :: l)) as [ss|e'] eqn:E; [discriminate|].
  intros H. inversion H; subst. eapply strs_of_error; eauto.
Qed.

Lemma py_len_error v e : py_len v = Raise e -> e = TypeError.
Proof. destruct v; simpl; intros H; inversion H; reflexivity. Qed.

(** How a list field is rendered. *)
Lemma joined_or_none_rendering d key text :
  joined_or_none (dict_get d key (VList [])) = Return text ->
  field_rendering d key text.
Proof.
  unfold field_rendering. rewrite dict_get_find.
  destruct (dict_find d key) as [v|]; simpl.
  - destruct v as [| | | |l|]; simpl; try (intros H; now inversion H).
    destruct l as [|x l]; [intros H; now inversion H|].
    unfold py_join. destruct (strs_of (x :: l)) as [ss|e] eqn:E; [|discriminate].
    intros H. inversion H; subst. apply strs_of_ok in E. eauto.
  - intros H. now inversion H.
Qed.

Section Runs.

Variable f : pystr.

Lemma run_conseq {A} (c : IO A) (P Q : A -> pystr -> Prop) :
  (forall a t, P a t -> Q a t) -> run_spec f c P -> run_spec f c Q.
Proof.
  intros HPQ Hc w. destruct (Hc w) as (H1 & H2 & H3 & H4 & H5).
  repeat split; auto. destruct (snd (c w)) as [a|e]; [|exact H5].
  destruct H5 as (Hn & t & Ht & Hc'). split; [exact Hn|]. eauto.
Qed.

Lemma run_lift {A} (r : result A) :
  (forall errno, r <> Raise (OSError errno)) ->
  run_spec f (lift r) (fun a t => r = Return a /\ t = []).
Proof.
  intros Hr w. unfold lift. simpl. repeat split; auto.
  destruct r as [a|e].
  - split; [intros n Hn; lia|]. exists []. now rewrite app_nil_r.
  - destruct e; try (intros n Hn; lia). elim (Hr errno). reflexivity.
Qed.

Lemma run_write s : run_spec f (write f s) (fun _ t => t = s).
Proof.
  intros w. unfold write. destruct (existsb is_surrogate s).
  - unfold lift. simpl. repeat split; auto. intros n Hn. lia.
  - unfold bind, os_call. destruct (w_faults w (w_calls w)) as [errno|] eqn:E;
      cbn [fst snd w_faults w_calls w_log w_open w_files];
      repeat split; auto.
    + exists (w_calls w). split; [lia|exact E].
    + intros n Hn. assert (n = w_calls w) by lia. now subst.
    + exists s. split; [reflexivity|].
      unfold content. cbn [w_files]. now rewrite file_content_set.
Qed.

Lemma run_bind {A B} (c : IO A) (k : A -> IO B) (P : A -> pystr -> Prop)
    (Q : A -> B -> pystr -> Prop) :
  run_spec f c P -> (forall a, run_spec f (k a) (Q a)) ->
  run_spec f (bind c k)
    (fun b t => exists a t1 t2, P a t1 /\ Q a b t2 /\ t = t1 ++ t2).
Proof.
  intros Hc Hk w. unfold bind.
  destruct (Hc w) as (H1 & H2 & H3 & H4 & H5).
  destruct (c w) as [w1 r1]. simpl in *. destruct r1 as [a|e].
  - destruct H5 as (Hn & t1 & Ht1 & Hc1).
    destruct (Hk a w1) as (K1 & K2 & K3 & K4 & K5).
    destruct (k a w1) as [w2 r2]. simpl in *.
    repeat split; try congruence; try lia.
    destruct r2 as [b|e].
    + destruct K5 as (Kn & t2 & Ht2 & Hc2). split.
      * intros n Hr. destruct (le_lt_dec (w_calls w1) n).
        -- rewrite <- H1. apply Kn. lia.
        -- apply Hn. lia.
      * exists (t1 ++ t2). split; [eauto 8|].
        rewrite Hc2, Hc1. now rewrite app_assoc.
    + destruct e; try (intros n Hr; destruct (le_lt_dec (w_calls w1) n);
                       [rewrite <- H1; apply K5; lia|apply Hn; lia]).
      destruct K5 as (n & Hr & Hf). exists n. split; [lia|].
      now rewrite <- H1.
  - simpl. repeat split; auto.
Qed.

End Runs.

End ReportFacts.

Import ReportFacts.

Module WriterFacts.

Section Writer.

Variable repr : PyVal -> pystr.
Variable uni_title : N -> pystr.
Variable uni_lower : pystr -> nat -> pystr.
Variable uni_cased : N -> bool.
Variable f : pystr.

Lemma as_dict_no_os_error (v : PyVal) errno :
  match v with
  | VDict d => Return d
  | _ => Raise AttributeError
  end <> Raise (OSError errno).
Proof. destruct v; discriminate. Qed.

Lemma default_title_no_os_error (v : PyVal) errno :
  match v with
  | VStr s => Return (VStr (title uni_title uni_lower uni_cased
                              (replace_char 45 32 s)))
  | _ => Raise AttributeError
  end <> Raise (OSError errno).
Proof. destruct v; discriminate. Qed.

Lemma joined_or_none_no_os_error v errno :
  joined_or_none v <> Raise (OSError errno).
Proof. intros H. apply joined_or_none_error in H. discriminate. Qed.

Lemma py_len_no_os_error v errno : py_len v <> Raise (OSError errno).
Proof. intros H. apply py_len_error in H. discriminate. Qed.

(** The loop body writes the section of its item, or raises. *)
Lemma run_write_page page_id page_data :
  run_spec f (write_page repr uni_title uni_lower uni_cased f page_id page_data)
    (fun _ t => is_section repr uni_title uni_lower uni_cased page_id page_data t).
Proof.
  unfold write_page.
  eapply run_conseq;
    [|eapply run_bind; [apply run_lift, as_dict_no_os_error|intros d];
      eapply run_bind; [apply run_lift, default_title_no_os_error|intros dt];
      cbv zeta;
      eapply run_bind; [apply run_lift, joined_or_none_no_os_error|intros rel];
      eapply run_bind; [apply run_lift, joined_or_none_no_os_error|intros fps];
      eapply run_bind; [apply run_write|intros ?];
      eapply run_bind; [apply run_lift, py_len_no_os_error|intros n];
      eapply run_bind; [apply run_write|intros ?];
      eapply run_bind; [apply run_write|intros ?];
      eapply run_bind; [apply run_write|intros ?];
      eapply run_bind; [apply run_write|intros ?];
      eapply run_bind; [apply run_write|intros ?];
      eapply run_bind; [apply run_write|intros ?];
      eapply run_bind; [apply run_write|intros ?];
      apply run_write].
  cbv beta. intros [] t H.
  repeat match goal with
         | H : exists _, _ |- _ => destruct H
         | H : _ /\ _ |- _ => destruct H
         end.
  subst.
  destruct page_data; try discriminate.
  destruct page_id; try discriminate.
  match goal with H : Return _ = Return _ |- _ => inversion H; subst; clear H end.
  match goal with H : Return _ = Return _ |- _ => inversion H; subst; clear H end.
  do 5 eexists. repeat (split; [eassumption || reflexivity|]).
  reflexivity.
Qed.

Lemma run_for_each (data : list (PyVal * PyVal)) :
  run_spec f (for_each data
                (fun item => write_page repr uni_title uni_lower uni_cased f
                               (fst item) (snd item)))
    (fun _ t => exists texts,
         Forall2 (fun item text =>
                    is_section repr uni_title uni_lower uni_cased
                      (fst item) (snd item) text)
                 data texts
         /\ t = concat texts).
Proof.
  induction data as [|item data IH]; cbn [for_each].
  - intros w. unfold ret. simpl. repeat split; auto.
    + intros n Hn. lia.
    + exists []. split; [|now rewrite app_nil_r]. exists []. split; constructor.
  - eapply run_conseq;
      [|eapply run_bind; [apply run_write_page|intros ?; apply IH]].
    cbv beta. intros [] t (a & t1 & t2 & H1 & (texts & H2 & ->) & ->).
    exists (t1 :: texts). split; [constructor; auto|reflexivity].
Qed.

Lemma write_page_returns page_id page_data w :
  snd (write_page repr uni_title uni_lower uni_cased f page_id page_data w)
  = Return tt ->
  exists text,
    is_section repr uni_title uni_lower uni_cased page_id page_data text
    /\ content (fst (write_page repr uni_title uni_lower uni_cased f
                       page_id page_data w)) f
       = content w f ++ text.
Proof.
  intros H. destruct (run_write_page page_id page_data w) as (_ & _ & _ & _ & S).
  rewrite H in S. destruct S as (_ & text & Ht & Hc). eauto.
Qed.



End Writer.

End WriterFacts.

Import WriterFacts.

Module OutcomeFacts.

Section Outcome.

Variable repr : PyVal -> pystr.
Variable uni_title : N -> pystr.
Variable uni_lower : pystr -> nat -> pystr.
Variable uni_cased : N -> bool.

Lemma not_in_closed path l :
  ~ In path (filter (fun p => negb (PyStr.eqb p path)) l).
Proof.
  intros H. apply filter_In in H. destruct H as [_ H].
  assert (E : PyStr.eqb path path = true) by now apply eqb_eq.
  rewrite E in H. discriminate.
Qed.

(** The [with] block: the stream is opened, the loop runs, the stream is
    closed. *)
Lemma run_with_open path (data : list (PyVal * PyVal)) w :
  let r := with_open_w path
             (fun f => for_each data
                         (fun item => write_page repr uni_title uni_lower
                                        uni_cased f (fst item) (snd item))) w in
  w_faults (fst r) = w_faults w
  /\ w_log (fst r) = w_log w
  /\ w_calls w <= w_calls (fst r)
  /\ match snd r with
     | Return _ =>
         no_fault w (w_calls w) (w_calls (fst r))
         /\ ~ In path (w_open (fst r))
         /\ exists texts,
             Forall2 (fun item text =>
                        is_section repr uni_title uni_lower uni_cased
                          (fst item) (snd item) text) data texts
             /\ content (fst r) path = concat texts
     | Raise (OSError errno) =>
         exists n, w_calls w <= n < w_calls (fst r) /\ w_faults w n = Some errno
     | Raise _ => no_fault w (w_calls w) (w_calls (fst r))
     end.
Proof.
  cbv zeta. unfold with_open_w, open_w.
  destruct (existsb (N.eqb 0) path).
  { unfold bind, lift. cbn [fst snd]. repeat split; auto. intros n Hn. lia. }
  unfold bind, os_call. cbv beta.
  destruct (w_faults w (w_calls w)) as [errno|] eqn:F0.
  - cbn [fst snd w_faults w_calls w_log]. repeat split; auto.
    exists (w_calls w). split; [lia|exact F0].
  - set (w1 := World (w_faults w) (S (w_calls w)) (w_dirs w)
                     (set_file (w_files w) path []) (path :: w_open w)
                     (w_log w)).
    cbn [fst snd w_faults w_calls w_log w_dirs w_files w_open]. fold w1.
    pose proof (run_for_each repr uni_title uni_lower uni_cased path data w1)
      as (B1 & B2 & B3 & B4 & B5).
    destruct (for_each data _ w1) as [w2 r2]. cbn [fst snd] in *.
    assert (C1 : content w1 path = []).
    { unfold content, w1. cbn [w_files]. now rewrite file_content_set. }
    unfold close, os_call. cbn [w_faults w_calls w_log w_dirs w_files w_open].
    assert (N0 : forall n, w_calls w <= n < S (w_calls w) -> w_faults w n = None).
    { intros n Hn. assert (n = w_calls w) by lia. now subst. }
    change (w_faults w1) with (w_faults w) in *.
    change (w_calls w1) with (S (w_calls w)) in *.
    change (w_log w1) with (w_log w) in *.
    destruct (w_faults w2 (w_calls w2)) as [errno|] eqn:F2;
      destruct r2 as [[]|e];
      cbn [fst snd w_faults w_calls w_log w_open];
      (split; [exact B1|split; [exact B2|split; [lia|]]]).
    + exists (w_calls w2). split; [lia|]. now rewrite <- B1.
    + exists (w_calls w2). split; [lia|]. now rewrite <- B1.
    + destruct B5 as (Bn & t & (texts & Ht & ->) & Hc). split; [|split].
      * intros n Hn. destruct (le_lt_dec (S (w_calls w)) n) as [L|L].
        -- destruct (le_lt_dec (w_calls w2) n) as [L2|L2].
           ++ assert (n = w_calls w2) by lia. subst. now rewrite <- B1.
           ++ apply Bn. lia.
        -- apply N0. lia.
      * apply not_in_closed.
      * exists texts. split; [exact Ht|].
        unfold content in *. cbn [w_files]. now rewrite Hc, C1.
    + destruct e;
        try (intros n Hn; destruct (le_lt_dec (S (w_calls w)) n) as [L|L];
             [destruct (le_lt_dec (w_calls w2) n) as [L2|L2];
              [assert (n = w_calls w2) by lia; subst; now rewrite <- B1
              |apply B5; lia]
             |apply N0; lia]).
      destruct B5 as (n & Hn & Hf). exists n. split; [lia|exact Hf].
Qed.

(** The function, call by call. *)
Lemma generate_llms_txt_unfold (data : list (PyVal * PyVal)) filename w :
  generate_llms_txt repr uni_title uni_lower uni_cased data filename w
  = match w_faults w (w_calls w) with
    | Some errno =>
        add_log (error_record filename (OSError errno))
          (World (w_faults w) (S (w_calls w)) (w_dirs w) (w_files w)
                 (w_open w) (w_log w))
    | None =>
        match with_open_w (path_join OUTPUT_DIR filename)
                (fun f => for_each data
                            (fun item => write_page repr uni_title uni_lower
                                           uni_cased f (fst item) (snd item)))
                (World (w_faults w) (S (w_calls w)) (OUTPUT_DIR :: w_dirs w)
                       (w_files w) (w_open w) (w_log w)) with
        | (w2, Return _) => add_log (success_record filename) w2
        | (w2, Raise e) => add_log (error_record filename e) w2
        end
    end.
Proof.
  unfold generate_llms_txt, try_except, makedirs, bind, os_call.
  destruct (w_faults w (w_calls w)) as [errno|]; [reflexivity|].
  cbn [fst snd w_faults w_calls w_dirs w_files w_open w_log].
  destruct (with_open_w _ _ _) as [w2 [[]|e]]; reflexivity.
Qed.

End Outcome.

End OutcomeFacts.

Import OutcomeFacts.

(* ===================================================================== *)
(** * Facts about the parser *)
(* ===================================================================== *)

Module ParseFacts.

Lemma find_none (f : ET.Element -> bool) l :
  (forall c, In c l -> f c = false) -> List.find f l = None.
Proof.
  induction l as [|d l IH]; simpl; intros H; [reflexivity|].
  rewrite (H d) by now left. apply IH. intros c Hc. apply H. now right.
Qed.

Lemma find_first (f : ET.Element -> bool) before c after :
  (forall d, In d before -> f d = false) -> f c = true ->
  List.find f (before ++ c :: after) = Some c.
Proof.
  induction before as [|d l IH]; simpl; intros H Hc.
  - now rewrite Hc.
  - rewrite (H d) by now left. apply IH; auto.
Qed.

Lemma eqb_neq (a b : pystr) : a <> b -> PyStr.eqb a b = false.
Proof.
  intros H. destruct (PyStr.eqb a b) eqn:E; [|reflexivity].
  apply eqb_eq in E. contradiction.
Qed.

End ParseFacts.

Import ParseFacts.

(* ===================================================================== *)
(** * How the matcher runs on a given text *)
(* ===================================================================== *)

Module MatchFacts.

Lemma lit_match_refl fl c : lit_match fl c c = true.
Proof.
  unfold lit_match. destruct (ignorecase fl); [|apply N.eqb_refl].
  unfold case_variants.
  destruct (in_range 65 90 c) eqn:U.
  - destruct (in_range 97 122 (c + 32)) eqn:L.
    + simpl. replace (c + 32 - 32)%N with c by lia.
      rewrite N.eqb_refl. now rewrite orb_true_r.
    + simpl. now rewrite N.eqb_refl.
  - destruct (in_range 97 122 c); simpl; now rewrite N.eqb_refl.
Qed.

Section Running.
Variable R : Type.
Implicit Types k : cont R.

(** A literal runs over a text that it matches character by character. *)
Lemma m_lit_over fl : forall w w' p s cs k,
  Forall2 (fun c d => lit_match fl c d = true) w w' ->
  m fl (lit w) p (w' ++ s) cs k = k (prev_after p w') s cs.
Proof.
  induction w as [|c w IH]; intros w' p s cs k H; inversion H; subst.
  - reflexivity.
  - destruct w as [|d w].
    + match goal with H : Forall2 _ [] _ |- _ => inversion H; subst end.
      simpl. match goal with H : lit_match _ _ _ = true |- _ => rewrite H end.
      reflexivity.
    + change (lit (c :: d :: w)) with (Cat (One (Lit c)) (lit (d :: w))).
      cbn [m app one atom_match].
      match goal with H : lit_match _ _ _ = true |- _ => rewrite H end.
      rewrite IH by assumption. reflexivity.
Qed.

Lemma m_lit_hit fl w p s cs k :
  m fl (lit w) p (w ++ s) cs k = k (prev_after p w) s cs.
Proof.
  apply m_lit_over. induction w; constructor; auto using lit_match_refl.
Qed.

(** A literal fails on a text whose first character it does not match. *)
Lemma m_lit_miss fl c w d p s cs k :
  lit_match fl c d = false -> m fl (lit (c :: w)) p (d :: s) cs k = None.
Proof.
  intros H. destruct w as [|e w].
  - simpl. now rewrite H.
  - change (lit (c :: e :: w)) with (Cat (One (Lit c)) (lit (e :: w))).
    simpl. now rewrite H.
Qed.

Lemma m_lit_nil fl c w p cs k : m fl (lit (c :: w)) p [] cs k = None.
Proof. destruct w; reflexivity. Qed.

(** A lazy repetition runs over [u] when the rest of the pattern fails at
    every earlier place. *)
Lemma rep_lazy_over f : forall u p s cs k x,
  Forall (fun c => f c = true) u ->
  (forall u1 c u2, u = u1 ++ c :: u2 ->
                   k (prev_after p u1) (c :: u2 ++ s) cs = None) ->
  k (prev_after p u) s cs = Some x ->
  rep_lazy f p (u ++ s) cs k = Some x.
Proof.
  induction u as [|c u IH]; intros p s cs k x Hf Hk Hx.
  - simpl in *. destruct s; simpl; now rewrite Hx.
  - inversion Hf; subst. pose proof (Hk [] c u eq_refl) as H0.
    simpl in H0. simpl. rewrite H0.
    match goal with H : f c = true |- _ => rewrite H end.
    apply IH; auto. intros u1 d u2 E. subst u.
    apply (Hk (c :: u1) d u2). reflexivity.
Qed.

(** A greedy repetition runs over the longest [u] when the rest of the
    pattern succeeds there. *)
Lemma rep_greedy_over f : forall u p s cs k x,
  Forall (fun c => f c = true) u -> head_not f s ->
  k (prev_after p u) s cs = Some x ->
  rep_greedy f p (u ++ s) cs k = Some x.
Proof.
  induction u as [|c u IH]; intros p s cs k x Hf Hs Hk.
  - simpl in *. destruct s as [|d s]; simpl; [exact Hk|].
    simpl in Hs. rewrite Hs. exact Hk.
  - inversion Hf; subst. simpl.
    match goal with H : f c = true |- _ => rewrite H end.
    now rewrite (IH (Some c) s cs k x).
Qed.

(** The character before the match matters to anchors only. *)
Lemma rep_greedy_prev f k :
  (forall p1 p2 s cs, k p1 s cs = k p2 s cs) ->
  forall s p1 p2 cs, rep_greedy f p1 s cs k = rep_greedy f p2 s cs k.
Proof.
  intros Hk. induction s as [|c s IH]; intros p1 p2 cs; simpl; [apply Hk|].
  destruct (f c); [|apply Hk].
  destruct (rep_greedy f (Some c) s cs k); [reflexivity|apply Hk].
Qed.

Lemma rep_lazy_prev f k :
  (forall p1 p2 s cs, k p1 s cs = k p2 s cs) ->
  forall s p1 p2 cs, rep_lazy f p1 s cs k = rep_lazy f p2 s cs k.
Proof.
  intros Hk. induction s as [|c s IH]; intros p1 p2 cs; simpl;
    rewrite (Hk p1 p2); reflexivity.
Qed.

End Running.

Lemma m_prev (R : Type) fl : forall r (k : cont R),
  anchor_free r = true ->
  (forall p1 p2 s cs, k p1 s cs = k p2 s cs) ->
  forall p1 p2 s cs, m fl r p1 s cs k = m fl r p2 s cs k.
Proof.
  induction r as [|a|g plus a|r' IH|r1 IH1 r2 IH2|n r' IH| |];
    simpl; intros k Ha Hk p1 p2 s cs; try discriminate.
  - apply Hk.
  - reflexivity.
  - destruct plus; [reflexivity|].
    destruct g; [now apply rep_greedy_prev|now apply rep_lazy_prev].
  - rewrite (IH k Ha Hk p1 p2). now rewrite (Hk p1 p2).
  - apply andb_true_iff in Ha. destruct Ha as [Ha1 Ha2].
    apply IH1; auto.
  - apply IH; auto.
Qed.

Lemma match_at_prev pt p1 p2 s :
  anchor_free (pat_re pt) = true -> match_at pt p1 s = match_at pt p2 s.
Proof. intros H. unfold match_at. now apply m_prev. Qed.

Section SubRunning.
Variable pt : pattern.
Variable tpl : list repl_item.
Hypothesis pt_nonnull : nonnull (pat_re pt) = true.
Hypothesis pt_free : anchor_free (pat_re pt) = true.

Lemma sub_from_prev : forall s p1 p2,
  sub_from pt tpl 0 p1 s = sub_from pt tpl 0 p2 s.
Proof.
  intros s p1 p2. revert s p1 p2.
  apply (sub_from_ind pt tpl pt_nonnull
           (fun p1 s out => forall p2, out = sub_from pt tpl 0 p2 s)).
  - intros p1 p2. now rewrite sub_from_nil.
  - intros p1 c s out Hmiss IH p2.
    rewrite sub_from_miss
      by (rewrite (match_at_prev pt p2 p1) by exact pt_free; exact Hmiss).
    f_equal. apply IH.
  - intros p1 c u rest cs out Hhit _ IH p2.
    rewrite (sub_from_hit pt tpl pt_nonnull p2 (c :: u) rest cs)
      by (rewrite (match_at_prev pt p2 p1) by exact pt_free; exact Hhit).
    f_equal. apply IH.
Qed.

Lemma sub_prev p s : sub_from pt tpl 0 p s = sub pt tpl s.
Proof. apply sub_from_prev. Qed.

(** The substitution copies a prefix in which no match starts. *)
Lemma sub_skip : forall a s,
  (forall a1 c a2, a = a1 ++ c :: a2 -> match_at pt None (c :: a2 ++ s) = None) ->
  sub pt tpl (a ++ s) = a ++ sub pt tpl s.
Proof.
  induction a as [|c a IH]; intros s H; [reflexivity|].
  unfold sub. simpl app. rewrite sub_from_miss by apply (H [] c a eq_refl).
  f_equal. rewrite sub_prev. apply IH.
  intros a1 d a2 E. subst a. apply (H (c :: a1) d a2). reflexivity.
Qed.

(** The substitution replaces a match at the start of the text. *)
Lemma sub_hit u rest cs :
  match_at pt None (u ++ rest) = Some (rest, cs) ->
  sub pt tpl (u ++ rest) = expand tpl cs ++ sub pt tpl rest.
Proof.
  intros H. unfold sub. rewrite (sub_from_hit pt tpl pt_nonnull None u rest cs H).
  now rewrite sub_prev.
Qed.

(** The substitution leaves a text in which no match starts as it is. *)
Lemma sub_nowhere s :
  (forall s1 c s2, s = s1 ++ c :: s2 -> match_at pt None (c :: s2) = None) ->
  sub pt tpl s = s.
Proof.
  intros H. rewrite <- (app_nil_r s) at 1. rewrite sub_skip.
  - unfold sub. rewrite sub_from_nil by exact pt_nonnull. apply app_nil_r.
  - intros a1 c a2 E. rewrite app_nil_r. eapply H; eauto.
Qed.

End SubRunning.

(** A match starts with the leading character of its pattern. *)
Lemma match_at_leading pt c p d s :
  leading (pat_flags pt) (pat_re pt) = Some c -> d <> c ->
  match_at pt p (d :: s) = None.
Proof.
  intros Hl Hd. destruct (match_at pt p (d :: s)) as [[rest cs]|] eqn:E;
    [|reflexivity].
  apply match_at_sound in E. destruct E as (u & Eu & Hm).
  destruct (leading_matches _ _ _ _ _ _ Hl Hm) as (u' & ->).
  inversion Eu. contradiction.
Qed.

(** The substitution copies a prefix without the leading character. *)
Lemma sub_skip_leading pt tpl c a s :
  nonnull (pat_re pt) = true -> anchor_free (pat_re pt) = true ->
  leading (pat_flags pt) (pat_re pt) = Some c -> ~ In c a ->
  sub pt tpl (a ++ s) = a ++ sub pt tpl s.
Proof.
  intros Hn Ha Hl Hc. apply sub_skip; auto.
  intros a1 d a2 E. eapply match_at_leading; eauto.
  intros ->. apply Hc. rewrite E. apply in_or_app. right. now left.
Qed.

End MatchFacts.

Import MatchFacts.

(* ===================================================================== *)
(** * The cleaning, step by step *)
(* ===================================================================== *)

Module MarkupFacts.

Lemma plain_app a b : plain (a ++ b) = plain a && plain b.
Proof. apply forallb_app. Qed.

Lemma plain_chars s :
  plain s = true -> ~ In LT s /\ ~ In LBRACK s /\ ~ In BACKTICK s.
Proof.
  unfold plain. rewrite forallb_forall. intros H.
  repeat split; intros Hin; apply H in Hin; discriminate.
Qed.

Lemma no_tag_without_lt s : ~ In LT s -> no_tag s.
Proof.
  intros H a b E. exfalso. apply H. rewrite E. apply in_or_app. right. now left.
Qed.

Lemma clean_steps x :
  clean_and_format_content x
  = clean_after_tags
      (remove_tags (unwrap_links (remove_images (remove_sources
                                                   (remove_details x))))).
Proof. reflexivity. Qed.

Lemma remove_details_plain s : ~ In LT s -> remove_details s = s.
Proof.
  intros H. apply sub_without_tag; try reflexivity.
  - simpl. tauto.
  - now apply no_tag_without_lt.
Qed.

Lemma remove_sources_plain s : ~ In BACKTICK s -> remove_sources s = s.
Proof.
  apply sub_without_required; [reflexivity|]. simpl. tauto.
Qed.

Lemma remove_sources_no_bracket s : ~ In LBRACK s -> remove_sources s = s.
Proof.
  apply sub_without_required; [reflexivity|]. simpl. tauto.
Qed.

Lemma remove_images_plain s : ~ In LBRACK s -> remove_images s = s.
Proof.
  apply sub_without_required; [reflexivity|]. simpl. tauto.
Qed.

Lemma unwrap_links_plain s : ~ In LBRACK s -> unwrap_links s = s.
Proof.
  apply sub_without_required; [reflexivity|]. simpl. tauto.
Qed.

Lemma remove_tags_plain s : ~ In LT s -> remove_tags s = s.
Proof.
  intros H. apply sub_without_tag; try reflexivity.
  - simpl. tauto.
  - now apply no_tag_without_lt.
Qed.

Lemma remove_mermaid_plain s : ~ In BACKTICK s -> remove_mermaid s = s.
Proof.
  apply sub_without_required; [reflexivity|]. simpl. tauto.
Qed.

(** On a plain text the six markup substitutions change nothing. *)
Lemma clean_plain x :
  plain x = true -> clean_and_format_content x = clean_after_tags x.
Proof.
  intros H. apply plain_chars in H. destruct H as (H1 & H2 & H3).
  rewrite clean_steps, remove_details_plain, remove_sources_plain,
    remove_images_plain, unwrap_links_plain, remove_tags_plain; auto.
Qed.

Lemma clean_after_tags_plain x :
  ~ In BACKTICK x -> clean_after_tags x = strip (collapse_whitespace x).
Proof.
  intros H. unfold clean_after_tags. rewrite remove_mermaid_plain by exact H.
  rewrite collapse_blank_lines_id; [reflexivity|].
  eapply single_spaced_no_newline, collapse_whitespace_single_spaced.
Qed.

(** The whitespace substitution keeps the other characters. *)
Lemma collapse_whitespace_keeps s :
  filter (fun c => negb (is_space c)) (collapse_whitespace s)
  = filter (fun c => negb (is_space c)) s.
Proof.
  unfold collapse_whitespace, sub. generalize (@None N). intros p. revert s p.
  apply (sub_from_ind whitespace_run [RText [SPACE]] eq_refl
           (fun p s out => filter (fun c => negb (is_space c)) out
                           = filter (fun c => negb (is_space c)) s)).
  - reflexivity.
  - intros p c s out _ IH. simpl. now rewrite IH.
  - intros p c u rest cs out _ Hm IH.
    apply whitespace_run_matches in Hm.
    assert (E : filter (fun c => negb (is_space c)) (c :: u) = []).
    { clear - Hm. induction Hm as [|d l Hd _ IHl]; simpl; [reflexivity|].
      now rewrite Hd. }
    rewrite (filter_app _ (c :: u) rest), E. simpl. exact IH.
Qed.

Lemma filter_spaces_nil (a : pystr) :
  Forall (fun c => is_space c = true) a ->
  filter (fun c => negb (is_space c)) a = [].
Proof.
  induction 1 as [|d l Hd _ IHl]; simpl; [reflexivity|]. now rewrite Hd.
Qed.

Lemma strip_keeps s :
  filter (fun c => negb (is_space c)) (strip s)
  = filter (fun c => negb (is_space c)) s.
Proof.
  unfold strip. destruct (lstrip_split s) as (a & Ea & Ha).
  destruct (rstrip_split (lstrip s)) as (b & Eb & Hb).
  rewrite Ea at 2. rewrite Eb at 2. rewrite !filter_app.
  rewrite (filter_spaces_nil a Ha), (filter_spaces_nil b Hb).
  now rewrite app_nil_r.
Qed.

Lemma single_spaced_space b t :
  single_spaced b (SPACE :: t) = negb b && single_spaced true t.
Proof. reflexivity. Qed.

Lemma single_spaced_no_pair : forall s b x y,
  single_spaced b s = true -> s <> x ++ SPACE :: SPACE :: y.
Proof.
  intros s b x. revert s b. induction x as [|c x IH]; intros s b y H E; subst.
  - simpl app in H. rewrite !single_spaced_space in H.
    rewrite andb_true_iff in H. destruct H as [_ H]. discriminate.
  - simpl in H. destruct (is_space c).
    + rewrite !andb_true_iff in H. destruct H as [_ H]. eapply IH; eauto.
    + eapply IH; eauto.
Qed.

Lemma strip_fixed s : strip (strip s) = strip s.
Proof. apply strip_idem. Qed.

End MarkupFacts.

Import MarkupFacts.

Module TagRemoval.

(** A pattern whose matches start with [c1] and hold [c2] later leaves a
    text alone in which no [c1] is followed by a [c2]. *)
Lemma sub_without_pair pt tpl c1 c2 s :
  nonnull (pat_re pt) = true ->
  leading (pat_flags pt) (pat_re pt) = Some c1 ->
  In c2 (required_after (pat_flags pt) (pat_re pt)) ->
  (forall x y, s = x ++ c1 :: y -> ~ In c2 y) ->
  sub pt tpl s = s.
Proof.
  intros Hn Hl Hx. unfold sub. generalize (@None N). intros p Hs.
  revert s p Hs.
  apply (sub_from_ind pt tpl Hn
           (fun p s out => (forall x y, s = x ++ c1 :: y -> ~ In c2 y) -> out = s)).
  - reflexivity.
  - intros p c s out _ IH Hs. f_equal. apply IH.
    intros x y E. apply (Hs (c :: x) y). simpl. now rewrite E.
  - intros p c u rest cs out _ Hm _ Hs. exfalso.
    destruct (required_after_matches _ _ _ _ _ _ _ Hl Hx Hm) as (u' & E & Hin).
    inversion E; subst. apply (Hs [] (u' ++ rest)); [reflexivity|].
    apply in_or_app. now left.
Qed.

Lemma single_occurrence (c : N) a r x y :
  ~ In c a -> ~ In c r -> a ++ c :: r = x ++ c :: y -> x = a /\ y = r.
Proof.
  intros Ha Hr E. destruct (app_eq_left c a (c :: r) x y E Ha) as (q & -> & E').
  destruct q as [|d q].
  - simpl in E'. inversion E'. rewrite app_nil_r. auto.
  - simpl in E'. inversion E'; subst. exfalso. apply Hr.
    apply in_or_app. right. now left.
Qed.

Lemma angle_tag_hit p t b :
  ~ In GT t -> match_at angle_tag p (LT :: t ++ GT :: b) = Some (b, []).
Proof.
  intros Ht. unfold match_at. cbn [angle_tag pat_re pat_flags cat lit m star].
  simpl one at 1.
  apply rep_greedy_over.
  - apply Forall_forall. intros c Hc. unfold atom_match. simpl.
    destruct (N.eqb_spec c GT); [subst; contradiction|reflexivity].
  - reflexivity.
  - reflexivity.
Qed.

(** The tag substitution deletes a tag between two texts without [<]. *)
Lemma remove_tags_one a t b :
  ~ In LT a -> ~ In GT t -> ~ In LT b ->
  remove_tags (a ++ LT :: t ++ GT :: b) = a ++ b.
Proof.
  intros Ha Ht Hb. unfold remove_tags.
  rewrite (sub_skip_leading angle_tag [] LT a) by (auto; reflexivity).
  f_equal.
  assert (E : LT :: t ++ GT :: b = (LT :: t ++ [GT]) ++ b)
    by (simpl; now rewrite <- app_assoc).
  rewrite E.
  rewrite (sub_hit angle_tag [] eq_refl eq_refl (LT :: t ++ [GT]) b [])
    by (rewrite <- E; apply angle_tag_hit; exact Ht).
  simpl. now apply remove_tags_plain.
Qed.

End TagRemoval.

Import TagRemoval.

Module BlockRemoval.

Lemma contains_app w : forall x y, contains w (x ++ w ++ y) = true.
Proof.
  induction x as [|c x IH]; intros y.
  - simpl app. destruct (w ++ y) eqn:E; simpl;
      rewrite <- E, startswith_app; reflexivity.
  - simpl. rewrite IH. apply orb_true_r.
Qed.

Lemma contains_false w s x y :
  contains w s = false -> s <> x ++ w ++ y.
Proof. intros H ->. rewrite contains_app in H. discriminate. Qed.

(** A text that starts with a character found nowhere else in it does not
    overlap itself: an occurrence that starts in [v] lies in [v]. *)
Lemma no_overlap c0 wt v b :
  ~ In c0 wt -> v <> [] ->
  startswith (c0 :: wt) (v ++ (c0 :: wt) ++ b) = true ->
  exists t, v = (c0 :: wt) ++ t.
Proof.
  intros Hc Hv H. apply startswith_iff in H. destruct H as [t' E].
  apply app_eq_app in E. destruct E as (l & [[E1 E2]|[E1 E2]]).
  - exists l. exact E1.
  - destruct l as [|d l].
    + exists []. now rewrite app_nil_r in *.
    + exfalso. destruct v as [|e v]; [now apply Hv|].
      simpl in E1. inversion E1; subst e.
      simpl in E2. inversion E2; subst d.
      apply Hc. match goal with H : wt = _ |- _ => rewrite H end.
      apply in_or_app. right. now left.
Qed.

Lemma details_hit p inner b :
  contains DETAILS_CLOSE inner = false ->
  match_at details_block p (DETAILS_OPEN ++ inner ++ DETAILS_CLOSE ++ b)
  = Some (b, []).
Proof.
  intros Hc. unfold match_at, details_block.
  cbn [pat_re pat_flags cat m lazy_star].
  fold DETAILS_OPEN. fold DETAILS_CLOSE. rewrite m_lit_hit.
  apply rep_lazy_over.
  - apply Forall_forall. reflexivity.
  - intros u1 c u2 E. rewrite m_lit by reflexivity.
    destruct (startswith DETAILS_CLOSE (c :: u2 ++ DETAILS_CLOSE ++ b)) eqn:S;
      [|reflexivity].
    exfalso.
    destruct (no_overlap LT (of_string "/details>") (c :: u2) b) as [t Et];
      [vm_compute; intuition discriminate|discriminate|exact S|].
    apply (contains_false DETAILS_CLOSE inner u1 t Hc).
    rewrite E, Et. reflexivity.
  - now rewrite m_lit_hit.
Qed.

(** The first substitution deletes a details block. *)
Lemma remove_details_block a inner b :
  ~ In LT a -> contains DETAILS_CLOSE inner = false ->
  remove_details (a ++ DETAILS_OPEN ++ inner ++ DETAILS_CLOSE ++ b)
  = remove_details (a ++ b).
Proof.
  intros Ha Hc. unfold remove_details.
  rewrite !(sub_skip_leading details_block [] LT a) by (auto; reflexivity).
  f_equal.
  assert (E : DETAILS_OPEN ++ inner ++ DETAILS_CLOSE ++ b
              = (DETAILS_OPEN ++ inner ++ DETAILS_CLOSE) ++ b)
    by now rewrite <- !app_assoc.
  rewrite E.
  rewrite (sub_hit details_block [] eq_refl eq_refl _ b [])
    by (rewrite <- E; apply details_hit; exact Hc).
  reflexivity.
Qed.

Lemma mermaid_hit p inner b :
  ~ In BACKTICK inner ->
  match_at mermaid_block p (MERMAID_OPEN ++ inner ++ FENCE ++ b) = Some (b, []).
Proof.
  intros Hi. unfold match_at, mermaid_block.
  cbn [pat_re pat_flags cat m lazy_star].
  fold MERMAID_OPEN. fold FENCE. rewrite m_lit_hit.
  apply rep_lazy_over.
  - apply Forall_forall. reflexivity.
  - intros u1 c u2 E. apply m_lit_miss. unfold lit_match. simpl.
    destruct (N.eqb_spec c 96); [|reflexivity].
    subst c. exfalso. apply Hi. rewrite E. apply in_or_app. right. now left.
  - now rewrite m_lit_hit.
Qed.

(** The mermaid substitution deletes a block between texts without
    backtick. *)
Lemma remove_mermaid_block a inner b :
  ~ In BACKTICK a -> ~ In BACKTICK inner -> ~ In BACKTICK b ->
  remove_mermaid (a ++ MERMAID_OPEN ++ inner ++ FENCE ++ b) = a ++ b.
Proof.
  intros Ha Hi Hb. unfold remove_mermaid.
  rewrite (sub_skip_leading mermaid_block [] BACKTICK a) by (auto; reflexivity).
  f_equal.
  assert (E : MERMAID_OPEN ++ inner ++ FENCE ++ b
              = (MERMAID_OPEN ++ inner ++ FENCE) ++ b)
    by now rewrite <- !app_assoc.
  rewrite E.
  rewrite (sub_hit mermaid_block [] eq_refl eq_refl _ b [])
    by (rewrite <- E; apply mermaid_hit; exact Hi).
  simpl. now apply remove_mermaid_plain.
Qed.

End BlockRemoval.

Import BlockRemoval.

Module ImageRemoval.

Lemma dot_matches c : c <> LF -> atom_match no_flags Dot c = true.
Proof. intros H. simpl. now destruct (N.eqb_spec c LF). Qed.

Lemma dot_over (u : pystr) :
  ~ In LF u -> Forall (fun c => atom_match no_flags Dot c = true) u.
Proof.
  intros H. apply Forall_forall. intros c Hc. apply dot_matches.
  intros ->. contradiction.
Qed.

Lemma lit_match_exact fl c d :
  lit_exact fl c = true -> d <> c -> lit_match fl c d = false.
Proof.
  intros He Hd. destruct (lit_match fl c d) eqn:E; [|reflexivity].
  apply lit_exact_match in E; auto. contradiction.
Qed.

(** A literal fails on the text that follows a split of [u] when its first
    character is not in [u]. *)
Lemma lit_fails_inside (R : Type) fl c w (u u1 : pystr) d u2 p s cs (k : cont R) :
  lit_exact fl c = true -> ~ In c u -> u = u1 ++ d :: u2 ->
  m fl (lit (c :: w)) p (d :: u2 ++ s) cs k = None.
Proof.
  intros He Hc E. apply m_lit_miss. apply lit_match_exact; auto.
  intros ->. apply Hc. rewrite E. apply in_or_app. right. now left.
Qed.

Lemma image_hit p alt target b :
  ~ In RBRACK alt -> ~ In LF alt -> ~ In RPAREN target -> ~ In LF target ->
  match_at image_markup p
    (IMAGE_OPEN ++ alt ++ LABEL_CLOSE ++ target ++ [RPAREN] ++ b)
  = Some (b, []).
Proof.
  intros A1 A2 T1 T2. unfold match_at, image_markup.
  cbn [pat_re pat_flags cat m lazy_star].
  fold IMAGE_OPEN. fold LABEL_CLOSE. rewrite m_lit_hit.
  apply rep_lazy_over.
  - now apply dot_over.
  - intros u1 c u2 E. eapply lit_fails_inside with (u := alt); eauto.
  - rewrite m_lit_hit. apply rep_lazy_over.
    + now apply dot_over.
    + intros u1 c u2 E.
      change (of_string ")") with [RPAREN].
      eapply lit_fails_inside with (u := target); eauto.
    + change (of_string ")") with [RPAREN]. now rewrite m_lit_hit.
Qed.

(** No image markup starts where no [!] comes just before a [[]. *)
Lemma image_needs_open p s :
  startswith IMAGE_OPEN s = false -> match_at image_markup p s = None.
Proof.
  intros H. unfold match_at, image_markup.
  cbn [pat_re pat_flags cat m lazy_star]. fold IMAGE_OPEN.
  rewrite m_lit by reflexivity. now rewrite H.
Qed.

Lemma image_open_shape c s :
  startswith IMAGE_OPEN (c :: s) = true ->
  c = BANG /\ exists s', s = LBRACK :: s'.
Proof.
  intros H. apply startswith_iff in H. destruct H as [t E].
  inversion E. eauto.
Qed.

(** The image substitution deletes an image after a text without [[]. *)
Lemma remove_images_one a alt target b :
  ~ In LBRACK a -> ~ In RBRACK alt -> ~ In LF alt ->
  ~ In RPAREN target -> ~ In LF target -> ~ In LBRACK b ->
  remove_images (a ++ IMAGE_OPEN ++ alt ++ LABEL_CLOSE ++ target ++ [RPAREN] ++ b)
  = a ++ b.
Proof.
  intros Ha A1 A2 T1 T2 Hb. unfold remove_images.
  rewrite (sub_skip image_markup [] eq_refl eq_refl).
  - f_equal.
    assert (E : IMAGE_OPEN ++ alt ++ LABEL_CLOSE ++ target ++ [RPAREN] ++ b
                = (IMAGE_OPEN ++ alt ++ LABEL_CLOSE ++ target ++ [RPAREN]) ++ b)
      by now rewrite <- !app_assoc.
    rewrite E.
    rewrite (sub_hit image_markup [] eq_refl eq_refl _ b [])
      by (rewrite <- E; now apply image_hit).
    simpl. now apply remove_images_plain.
  - intros a1 c a2 E. apply image_needs_open.
    destruct (startswith IMAGE_OPEN (c :: a2 ++ _)) eqn:S; [|reflexivity].
    exfalso. apply image_open_shape in S. destruct S as [-> [s' S]].
    destruct a2 as [|d a2].
    + discriminate.
    + simpl in S. inversion S; subst d. apply Ha. rewrite E.
      apply in_or_app. right. right. now left.
Qed.

End ImageRemoval.

Import ImageRemoval.

Module LinkUnwrap.

Lemma firstn_matched (u r : pystr) : firstn (length (u ++ r) - length r) (u ++ r) = u.
Proof.
  rewrite length_app.
  replace (length u + length r - length r) with (length u) by lia.
  apply firstn_length_app.
Qed.

Lemma m_opt (R : Type) fl r p s cs (k : cont R) :
  m fl (Opt r) p s cs k
  = match m fl r p s cs k with Some x => Some x | None => k p s cs end.
Proof. reflexivity. Qed.

Lemma url_class c :
  atom_match no_flags (Cls true [CSpace; CChar RPAREN]) c = url_char c.
Proof. unfold url_char. simpl. now rewrite orb_false_r. Qed.

Lemma link_hit p label tls host b :
  ~ In RBRACK label -> ~ In LF label ->
  tls = [] \/ tls = of_string "s" ->
  host <> [] -> forallb url_char host = true ->
  match_at http_link p
    ([LBRACK] ++ label ++ LINK_TARGET_OPEN ++ tls ++ SCHEME_END ++ host
     ++ [RPAREN] ++ b)
  = Some (b, [(1, label)]).
Proof.
  intros L1 L2 Htls Hne Hhost. unfold match_at, http_link.
  cbn [pat_re pat_flags cat m lazy_star plus].
  change (of_string "[") with [LBRACK]. fold LINK_TARGET_OPEN. fold SCHEME_END.
  change (of_string ")") with [RPAREN].
  rewrite m_lit_hit.
  assert (Tail : forall q cs,
             m no_flags (lit SCHEME_END) q
               (SCHEME_END ++ host ++ [RPAREN] ++ b) cs
               (fun p' s' cs' =>
                  one (atom_match no_flags (Cls true [CSpace; CChar RPAREN]))
                    p' s' cs'
                    (fun p'0 s'0 cs'0 =>
                       rep_greedy
                         (atom_match no_flags (Cls true [CSpace; CChar RPAREN]))
                         p'0 s'0 cs'0
                         (fun p'1 s'1 cs'1 =>
                            m no_flags (lit [RPAREN]) p'1 s'1 cs'1
                              (fun _ s2 cs2 => Some (s2, cs2)))))
             = Some (b, cs)).
  { intros q cs. rewrite m_lit_hit.
    destruct host as [|h host]; [now elim Hne|].
    simpl in Hhost. apply andb_true_iff in Hhost. destruct Hhost as [Hh Hr].
    cbn [app one]. rewrite url_class, Hh.
    apply rep_greedy_over.
    - apply Forall_forall. intros c Hc. rewrite url_class.
      rewrite forallb_forall in Hr. now apply Hr.
    - reflexivity.
    - change (RPAREN :: b) with ([RPAREN] ++ b). now rewrite m_lit_hit. }
  apply rep_lazy_over.
  - now apply dot_over.
  - intros u1 c u2 E. eapply lit_fails_inside with (u := label); eauto.
  - rewrite m_lit_hit, firstn_matched.
    destruct Htls as [->| ->].
    + rewrite m_lit by reflexivity.
      change (startswith (of_string "s")
                ([] ++ SCHEME_END ++ host ++ [RPAREN] ++ b)) with false.
      apply Tail.
    + rewrite m_lit_hit, Tail. reflexivity.
Qed.

(** The link substitution puts the label in place of a link after a text
    without [[]. *)
Lemma unwrap_links_one a label tls host b :
  ~ In LBRACK a -> ~ In RBRACK label -> ~ In LF label ->
  tls = [] \/ tls = of_string "s" ->
  host <> [] -> forallb url_char host = true -> ~ In LBRACK b ->
  unwrap_links
    (a ++ [LBRACK] ++ label ++ LINK_TARGET_OPEN ++ tls ++ SCHEME_END ++ host
     ++ [RPAREN] ++ b)
  = a ++ label ++ b.
Proof.
  intros Ha L1 L2 Htls Hne Hhost Hb. unfold unwrap_links.
  rewrite (sub_skip_leading http_link [RGroup 1] LBRACK a) by (auto; reflexivity).
  f_equal.
  assert (E : [LBRACK] ++ label ++ LINK_TARGET_OPEN ++ tls ++ SCHEME_END ++ host
              ++ [RPAREN] ++ b
              = ([LBRACK] ++ label ++ LINK_TARGET_OPEN ++ tls ++ SCHEME_END
                 ++ host ++ [RPAREN]) ++ b)
    by now rewrite <- !app_assoc.
  rewrite E.
  rewrite (sub_hit http_link [RGroup 1] eq_refl eq_refl _ b [(1, label)])
    by (rewrite <- E; now apply link_hit).
  simpl. rewrite app_nil_r. f_equal. now apply unwrap_links_plain.
Qed.

(** No image markup is found in a text whose only [[] does not follow a
    [!]. *)
Lemma remove_images_nowhere a r :
  ~ In LBRACK a -> ~ In LBRACK r -> endswith [BANG] a = false ->
  remove_images (a ++ LBRACK :: r) = a ++ LBRACK :: r.
Proof.
  intros Ha Hr He. unfold remove_images.
  apply (sub_nowhere image_markup [] eq_refl eq_refl).
  intros s1 c s2 E. apply image_needs_open.
  destruct (startswith IMAGE_OPEN (c :: s2)) eqn:S; [|reflexivity].
  exfalso. apply image_open_shape in S. destruct S as [-> [s' ->]].
  assert (E' : a ++ LBRACK :: r = (s1 ++ [BANG]) ++ LBRACK :: s')
    by (rewrite E; now rewrite <- app_assoc).
  apply single_occurrence in E'; auto.
  destruct E' as [E' _]. rewrite <- E' in He.
  unfold endswith in He. rewrite rev_app_distr in He. simpl in He. discriminate.
Qed.

End LinkUnwrap.

Import LinkUnwrap.

Module OtherLinks.

Lemma matches_lit fl : ignorecase fl = false ->
  forall w p u rest, matches fl (lit w) p u rest -> u = w.
Proof.
  intros Hfl. induction w as [|c w IH]; intros p u rest H.
  - exact H.
  - assert (H1 : forall v, (exists d, v = [d] /\ atom_match fl (Lit c) d = true)
                           -> v = [c]).
    { intros v (d & -> & Hd). simpl in Hd. unfold lit_match in Hd.
      rewrite Hfl in Hd. apply N.eqb_eq in Hd. now subst. }
    destruct w as [|e w].
    + now apply H1.
    + change (lit (c :: e :: w)) with (Cat (One (Lit c)) (lit (e :: w))) in H.
      destruct H as (u1 & u2 & -> & Ha & Hb).
      apply H1 in Ha. apply IH in Hb. now subst.
Qed.

Lemma contains_suffix w : forall a s,
  contains w (a ++ s) = false -> contains w s = false.
Proof.
  induction a as [|c a IH]; intros s H; [exact H|].
  simpl in H. apply orb_false_iff in H. destruct H as [_ H]. now apply IH.
Qed.

Lemma contains_head w s : contains w s = false -> startswith w s = false.
Proof.
  intros H. destruct s; simpl in H; apply orb_false_iff in H; tauto.
Qed.

(** A link is matched only where the text holds the opening of an http
    target. *)
Lemma link_needs_target p s :
  contains LINK_TARGET_OPEN s = false -> match_at http_link p s = None.
Proof.
  intros H. destruct (match_at http_link p s) as [[rest cs]|] eqn:E;
    [|reflexivity].
  exfalso. apply match_at_sound in E. destruct E as (u & -> & Hm).
  unfold http_link in Hm. cbn [pat_re pat_flags cat matches] in Hm.
  destruct Hm as (u1 & u2 & -> & _ & u3 & u4 & -> & _ & u5 & u6 & -> & H5 & _).
  apply (matches_lit no_flags eq_refl) in H5. subst u5.
  revert H. fold LINK_TARGET_OPEN.
  replace ((u1 ++ u3 ++ LINK_TARGET_OPEN ++ u6) ++ rest)
    with ((u1 ++ u3) ++ LINK_TARGET_OPEN ++ (u6 ++ rest))
    by now rewrite <- !app_assoc.
  now rewrite contains_app.
Qed.

Lemma unwrap_links_other s :
  contains LINK_TARGET_OPEN s = false -> unwrap_links s = s.
Proof.
  intros H. unfold unwrap_links.
  apply (sub_nowhere http_link [RGroup 1] eq_refl eq_refl).
  intros s1 c s2 ->. apply link_needs_target.
  now apply contains_suffix in H.
Qed.

Lemma remove_images_none s :
  contains IMAGE_OPEN s = false -> remove_images s = s.
Proof.
  intros H. unfold remove_images.
  apply (sub_nowhere image_markup [] eq_refl eq_refl).
  intros s1 c s2 ->. apply image_needs_open.
  now apply contains_head, contains_suffix with (a := s1).
Qed.

End OtherLinks.

Import OtherLinks.

Module SourcesRemoval.

(** Under [re.IGNORECASE] a letter of a pattern matches the characters
    with the same ASCII lower case. *)
Lemma lit_match_lower c d :
  in_range 97 122 (ascii_lower c) = true -> ascii_lower d = ascii_lower c ->
  lit_match IGNORECASE c d = true.
Proof.
  unfold lit_match, case_variants, ascii_lower. cbn [ignorecase IGNORECASE].
  intros Hc Hd. rewrite Hc. cbn [existsb].
  destruct (in_range 65 90 d) eqn:D.
  - unfold in_range in D. apply andb_true_iff in D. destruct D as [D1 D2].
    apply N.leb_le in D1. apply N.leb_le in D2.
    assert (E : N.eqb d ((if in_range 65 90 c then c + 32 else c) - 32) = true)
      by (apply N.eqb_eq; lia).
    rewrite E. now rewrite orb_true_r.
  - rewrite Hd, N.eqb_refl. reflexivity.
Qed.

Lemma lit_match_word : forall w w',
  forallb (fun c => in_range 97 122 (ascii_lower c)) w = true ->
  List.map ascii_lower w' = List.map ascii_lower w ->
  Forall2 (fun c d => lit_match IGNORECASE c d = true) w w'.
Proof.
  induction w as [|c w IH]; intros [|d w'] Hw E; try discriminate; constructor;
    simpl in Hw; apply andb_true_iff in Hw; destruct Hw as [H1 H2];
    inversion E.
  - now apply lit_match_lower.
  - now apply IH.
Qed.

Lemma not_bracket (u : pystr) :
  ~ In RBRACK u ->
  Forall (fun c => atom_match IGNORECASE (Cls true [CChar RBRACK]) c = true) u.
Proof.
  intros H. apply Forall_forall. intros c Hc. simpl. rewrite orb_false_r.
  destruct (N.eqb_spec c RBRACK); [subst; contradiction|reflexivity].
Qed.

Lemma not_paren (u : pystr) :
  ~ In RPAREN u ->
  Forall (fun c => atom_match IGNORECASE (Cls true [CChar RPAREN]) c = true) u.
Proof.
  intros H. apply Forall_forall. intros c Hc. simpl. rewrite orb_false_r.
  destruct (N.eqb_spec c RPAREN); [subst; contradiction|reflexivity].
Qed.

(** The citation marker is matched whatever the case of its word, with or
    without the plural. *)
Lemma sources_hit p word pl label url b :
  List.map ascii_lower word = CITE_WORD ->
  pl = [] \/ (exists c, pl = [c] /\ ascii_lower c = 115%N) ->
  ~ In RBRACK label -> ~ In RPAREN url ->
  match_at sources_marker p
    ((BACKTICK :: word) ++ pl ++ CITE_SEP ++ label ++ LABEL_CLOSE ++ url
     ++ CITE_CLOSE ++ b)
  = Some (b, []).
Proof.
  intros Hw Hpl Hl Hu. unfold match_at, sources_marker.
  cbn [pat_re pat_flags cat m lazy_star].
  fold CITE_SEP. fold LABEL_CLOSE. fold CITE_CLOSE.
  rewrite (m_lit_over _ IGNORECASE (of_string "`Source") (BACKTICK :: word)).
  2:{ constructor; [reflexivity|]. now apply lit_match_word. }
  assert (Tail : forall q,
             m IGNORECASE (lit CITE_SEP) q
               (CITE_SEP ++ label ++ LABEL_CLOSE ++ url ++ CITE_CLOSE ++ b) []
               (fun p' s' cs' =>
                  rep_lazy (atom_match IGNORECASE (Cls true [CChar RBRACK]))
                    p' s' cs'
                    (fun p'0 s'0 cs'0 =>
                       m IGNORECASE (lit LABEL_CLOSE) p'0 s'0 cs'0
                         (fun p'1 s'1 cs'1 =>
                            rep_lazy
                              (atom_match IGNORECASE (Cls true [CChar RPAREN]))
                              p'1 s'1 cs'1
                              (fun p'2 s'2 cs'2 =>
                                 m IGNORECASE (lit CITE_CLOSE) p'2 s'2 cs'2
                                   (fun _ s2 cs2 => Some (s2, cs2))))))
             = Some (b, [])).
  { intros q. rewrite m_lit_hit. apply rep_lazy_over.
    - now apply not_bracket.
    - intros u1 c u2 E. eapply lit_fails_inside with (u := label); eauto.
    - rewrite m_lit_hit. apply rep_lazy_over.
      + now apply not_paren.
      + intros u1 c u2 E. eapply lit_fails_inside with (u := url); eauto.
      + now rewrite m_lit_hit. }
  destruct Hpl as [->|(c & -> & Hc)].
  - assert (Es : forall t, [] ++ CITE_SEP ++ t = 58%N :: (of_string " [" ++ t))
      by reflexivity.
    rewrite Es. change (of_string "s") with [115%N].
    rewrite (m_lit_miss _ IGNORECASE 115 [] 58) by reflexivity.
    apply Tail.
  - rewrite (m_lit_over _ IGNORECASE (of_string "s") [c]).
    + now rewrite Tail.
    + constructor; [|constructor]. now apply lit_match_lower.
Qed.

Lemma cite_word_split word :
  List.map ascii_lower word = CITE_WORD
  \/ List.map ascii_lower word = CITE_WORDS ->
  exists w pl, word = w ++ pl /\ List.map ascii_lower w = CITE_WORD
               /\ (pl = [] \/ exists c, pl = [c] /\ ascii_lower c = 115%N).
Proof.
  intros [H|H].
  - exists word, []. rewrite app_nil_r. auto.
  - do 7 (destruct word as [|? word]; [discriminate|]).
    destruct word; [|discriminate].
    change CITE_WORDS with [115; 111; 117; 114; 99; 101; 115]%N in H.
    cbn [List.map] in H. inversion H.
    match goal with
    | |- exists w pl, [?a; ?b; ?c; ?d; ?e; ?f; ?g] = _ /\ _ =>
        exists [a; b; c; d; e; f], [g]
    end.
    split; [reflexivity|]. split.
    + change CITE_WORD with [115; 111; 117; 114; 99; 101]%N.
      cbn [List.map]. congruence.
    + right. eauto.
Qed.

(** The citation substitution deletes a marker that follows a text without
    backtick. *)
Lemma remove_sources_one a word label url b :
  List.map ascii_lower word = CITE_WORD
  \/ List.map ascii_lower word = CITE_WORDS ->
  ~ In BACKTICK a -> ~ In RBRACK label -> ~ In RPAREN url -> ~ In BACKTICK b ->
  remove_sources
    (a ++ [BACKTICK] ++ word ++ CITE_SEP ++ label ++ LABEL_CLOSE ++ url
     ++ CITE_CLOSE ++ b)
  = a ++ b.
Proof.
  intros Hw Ha Hl Hu Hb. unfold remove_sources.
  rewrite (sub_skip_leading sources_marker [] BACKTICK a) by (auto; reflexivity).
  f_equal.
  destruct (cite_word_split word Hw) as (w & pl & -> & Hw' & Hpl).
  assert (E : [BACKTICK] ++ (w ++ pl) ++ CITE_SEP ++ label ++ LABEL_CLOSE
              ++ url ++ CITE_CLOSE ++ b
              = ((BACKTICK :: w) ++ pl ++ CITE_SEP ++ label ++ LABEL_CLOSE
                 ++ url ++ CITE_CLOSE) ++ b)
    by (cbn [app]; now rewrite <- !app_assoc).
  rewrite E.
  rewrite (sub_hit sources_marker [] eq_refl eq_refl _ b []).
  - simpl. now apply remove_sources_plain.
  - replace (((BACKTICK :: w) ++ pl ++ CITE_SEP ++ label ++ LABEL_CLOSE
              ++ url ++ CITE_CLOSE) ++ b)
      with ((BACKTICK :: w) ++ pl ++ CITE_SEP ++ label ++ LABEL_CLOSE ++ url
            ++ CITE_CLOSE ++ b)
      by (cbn [app]; now rewrite <- !app_assoc).
    now apply sources_hit.
Qed.

End SourcesRemoval.

Import SourcesRemoval.

Module DeletionFacts.

Lemma subseq_empty b : subseq [] b.
Proof. induction b; [apply subseq_nil|now apply subseq_skip]. Qed.

Lemma subseq_refl a : subseq a a.
Proof. induction a; [apply subseq_nil|now apply subseq_keep]. Qed.

Lemma subseq_app a a' b b' : subseq a b -> subseq a' b' -> subseq (a ++ a') (b ++ b').
Proof.
  induction 1; intros H'; simpl;
    [exact H'|apply subseq_skip; auto|apply subseq_keep; auto].
Qed.

Lemma subseq_trans a b c : subseq a b -> subseq b c -> subseq a c.
Proof.
  intros Hab Hbc. revert a Hab.
  induction Hbc as [|x b c Hbc IH|x b c Hbc IH]; intros a Hab.
  - exact Hab.
  - apply subseq_skip. now apply IH.
  - inversion Hab; subst; [apply subseq_skip|apply subseq_keep]; now apply IH.
Qed.

Lemma subseq_filter f a b : subseq a b -> subseq (filter f a) (filter f b).
Proof.
  induction 1 as [|x a b H IH|x a b H IH]; simpl.
  - apply subseq_nil.
  - destruct (f x); [apply subseq_skip|]; exact IH.
  - destruct (f x); [apply subseq_keep|]; exact IH.
Qed.

Lemma subseq_left a u v : subseq a u -> subseq a (u ++ v).
Proof.
  intros H. rewrite <- (app_nil_r a). apply subseq_app; [exact H|].
  apply subseq_empty.
Qed.

Lemma subseq_right a u v : subseq a v -> subseq a (u ++ v).
Proof.
  intros H. change a with ([] ++ a). apply subseq_app; [|exact H].
  apply subseq_empty.
Qed.

(** ** What the groups of a match hold *)

Section Captures.
Variable R : Type.
Implicit Types k : cont R.

Lemma m_captures fl : forall r p s cs k x,
  m fl r p s cs k = Some x ->
  exists u rest cs',
    s = u ++ rest
    /\ (forall n, group_text n cs' = group_text n cs
                  \/ subseq (group_text n cs') u)
    /\ k (prev_after p u) rest cs' = Some x.
Proof.
  induction r as [|a|g plus a|r' IH|r1 IH1 r2 IH2|n r' IH| |];
    cbn [m]; intros p s cs k x H.
  - exists [], s, cs. auto.
  - apply one_sound in H. destruct H as (c & rest & -> & _ & Hk).
    exists [c], rest, cs. auto.
  - assert (G : forall p s,
               (if g then rep_greedy else rep_lazy) (atom_match fl a) p s cs k
               = Some x ->
               exists u rest,
                 s = u ++ rest /\ k (prev_after p u) rest cs = Some x).
    { intros p0 s0 H0. destruct g.
      - apply rep_greedy_sound in H0. destruct H0 as (u & rest & -> & _ & Hk).
        eauto.
      - apply rep_lazy_sound in H0. destruct H0 as (u & rest & -> & _ & Hk).
        eauto. }
    destruct plus.
    + apply one_sound in H. destruct H as (c & s' & -> & _ & H).
      apply G in H. destruct H as (u & rest & -> & Hk).
      exists (c :: u), rest, cs. auto.
    + apply G in H. destruct H as (u & rest & -> & Hk).
      exists u, rest, cs. auto.
  - destruct (m fl r' p s cs k) eqn:E.
    + inversion H; subst. now apply IH in E.
    + exists [], s, cs. auto.
  - apply IH1 in H. destruct H as (u1 & s1 & cs1 & -> & C1 & H).
    apply IH2 in H. destruct H as (u2 & rest & cs2 & -> & C2 & H).
    exists (u1 ++ u2), rest, cs2. split; [now rewrite app_assoc|].
    split; [|now rewrite prev_after_app].
    intros i. destruct (C2 i) as [E|S2].
    + rewrite E. destruct (C1 i) as [E1|S1]; [now left|].
      right. now apply subseq_left.
    + right. now apply subseq_right.
  - apply IH in H. destruct H as (u & rest & cs' & -> & C & H).
    rewrite firstn_matched in H.
    exists u, rest, ((n, u) :: cs'). split; [reflexivity|]. split; [|exact H].
    intros i. cbn [group_text]. destruct (Nat.eqb n i).
    + right. apply subseq_refl.
    + apply C.
  - destruct (at_bol fl p); [|discriminate]. exists [], s, cs. auto.
  - destruct (at_eol fl s); [|discriminate]. exists [], s, cs. auto.
Qed.

End Captures.

(** A group of a match holds characters of the matched text, in their
    order. *)
Lemma match_at_captures pt p u rest cs n :
  match_at pt p (u ++ rest) = Some (rest, cs) -> subseq (group_text n cs) u.
Proof.
  unfold match_at. intros H. apply m_captures in H.
  destruct H as (u' & rest' & cs' & E & C & Hk). inversion Hk; subst.
  apply app_inv_tail in E. subst u'.
  destruct (C n) as [E|S]; [|exact S]. rewrite E. apply subseq_empty.
Qed.

Lemma expand_shrinking tpl pt p u rest cs :
  shrinking tpl = true ->
  match_at pt p (u ++ rest) = Some (rest, cs) -> subseq (expand tpl cs) u.
Proof.
  intros Ht H. destruct tpl as [|[t|n] [|? ?]]; try discriminate.
  - apply subseq_empty.
  - cbn [expand]. rewrite app_nil_r. eapply match_at_captures; eauto.
Qed.

(** A substitution with such a template only deletes. *)
Lemma sub_deletes pt tpl s :
  nonnull (pat_re pt) = true -> shrinking tpl = true ->
  subseq (sub pt tpl s) s.
Proof.
  intros Hn Ht. unfold sub. generalize (@None N). intros p. revert s p.
  apply (sub_from_ind pt tpl Hn (fun p s out => subseq out s)).
  - intros p. apply subseq_nil.
  - intros p c s out _ IH. now apply subseq_keep.
  - intros p c u rest cs out E _ IH.
    apply subseq_app; [|exact IH]. eapply expand_shrinking; eauto.
Qed.

Lemma visible_strip s : visible (strip s) = visible s.
Proof. apply strip_keeps. Qed.

End DeletionFacts.

Import DeletionFacts.

Module FrameFacts.

Lemma file_content_filter files f q :
  q <> f ->
  file_content (filter (fun pc => negb (PyStr.eqb (fst pc) f)) files) q
  = file_content files q.
Proof.
  intros H. induction files as [|[p c] files IH]; [reflexivity|].
  simpl. destruct (PyStr.eqb p f) eqn:E; simpl.
  - apply eqb_eq in E. subst p. rewrite (eqb_neq f q) by congruence. exact IH.
  - destruct (PyStr.eqb p q); [reflexivity|exact IH].
Qed.

Lemma file_content_set_other files f c q :
  q <> f -> file_content (set_file files f c) q = file_content files q.
Proof.
  intros H. unfold set_file. simpl.
  rewrite (eqb_neq f q) by congruence. now apply file_content_filter.
Qed.

Lemma filter_absent (path : pystr) l :
  ~ In path l -> filter (fun p => negb (PyStr.eqb p path)) l = l.
Proof.
  induction l as [|p l IH]; intros H; [reflexivity|].
  simpl. rewrite (eqb_neq p path).
  - simpl. f_equal. apply IH. intros Hin. apply H. now right.
  - intros ->. apply H. now left.
Qed.

Section Frames.

Variable f : pystr.

Lemma frame_lift {A} (r : result A) : untouched f (lift r).
Proof. intros w. split; [reflexivity|]. intros q _. reflexivity. Qed.

Lemma frame_write s : untouched f (write f s).
Proof.
  intros w. unfold write. destruct (existsb is_surrogate s).
  - split; [reflexivity|]. intros q _. reflexivity.
  - unfold bind, os_call. destruct (w_faults w (w_calls w)); cbn.
    + split; [reflexivity|]. intros q _. reflexivity.
    + split; [reflexivity|]. intros q Hq. now apply file_content_set_other.
Qed.

Lemma frame_bind {A B} (c : IO A) (k : A -> IO B) :
  untouched f c -> (forall a, untouched f (k a)) -> untouched f (bind c k).
Proof.
  intros Hc Hk w. unfold bind. destruct (Hc w) as [D1 F1].
  destruct (c w) as [w1 [a|e]]; cbn [fst] in *.
  - destruct (Hk a w1) as [D2 F2]. split; [congruence|].
    intros q Hq. rewrite F2, F1; auto.
  - split; [exact D1|]. intros q Hq. now apply F1.
Qed.

End Frames.

Section WriterFrames.

Variable repr : PyVal -> pystr.
Variable uni_title : N -> pystr.
Variable uni_lower : pystr -> nat -> pystr.
Variable uni_cased : N -> bool.

Lemma frame_write_page f page_id page_data :
  untouched f (write_page repr uni_title uni_lower uni_cased f page_id page_data).
Proof.
  unfold write_page.
  repeat (apply frame_bind; [apply frame_lift || apply frame_write|intros ?]).
  apply frame_write.
Qed.

Lemma frame_for_each f (data : list (PyVal * PyVal)) :
  untouched f (for_each data
             (fun item => write_page repr uni_title uni_lower uni_cased f
                            (fst item) (snd item))).
Proof.
  induction data as [|item data IH]; cbn [for_each].
  - intros w. split; [reflexivity|]. intros q _. reflexivity.
  - apply frame_bind; [apply frame_write_page|intros ?; exact IH].
Qed.

(** The [with] block leaves the other files and the directories alone; the
    open streams are those of before without the one of [path]. *)
Lemma with_open_frame path (data : list (PyVal * PyVal)) w :
  let r := with_open_w path
             (fun f => for_each data
                         (fun item => write_page repr uni_title uni_lower
                                        uni_cased f (fst item) (snd item))) w in
  w_dirs (fst r) = w_dirs w
  /\ (forall q, q <> path ->
                file_content (w_files (fst r)) q = file_content (w_files w) q)
  /\ (w_open (fst r) = w_open w
      \/ w_open (fst r) = filter (fun p => negb (PyStr.eqb p path)) (w_open w)).
Proof.
  cbv zeta. unfold with_open_w, open_w.
  destruct (existsb (N.eqb 0) path).
  { unfold bind, lift. cbn [fst]. auto. }
  unfold bind, os_call. cbv beta.
  destruct (w_faults w (w_calls w)) as [errno|]; [cbn; auto|].
  set (w1 := World (w_faults w) (S (w_calls w)) (w_dirs w)
                   (set_file (w_files w) path []) (path :: w_open w) (w_log w)).
  cbn [fst snd w_faults w_calls w_log w_dirs w_files w_open]. fold w1.
  destruct (frame_for_each path data w1) as [D F].
  destruct (run_for_each repr uni_title uni_lower uni_cased path data w1)
    as (_ & _ & O & _).
  destruct (for_each data _ w1) as [w2 r2]. cbn [fst snd] in *.
  assert (E : w_open (fst (close path w2))
              = filter (fun p => negb (PyStr.eqb p path)) (w_open w)).
  { unfold close, os_call. cbn [w_faults w_calls w_open].
    destruct (w_faults w2 (w_calls w2)); cbn [fst w_open]; rewrite O;
      unfold w1; cbn [w_open filter];
      rewrite (proj2 (eqb_eq path path) eq_refl); reflexivity. }
  assert (K : w_dirs (fst (close path w2)) = w_dirs w2
              /\ w_files (fst (close path w2)) = w_files w2).
  { unfold close, os_call. cbn [w_faults w_calls w_dirs w_files].
    destruct (w_faults w2 (w_calls w2)); cbn [fst w_dirs w_files]; auto. }
  destruct K as [K1 K2].
  assert (G : forall q, q <> path ->
                        file_content (w_files w2) q = file_content (w_files w) q).
  { intros q Hq. rewrite F by exact Hq. unfold w1. cbn [w_files].
    now apply file_content_set_other. }
  destruct r2 as [[]|e].
  - rewrite K1, K2, E, D. auto.
  - destruct (close path w2) as [w3 [[]|e']]; cbn [fst] in *;
      rewrite K1, K2, E, D; auto.
Qed.

Lemma generate_frame (data : list (PyVal * PyVal)) filename w :
  let w' := fst (generate_llms_txt repr uni_title uni_lower uni_cased
                   data filename w) in
  (w_dirs w' = w_dirs w \/ w_dirs w' = OUTPUT_DIR :: w_dirs w)
  /\ (forall q, q <> path_join OUTPUT_DIR filename ->
                file_content (w_files w') q = file_content (w_files w) q)
  /\ (w_open w' = w_open w
      \/ w_open w' = filter (fun p => negb (PyStr.eqb p (path_join OUTPUT_DIR filename)))
                       (w_open w)).
Proof.
  cbv zeta. rewrite generate_llms_txt_unfold.
  destruct (w_faults w (w_calls w)) as [errno|]; [cbn; auto|].
  set (w1 := World (w_faults w) (S (w_calls w)) (OUTPUT_DIR :: w_dirs w)
                   (w_files w) (w_open w) (w_log w)).
  pose proof (with_open_frame (path_join OUTPUT_DIR filename) data w1) as H.
  cbv zeta in H. destruct H as (D & F & O).
  destruct (with_open_w _ _ w1) as [w2 [[]|e]]; unfold add_log;
    cbn [fst w_dirs w_files w_open] in *; rewrite D; auto.
Qed.

End WriterFrames.

End FrameFacts.

Import FrameFacts.

Module SuccessFacts.





Section Success.

Variable repr : PyVal -> pystr.
Variable uni_title : N -> pystr.
Variable uni_lower : pystr -> nat -> pystr.
Variable uni_cased : N -> bool.





End Success.

End SuccessFacts.

Import SuccessFacts.

Module ReportSuccess.

Section Whole.

Variable repr : PyVal -> pystr.
Variable uni_title : N -> pystr.
Variable uni_lower : pystr -> nat -> pystr.
Variable uni_cased : N -> bool.


End Whole.

End ReportSuccess.

Import ReportSuccess.

Module TitleFacts.

Lemma letter_ascii c : is_letter c = true -> N.ltb c 128 = true.
Proof.
  unfold is_letter, in_range. intros H. apply N.ltb_lt.
  apply orb_true_iff in H. destruct H as [H|H];
    apply andb_true_iff in H; destruct H as [_ H]; apply N.leb_le in H; lia.
Qed.

Lemma letter_not_hyphen c : is_letter c = true -> N.eqb c HYPHEN = false.
Proof.
  unfold is_letter, in_range, HYPHEN. intros H. apply N.eqb_neq. intros ->.
  discriminate.
Qed.

Lemma replace_letters w :
  forallb is_letter w = true -> replace_char HYPHEN SPACE w = w.
Proof.
  induction w as [|c w IH]; intros H; [reflexivity|].
  simpl in H. apply andb_true_iff in H. destruct H as [Hc Hw].
  unfold replace_char in *. simpl. rewrite (letter_not_hyphen c Hc).
  f_equal. now apply IH.
Qed.

Lemma replace_join words :
  Forall (fun w => forallb is_letter w = true) words ->
  replace_char HYPHEN SPACE (join [HYPHEN] words) = join [SPACE] words.
Proof.
  induction words as [|w words IH]; intros H; [reflexivity|].
  inversion H; subst. destruct words as [|w' words].
  - simpl. now apply replace_letters.
  - change (join [HYPHEN] (w :: w' :: words))
      with (w ++ [HYPHEN] ++ join [HYPHEN] (w' :: words)).
    change (join [SPACE] (w :: w' :: words))
      with (w ++ [SPACE] ++ join [SPACE] (w' :: words)).
    unfold replace_char in *. rewrite !map_app.
    fold (replace_char HYPHEN SPACE w). rewrite replace_letters by assumption.
    rewrite IH by assumption. reflexivity.
Qed.

Section Titles.

Variable uni_title : N -> pystr.
Variable uni_lower : pystr -> nat -> pystr.
Variable uni_cased : N -> bool.

Lemma title_inside s : forall w i rest,
  forallb is_letter w = true ->
  title_from uni_title uni_lower uni_cased s i true (w ++ rest)
  = List.map ascii_lower w
    ++ title_from uni_title uni_lower uni_cased s (i + length w) true rest.
Proof.
  induction w as [|c w IH]; intros i rest H.
  - simpl. now rewrite Nat.add_0_r.
  - simpl in H. apply andb_true_iff in H. destruct H as [Hc Hw].
    cbn [app title_from List.map length]. unfold lower_at, is_cased.
    rewrite (letter_ascii c Hc). unfold is_letter in Hc. rewrite Hc.
    cbn [app]. f_equal. rewrite IH by exact Hw. f_equal. f_equal. lia.
Qed.

Lemma title_words s : forall words i,
  Forall (fun w => forallb is_letter w = true) words ->
  title_from uni_title uni_lower uni_cased s i false (join [SPACE] words)
  = join [SPACE] (List.map capital_word words).
Proof.
  induction words as [|w words IH]; intros i H; [reflexivity|].
  inversion H as [|? ? Hw Hws]; subst.
  assert (Word : forall j rest,
             title_from uni_title uni_lower uni_cased s j false (w ++ SPACE :: rest)
             = capital_word w ++ SPACE
                 :: title_from uni_title uni_lower uni_cased s
                      (S (j + length w)) false rest).
  { intros j rest. destruct w as [|c r].
    - cbn [app title_from capital_word length]. unfold to_title, is_cased.
      cbn. rewrite Nat.add_0_r. reflexivity.
    - simpl in Hw. apply andb_true_iff in Hw. destruct Hw as [Hc Hr].
      cbn [app title_from capital_word length]. unfold to_title, is_cased.
      rewrite (letter_ascii c Hc). unfold is_letter in Hc. rewrite Hc.
      cbn [app]. f_equal. rewrite title_inside by exact Hr.
      cbn [title_from]. unfold lower_at, is_cased. cbn.
      f_equal. f_equal. f_equal. lia. }
  destruct words as [|w' words].
  - cbn [join List.map]. destruct w as [|c r]; [reflexivity|].
    simpl in Hw. apply andb_true_iff in Hw. destruct Hw as [Hc Hr].
    cbn [title_from capital_word]. unfold to_title, is_cased.
    rewrite (letter_ascii c Hc). unfold is_letter in Hc. rewrite Hc.
    cbn [app]. f_equal.
    rewrite <- (app_nil_r r) at 1. rewrite title_inside by exact Hr.
    cbn [title_from]. apply app_nil_r.
  - change (join [SPACE] (w :: w' :: words))
      with (w ++ SPACE :: join [SPACE] (w' :: words)).
    change (join [SPACE] (List.map capital_word (w :: w' :: words)))
      with (capital_word w ++ SPACE
              :: join [SPACE] (List.map capital_word (w' :: words))).
    rewrite Word, IH by assumption. reflexivity.
Qed.

End Titles.

End TitleFacts.

Import TitleFacts.

Module TreeFacts.

(** Induction on an element, with the property for its children. *)
Lemma Element_induction (P : ET.Element -> Prop) :
  (forall t a x cs tl, Forall P cs -> P (ET.Elem t a x cs tl)) ->
  forall e, P e.
Proof.
  intros step. fix IH 1. intros [t a x cs tl]. apply step.
  induction cs as [|c cs IHcs]; constructor; [apply IH|exact IHcs].
Qed.

Lemma descendants_children e :
  ET.descendants e
  = flat_map (fun c => c :: ET.descendants c) (ET.children e).
Proof. destruct e. reflexivity. Qed.

(** The elements below an element [p] found below [r] come right after
    [p] among the elements below [r]. *)
Lemma descendants_block p : forall r,
  In p (ET.descendants r) ->
  exists before after,
    ET.descendants r = before ++ p :: ET.descendants p ++ after.
Proof.
  induction r as [t a x cs tl IH] using Element_induction. cbn [ET.descendants].
  induction cs as [|c cs IHcs]; cbn [flat_map]; intros H; [contradiction|].
  inversion IH as [|? ? IHc IHrest]; subst.
  destruct H as [->|H].
  - exists [], (flat_map (fun c => c :: ET.descendants c) cs). reflexivity.
  - apply in_app_or in H. destruct H as [H|H].
    + destruct (IHc H) as (b & a' & E).
      exists (c :: b), (a' ++ flat_map (fun c => c :: ET.descendants c) cs).
      rewrite E.
      repeat (rewrite <- app_assoc || rewrite <- app_comm_cons). reflexivity.
    + destruct (IHcs IHrest H) as (b & a' & E).
      exists (c :: ET.descendants c ++ b), a'. rewrite E.
      repeat (rewrite <- app_assoc || rewrite <- app_comm_cons). reflexivity.
Qed.

Lemma findall_block p r name :
  In p (ET.findall_below r name) ->
  exists before after,
    ET.findall_below r name = before ++ p :: ET.findall_below p name ++ after.
Proof.
  unfold ET.findall_below. intros H. apply filter_In in H. destruct H as [H T].
  destruct (descendants_block p r H) as (b & a & E). rewrite E.
  rewrite filter_app. cbn [filter]. rewrite T, filter_app. eauto.
Qed.

Lemma descendants_below p r :
  In p (ET.descendants r) -> incl (ET.descendants p) (ET.descendants r).
Proof.
  intros H. destruct (descendants_block p r H) as (b & a & E). rewrite E.
  intros q Hq. apply in_or_app. right. right. apply in_or_app. now left.
Qed.

Lemma texts_below_incl p r name :
  In p (ET.descendants r) -> incl (texts_below p name) (texts_below r name).
Proof.
  intros H t Ht. unfold texts_below in *. apply in_flat_map in Ht.
  destruct Ht as (e & He & Hte). apply in_flat_map. exists e. split; [|exact Hte].
  unfold ET.findall_below in *. apply filter_In in He. destruct He as [He T].
  apply filter_In. split; [|exact T]. eapply descendants_below; eauto.
Qed.

End TreeFacts.

Import TreeFacts.

Module DocumentFacts.

Lemma leaf_text name t :
  match ET.text (leaf name t) with Some x => x | None => [] end = t.
Proof. destruct t; reflexivity. Qed.

Lemma leaf_tag name t : ET.tag (leaf name t) = name.
Proof. reflexivity. Qed.

Lemma leaf_descendants name t : ET.descendants (leaf name t) = [].
Proof. reflexivity. Qed.

Lemma leaves_below name (ts : list pystr) :
  flat_map (fun c => c :: ET.descendants c) (List.map (leaf name) ts)
  = List.map (leaf name) ts.
Proof. induction ts as [|t ts IH]; simpl; [reflexivity|now rewrite IH]. Qed.

Lemma filter_leaves_other name other (ts : list pystr) :
  PyStr.eqb name other = false ->
  filter (fun c => PyStr.eqb (ET.tag c) other) (List.map (leaf name) ts) = [].
Proof.
  intros H. induction ts as [|t ts IH]; simpl; [reflexivity|].
  now rewrite H.
Qed.

Lemma filter_leaves_same name (ts : list pystr) :
  filter (fun c => PyStr.eqb (ET.tag c) name) (List.map (leaf name) ts)
  = List.map (leaf name) ts.
Proof.
  induction ts as [|t ts IH]; simpl; [reflexivity|].
  rewrite (proj2 (eqb_eq name name) eq_refl). now rewrite IH.
Qed.

Lemma texts_of_leaves name (ts : list pystr) :
  Forall (fun t => t <> []) ts ->
  flat_map (fun e => match ET.text e with
                     | Some (c :: t) => [c :: t]
                     | _ => []
                     end) (List.map (leaf name) ts)
  = ts.
Proof.
  induction 1 as [|t ts Ht _ IH]; simpl; [reflexivity|].
  destruct t as [|c t]; [now elim Ht|]. simpl. now rewrite IH.
Qed.

Lemma page_descendants pg :
  ET.descendants (page_element pg)
  = [leaf (of_string "title") (page_title pg);
     leaf (of_string "description") (page_description pg);
     leaf (of_string "importance") (page_importance pg)]
    ++ List.map (leaf (of_string "file_path")) (page_file_paths pg)
    ++ List.map (leaf (of_string "related")) (page_related_pages pg).
Proof.
  unfold page_element. cbn [ET.descendants].
  rewrite !flat_map_app, !leaves_below. reflexivity.
Qed.

(** The record of the element of a page is the page. *)
Lemma page_of_page_element pg : listable pg -> page_of_element (page_element pg) = pg.
Proof.
  intros [Hf Hr]. destruct pg as [i t d im fs rs]. cbn [page_file_paths page_related_pages] in *.
  unfold page_of_element. f_equal.
  - apply (leaf_text (of_string "title") t).
  - apply (leaf_text (of_string "description") d).
  - apply (leaf_text (of_string "importance") im).
  - unfold texts_below, ET.findall_below. rewrite page_descendants.
    cbn [page_title page_description page_importance page_file_paths
         page_related_pages].
    rewrite !filter_app, filter_leaves_same, filter_leaves_other by reflexivity.
    rewrite app_nil_r. now apply texts_of_leaves.
  - unfold texts_below, ET.findall_below. rewrite page_descendants.
    cbn [page_title page_description page_importance page_file_paths
         page_related_pages].
    rewrite !filter_app, filter_leaves_same, filter_leaves_other by reflexivity.
    now apply texts_of_leaves.
Qed.

Lemma pages_below (pages : list Page) :
  filter (fun c => PyStr.eqb (ET.tag c) PAGE)
    (flat_map (fun c => c :: ET.descendants c) (List.map page_element pages))
  = List.map page_element pages.
Proof.
  induction pages as [|pg pages IH]; [reflexivity|].
  cbn [List.map flat_map]. rewrite <- app_comm_cons.
  cbn [filter]. change (PyStr.eqb (ET.tag (page_element pg)) PAGE) with true.
  cbv iota. f_equal. rewrite filter_app, IH, page_descendants.
  rewrite !filter_app, !filter_leaves_other by reflexivity. reflexivity.
Qed.

Lemma document_descendants title description (pages : list Page) :
  ET.descendants (document_element title description pages)
  = leaf (of_string "title") title
    :: leaf (of_string "description") description
    :: ET.Elem (of_string "pages") [] None (List.map page_element pages) None
    :: flat_map (fun c => c :: ET.descendants c) (List.map page_element pages).
Proof.
  unfold document_element. cbn [ET.descendants flat_map].
  rewrite app_nil_r. reflexivity.
Qed.

(** The parser, run on the tree of a document, gives the document back. *)
Lemma parse_document_element title description (pages : list Page) :
  Forall listable pages ->
  parse_root (document_element title description pages)
  = (title, description, pages).
Proof.
  intros H. unfold parse_root. f_equal; [f_equal|].
  - apply (leaf_text (of_string "title") title).
  - apply (leaf_text (of_string "description") description).
  - unfold ET.findall_below. rewrite document_descendants. fold PAGE.
    cbn [filter]. rewrite !leaf_tag. cbn [ET.tag].
    change (PyStr.eqb (of_string "title") PAGE) with false.
    change (PyStr.eqb (of_string "description") PAGE) with false.
    change (PyStr.eqb (of_string "pages") PAGE) with false. cbv iota.
    rewrite pages_below.
    induction H as [|pg pages Hp _ IH]; [reflexivity|].
    cbn [List.map]. now rewrite page_of_page_element, IH.
Qed.

End DocumentFacts.

Import DocumentFacts.

Module TokenFacts.

Lemma span_until (f : N -> bool) : forall t c r,
  forallb f t = true -> f c = false -> ET.span f (t ++ c :: r) = (t, c :: r).
Proof.
  induction t as [|d t IH]; intros c r Ht Hc; simpl.
  - now rewrite Hc.
  - simpl in Ht. apply andb_true_iff in Ht. destruct Ht as [Hd Ht].
    now rewrite Hd, IH.
Qed.

Lemma span_all (f : N -> bool) : forall t,
  forallb f t = true -> ET.span f t = (t, []).
Proof.
  induction t as [|d t IH]; intros Ht; simpl; [reflexivity|].
  simpl in Ht. apply andb_true_iff in Ht. destruct Ht as [Hd Ht].
  now rewrite Hd, IH.
Qed.

Lemma not_lt_chars (t : pystr) :
  ~ In LT t -> forallb (fun x => negb (N.eqb x LT)) t = true.
Proof.
  intros H. apply forallb_forall. intros c Hc.
  destruct (N.eqb_spec c LT); [subst; contradiction|reflexivity].
Qed.

(** More fuel does not change the tokens. *)
Lemma tokenize_more : forall n s r,
  ET.tokenize n s = Some r -> forall n', n <= n' -> ET.tokenize n' s = Some r.
Proof.
  induction n as [|n IH]; intros s r H n' Hn; [discriminate|].
  destruct n' as [|n']; [lia|]. assert (Hn' : n <= n') by lia.
  cbn [ET.tokenize] in *. destruct s as [|c s']; [exact H|].
  destruct (N.eqb c LT).
  - destruct (ET.scan_tag None [] s') as [[[body rest]|e]|]; try exact H.
    destruct (ET.read_tag body) as [[tk|e]|]; try exact H.
    destruct (ET.tokenize n rest) as [r'|] eqn:E; [|discriminate].
    now rewrite (IH rest r' E n' Hn').
  - destruct (ET.span (fun x => negb (N.eqb x LT)) (c :: s')) as [t rest].
    destruct (ET.tokenize n rest) as [r'|] eqn:E; [|discriminate].
    now rewrite (IH rest r' E n' Hn').
Qed.

Lemma tokenize_text n c s :
  N.eqb c LT = false ->
  ET.tokenize (S n) (c :: s)
  = let (t, rest) := ET.span (fun x => negb (N.eqb x LT)) (c :: s) in
    match ET.tokenize n rest with
    | Some (Return tks) => Some (Return (ET.TText t :: tks))
    | other => other
    end.
Proof. intros H. cbn [ET.tokenize]. now rewrite H. Qed.

Lemma render_tag tk rest :
  is_text tk = false ->
  render_token tk ++ rest = LT :: tag_body tk ++ GT :: rest.
Proof.
  intros H. destruct tk; try discriminate; cbn [render_token app];
    now rewrite <- app_assoc.
Qed.

Lemma render_head tks :
  match tks with
  | tk :: _ => is_text tk = false
  | [] => True
  end ->
  List.concat (List.map render_token tks) = []
  \/ exists r, List.concat (List.map render_token tks) = LT :: r.
Proof.
  destruct tks as [|tk tks]; intros H; [now left|right].
  cbn [List.map List.concat]. rewrite render_tag by exact H. eauto.
Qed.

(** The tokenizer reads readable tokens back from their text. *)
Lemma tokenize_readable : forall tks,
  readable tks ->
  ET.tokenize (S (length tks)) (List.concat (List.map render_token tks))
  = Some (Return tks).
Proof.
  induction tks as [|tk tks IH]; intros H; [reflexivity|].
  assert (Tag : is_text tk = false -> readable_tag tk -> readable tks ->
                ET.tokenize (S (length (tk :: tks)))
                  (List.concat (List.map render_token (tk :: tks)))
                = Some (Return (tk :: tks))).
  { intros Ht (_ & Hs & Hr) Hrest. cbn [List.map List.concat length].
    rewrite render_tag by exact Ht.
    change (ET.tokenize (S (S (length tks))) (LT :: ?s))
      with (match ET.scan_tag None [] s with
            | None => None
            | Some (Raise e) => Some (Raise e)
            | Some (Return (body, rest)) =>
                match ET.read_tag body with
                | None => None
                | Some (Raise e) => Some (Raise e)
                | Some (Return tk0) =>
                    match ET.tokenize (S (length tks)) rest with
                    | Some (Return tks0) => Some (Return (tk0 :: tks0))
                    | other => other
                    end
                end
            end).
    rewrite Hs, Hr, (IH Hrest). reflexivity. }
  destruct tk as [nm attrs|nm|nm attrs|t];
    try (destruct H as [H1 H2]; apply Tag; [reflexivity|exact H1|exact H2]).
  destruct H as (Hne & Hlt & Hnext & Hrest).
  destruct t as [|c t]; [now elim Hne|].
  cbn [List.map List.concat length render_token].
  assert (Hc : N.eqb c LT = false).
  { apply N.eqb_neq. intros ->. apply Hlt. now left. }
  assert (Sp : ET.span (fun x => negb (N.eqb x LT))
                 ((c :: t) ++ List.concat (List.map render_token tks))
               = (c :: t, List.concat (List.map render_token tks))).
  { destruct (render_head tks Hnext) as [E|[r E]]; rewrite E.
    - rewrite app_nil_r. apply span_all. now apply not_lt_chars.
    - apply span_until; [now apply not_lt_chars|reflexivity]. }
  cbn [app]. rewrite tokenize_text by exact Hc.
  change (c :: t ++ List.concat (List.map render_token tks))
    with ((c :: t) ++ List.concat (List.map render_token tks)).
  rewrite Sp, (IH Hrest). reflexivity.
Qed.

Lemma render_length : forall tks,
  readable tks -> length tks <= length (List.concat (List.map render_token tks)).
Proof.
  induction tks as [|tk tks IH]; intros H; [simpl; lia|].
  cbn [List.map List.concat length]. rewrite length_app.
  assert (L : 1 <= length (render_token tk)).
  { destruct tk as [nm attrs|nm|nm attrs|t]; cbn [render_token app length];
      try lia.
    destruct H as (Hne & _). destruct t; [now elim Hne|simpl; lia]. }
  assert (Hrest : readable tks).
  { destruct tk; cbn [readable] in H; tauto. }
  specialize (IH Hrest). lia.
Qed.

(** With the fuel of [fromstring]. *)
Lemma tokenize_rendered tks :
  readable tks ->
  ET.tokenize (S (length (List.concat (List.map render_token tks))))
    (List.concat (List.map render_token tks))
  = Some (Return tks).
Proof.
  intros H. apply (tokenize_more (S (length tks))).
  - now apply tokenize_readable.
  - pose proof (render_length tks H). lia.
Qed.

Lemma readable_rest tk tks : readable (tk :: tks) -> readable tks.
Proof. destruct tk; cbn [readable]; tauto. Qed.

Lemma readable_app : forall a b,
  readable a -> readable b ->
  match b with
  | tk :: _ => is_text tk = false
  | [] => True
  end ->
  readable (a ++ b).
Proof.
  induction a as [|tk a IH]; intros b Ha Hb Hh; [exact Hb|].
  pose proof (readable_rest tk a Ha) as Hr.
  specialize (IH b Hr Hb Hh).
  destruct tk as [nm attrs|nm|nm attrs|t]; cbn [app readable] in *;
    try (split; [tauto|exact IH]).
  destruct Ha as (H1 & H2 & H3 & _). repeat split; auto.
  destruct a as [|tk' a]; [exact Hh|exact H3].
Qed.

End TokenFacts.

Import TokenFacts.

Module DocumentText.

Lemma page_tag_body i :
  tag_body (ET.TStart PAGE [(of_string "id", i)])
  = of_string "page id=" ++ DQUOTE :: i ++ [DQUOTE].
Proof.
  cbn [tag_body List.map List.concat render_attr fst snd].
  rewrite app_nil_r. reflexivity.
Qed.

Lemma plain_value_chars i c :
  plain_value i = true -> In c i ->
  printable c = true /\ c <> LT /\ c <> GT /\ c <> DQUOTE
  /\ c <> ET.TAB /\ c <> LF.
Proof.
  unfold plain_value. intros H Hc. rewrite forallb_forall in H.
  specialize (H c Hc). cbv beta in H.
  repeat match goal with
         | H : (_ && _)%bool = true |- _ =>
             apply andb_true_iff in H; destruct H
         end.
  repeat match goal with
         | H : negb (N.eqb _ _) = true |- _ =>
             apply negb_true_iff, N.eqb_neq in H
         end.
  repeat split; assumption.
Qed.

Lemma plain_text_chars t c :
  plain_text t = true -> In c t ->
  printable c = true /\ c <> LT /\ c <> GT.
Proof.
  unfold plain_text. intros H Hc. rewrite forallb_forall in H.
  specialize (H c Hc). cbv beta in H.
  repeat match goal with
         | H : (_ && _)%bool = true |- _ =>
             apply andb_true_iff in H; destruct H
         end.
  repeat match goal with
         | H : negb (N.eqb _ _) = true |- _ =>
             apply negb_true_iff, N.eqb_neq in H
         end.
  repeat split; assumption.
Qed.

(** Inside a quoted value the scan of a tag goes on. *)
Lemma scan_quoted : forall i acc s,
  (forall c, In c i -> c <> LT /\ c <> GT /\ c <> DQUOTE) ->
  ET.scan_tag (Some DQUOTE) acc (i ++ s)
  = ET.scan_tag (Some DQUOTE) (rev i ++ acc) s.
Proof.
  induction i as [|c i IH]; intros acc s H; [reflexivity|].
  destruct (H c (or_introl eq_refl)) as (H1 & H2 & H3).
  cbn [app ET.scan_tag].
  rewrite (proj2 (N.eqb_neq c LT) H1), (proj2 (N.eqb_neq c GT) H2),
    (proj2 (N.eqb_neq c DQUOTE) H3).
  rewrite IH by (intros d Hd; apply H; now right).
  cbn [rev]. now rewrite <- app_assoc.
Qed.

Lemma normalized_value i :
  (forall c, In c i -> c <> ET.TAB /\ c <> LF) ->
  List.map (fun x => if ET.xml_space x then SPACE else x) i = i.
Proof.
  induction i as [|c i IH]; intros H; [reflexivity|].
  cbn [List.map]. rewrite IH by (intros d Hd; apply H; now right). f_equal.
  destruct (H c (or_introl eq_refl)) as [H1 H2]. unfold ET.xml_space.
  rewrite (proj2 (N.eqb_neq c ET.TAB) H1), (proj2 (N.eqb_neq c LF) H2).
  destruct (N.eqb_spec c SPACE); [now subst|reflexivity].
Qed.

(** The start tag of a page is read back with its id. *)
Lemma readable_page_tag i :
  plain_value i = true -> readable_tag (ET.TStart PAGE [(of_string "id", i)]).
Proof.
  intros Hi. split; [reflexivity|]. rewrite page_tag_body. split.
  - intros rest.
    change (ET.scan_tag None [] ((of_string "page id=" ++ DQUOTE :: i ++ [DQUOTE])
                                 ++ GT :: rest))
      with (ET.scan_tag (Some DQUOTE) (rev (of_string "page id=" ++ [DQUOTE]))
              ((i ++ [DQUOTE]) ++ GT :: rest)).
    rewrite <- app_assoc, scan_quoted.
    + cbn [app ET.scan_tag]. cbn [N.eqb Pos.eqb DQUOTE LT GT orb].
      cbn [rev]. rewrite rev_app_distr, !rev_involutive.
      rewrite <- !app_assoc. reflexivity.
    + intros c Hc. destruct (plain_value_chars i c Hi Hc); tauto.
  - unfold ET.read_tag. cbn.
    rewrite (span_until (fun x => negb (N.eqb x DQUOTE)) i DQUOTE []).
    + cbn. rewrite normalized_value; [reflexivity|].
      intros c Hc. destruct (plain_value_chars i c Hi Hc); tauto.
    + apply forallb_forall. intros c Hc.
      destruct (plain_value_chars i c Hi Hc) as (_ & _ & _ & H & _).
      now apply negb_true_iff, N.eqb_neq.
    + reflexivity.
Qed.


(** ** The tokens of a document are readable *)

Lemma tagged_nil : tagged [].
Proof. split; exact I. Qed.

Lemma tagged_app a b : tagged a -> tagged b -> tagged (a ++ b).
Proof.
  intros [Ra Ha] [Rb Hb]. split.
  - now apply readable_app.
  - destruct a; [exact Hb|exact Ha].
Qed.

Lemma tagged_cons tk tks : readable_tag tk -> readable tks -> tagged (tk :: tks).
Proof.
  intros Ht R. pose proof Ht as (Hx & _). split; [|exact Hx].
  destruct tk; try discriminate; cbn [readable]; auto.
Qed.

Lemma tagged_concat {A} (f : A -> list ET.token) (l : list A) :
  Forall (fun x => tagged (f x)) l -> tagged (List.concat (List.map f l)).
Proof.
  induction 1 as [|x l Hx _ IH]; [apply tagged_nil|].
  cbn [List.map List.concat]. now apply tagged_app.
Qed.

Ltac known :=
  split; [split; [reflexivity|split; [intros ?; reflexivity|reflexivity]]|];
  split; [split; [reflexivity|split; [intros ?; reflexivity|reflexivity]]|];
  split; [reflexivity|]; split; intros ? ?; reflexivity.

Lemma known_wiki_structure : known_name (of_string "wiki_structure").
Proof. known. Qed.
Lemma known_title : known_name (of_string "title").
Proof. known. Qed.
Lemma known_description : known_name (of_string "description").
Proof. known. Qed.
Lemma known_importance : known_name (of_string "importance").
Proof. known. Qed.
Lemma known_file_path : known_name (of_string "file_path").
Proof. known. Qed.
Lemma known_related : known_name (of_string "related").
Proof. known. Qed.
Lemma known_pages : known_name (of_string "pages").
Proof. known. Qed.
Lemma known_page : known_name PAGE.
Proof. known. Qed.

Lemma tagged_leaf name t :
  known_name name -> plain_text t = true -> tagged (leaf_tokens name t).
Proof.
  intros (Hs & He & _) Ht. unfold leaf_tokens.
  apply tagged_cons; [exact Hs|]. destruct t as [|c t]; cbn [app readable].
  - auto.
  - split; [discriminate|]. split; [|split; [reflexivity|auto]].
    intros Hin. destruct (plain_text_chars (c :: t) LT Ht Hin) as (_ & H & _).
    now apply H.
Qed.

Lemma tagged_page pg : writable_page pg -> tagged (page_tokens pg).
Proof.
  intros (Hi & Ht & Hd & Him & Hf & Hr). unfold page_tokens.
  apply tagged_cons; [now apply readable_page_tag|].
  apply (tagged_app (leaf_tokens (of_string "title") (page_title pg))).
  { apply tagged_leaf; [apply known_title|exact Ht]. }
  apply tagged_app; [apply tagged_leaf; [apply known_description|exact Hd]|].
  apply tagged_app; [apply tagged_leaf; [apply known_importance|exact Him]|].
  apply tagged_app.
  { apply tagged_concat. eapply Forall_impl; [|exact Hf].
    intros t [_ H]. apply tagged_leaf; [apply known_file_path|exact H]. }
  apply tagged_app.
  { apply tagged_concat. eapply Forall_impl; [|exact Hr].
    intros t [_ H]. apply tagged_leaf; [apply known_related|exact H]. }
  apply tagged_cons; [apply known_page|exact I].
Qed.

Lemma tagged_document title description (pages : list Page) :
  plain_text title = true -> plain_text description = true ->
  Forall writable_page pages ->
  tagged (document_tokens title description pages).
Proof.
  intros Ht Hd Hp. unfold document_tokens.
  apply tagged_cons; [apply known_wiki_structure|].
  apply (tagged_app (leaf_tokens (of_string "title") title)).
  { apply tagged_leaf; [apply known_title|exact Ht]. }
  apply (tagged_app (leaf_tokens (of_string "description") description)).
  { apply tagged_leaf; [apply known_description|exact Hd]. }
  apply tagged_cons; [apply known_pages|].
  apply (tagged_app (List.concat (List.map page_tokens pages))).
  { apply tagged_concat. eapply Forall_impl; [|exact Hp].
    intros pg. apply tagged_page. }
  apply tagged_cons; [apply known_pages|].
  apply tagged_cons; [apply known_wiki_structure|exact I].
Qed.


(** ** The text of a document is the text of its tokens *)

Lemma render_tokens_app a b :
  List.concat (List.map render_token (a ++ b))
  = List.concat (List.map render_token a) ++ List.concat (List.map render_token b).
Proof. now rewrite map_app, concat_app. Qed.

Lemma render_tokens_concat {A} (f : A -> list ET.token) (g : A -> pystr) l :
  (forall x, List.concat (List.map render_token (f x)) = g x) ->
  List.concat (List.map render_token (List.concat (List.map f l)))
  = List.concat (List.map g l).
Proof.
  intros H. induction l as [|x l IH]; [reflexivity|].
  cbn [List.map List.concat]. now rewrite render_tokens_app, H, IH.
Qed.

Lemma render_leaf_tokens name t :
  List.concat (List.map render_token (leaf_tokens name t)) = render_leaf name t.
Proof.
  unfold leaf_tokens, render_leaf, open_tag, close_tag.
  destruct t as [|c t];
    cbn [app List.map List.concat render_token tag_body];
    rewrite !app_nil_r; repeat (rewrite <- app_assoc; cbn [app]); reflexivity.
Qed.

Lemma render_page_tokens pg :
  List.concat (List.map render_token (page_tokens pg)) = render_page pg.
Proof.
  unfold page_tokens, render_page.
  change (ET.TStart PAGE [(of_string "id", page_id pg)] :: ?l)
    with ([ET.TStart PAGE [(of_string "id", page_id pg)]] ++ l).
  rewrite !render_tokens_app, !render_leaf_tokens.
  rewrite !(render_tokens_concat _ _ _ (render_leaf_tokens _)).
  f_equal.
  cbn [List.map List.concat render_token]. rewrite page_tag_body, app_nil_r.
  repeat (rewrite <- app_assoc || rewrite <- app_comm_cons). reflexivity.
Qed.

Lemma render_document_tokens title description (pages : list Page) :
  List.concat (List.map render_token (document_tokens title description pages))
  = render_document title description pages.
Proof.
  unfold document_tokens, render_document.
  change (ET.TStart (of_string "wiki_structure") [] :: ?l)
    with ([ET.TStart (of_string "wiki_structure") []] ++ l).
  change (ET.TStart (of_string "pages") [] :: ?l)
    with ([ET.TStart (of_string "pages") []] ++ l).
  rewrite !render_tokens_app, !render_leaf_tokens.
  rewrite (render_tokens_concat _ _ _ render_page_tokens).
  reflexivity.
Qed.


(** ** The text of a document is in the modelled fragment of XML *)

Lemma printable_text t :
  plain_text t = true -> forallb printable t = true.
Proof.
  intros H. apply forallb_forall. intros c Hc.
  now destruct (plain_text_chars t c H Hc).
Qed.

Lemma printable_value t :
  plain_value t = true -> forallb printable t = true.
Proof.
  intros H. apply forallb_forall. intros c Hc.
  now destruct (plain_value_chars t c H Hc).
Qed.

Lemma printable_leaf name t :
  known_name name -> plain_text t = true ->
  forallb printable (render_leaf name t) = true.
Proof.
  intros (_ & _ & Hn & _) Ht. unfold render_leaf, open_tag, close_tag.
  rewrite !forallb_app, Hn, (printable_text t Ht). reflexivity.
Qed.

Lemma printable_concat {A} (g : A -> pystr) l :
  Forall (fun x => forallb printable (g x) = true) l ->
  forallb printable (List.concat (List.map g l)) = true.
Proof.
  induction 1 as [|x l Hx _ IH]; [reflexivity|].
  cbn [List.map List.concat]. now rewrite forallb_app, Hx, IH.
Qed.

Lemma printable_leaves name ts :
  known_name name -> Forall (fun t => t <> [] /\ plain_text t = true) ts ->
  forallb printable (List.concat (List.map (render_leaf name) ts)) = true.
Proof.
  intros Hn H. apply printable_concat. eapply Forall_impl; [|exact H].
  intros t [_ Ht]. now apply printable_leaf.
Qed.

Lemma printable_page pg :
  writable_page pg -> forallb printable (render_page pg) = true.
Proof.
  intros (Hi & Ht & Hd & Him & Hf & Hr). unfold render_page, close_tag.
  rewrite !forallb_app, (printable_value _ Hi).
  rewrite (printable_leaf _ _ known_title Ht),
    (printable_leaf _ _ known_description Hd),
    (printable_leaf _ _ known_importance Him),
    (printable_leaves _ _ known_file_path Hf),
    (printable_leaves _ _ known_related Hr).
  reflexivity.
Qed.

Lemma printable_document title description (pages : list Page) :
  plain_text title = true -> plain_text description = true ->
  Forall writable_page pages ->
  forallb printable (render_document title description pages) = true.
Proof.
  intros Ht Hd Hp. unfold render_document, open_tag, close_tag.
  rewrite !forallb_app.
  rewrite (printable_leaf _ _ known_title Ht),
    (printable_leaf _ _ known_description Hd).
  rewrite (printable_concat render_page pages).
  - reflexivity.
  - eapply Forall_impl; [|exact Hp]. intros pg. apply printable_page.
Qed.

Lemma printable_supported s :
  forallb printable s = true -> forallb ET.supported_char s = true.
Proof.
  intros H. apply forallb_forall. intros c Hc. rewrite forallb_forall in H.
  specialize (H c Hc). unfold printable in H. apply andb_true_iff in H. tauto.
Qed.

Lemma printable_kept c : printable c = true -> is_stripped_control c = false.
Proof.
  unfold printable, ET.supported_char, is_stripped_control, in_range, ET.TAB, LF,
    ET.AMP.
  intros H. apply andb_true_iff in H. destruct H as [H D].
  apply andb_true_iff in H. destruct H as [H _].
  apply negb_true_iff in D. rewrite D, orb_false_r.
  destruct (N.leb_spec c 31) as [L|L]; [|reflexivity]. cbn [andb].
  apply negb_false_iff.
  repeat (apply orb_true_iff in H; destruct H as [H|H]);
    try (apply N.eqb_eq in H; subst; reflexivity);
    apply andb_true_iff in H; destruct H as [H1 H2];
    apply N.leb_le in H1; lia.
Qed.

Lemma printable_without_controls s :
  forallb printable s = true -> without_controls s = s.
Proof.
  intros H. unfold without_controls. induction s as [|c s IH]; [reflexivity|].
  cbn [forallb] in H. apply andb_true_iff in H. destruct H as [Hc Hs].
  cbn [filter]. rewrite (printable_kept c Hc). cbn [negb]. f_equal. now apply IH.
Qed.

(** A text in which no [>] comes just after a []] does not hold the end of
    a CDATA section. *)
Lemma closes_contains : forall s p,
  closes_no_section p s = true -> contains (of_string "]]>") s = false.
Proof.
  induction s as [|c s IH]; intros p H; [reflexivity|].
  cbn [closes_no_section] in H. apply andb_true_iff in H. destruct H as [_ H].
  cbn [contains]. rewrite (IH _ H), orb_false_r.
  destruct s as [|d [|e s]]; cbn [startswith of_string];
    try (cbn; now rewrite ?andb_false_r).
  change (startswith (of_string "]]>") (c :: d :: e :: s))
    with (N.eqb RBRACK c && (N.eqb RBRACK d && (N.eqb GT e && true)))%bool.
  destruct (N.eqb_spec RBRACK c); [|reflexivity].
  destruct (N.eqb_spec RBRACK d); [|reflexivity].
  destruct (N.eqb_spec GT e); [|reflexivity]. subst.
  cbn in H. discriminate.
Qed.

Lemma closes_skip : forall t p r,
  ~ In GT t ->
  closes_no_section p (t ++ r) = closes_no_section (prev_after p t) r.
Proof.
  induction t as [|c t IH]; intros p r H; [reflexivity|].
  cbn [app closes_no_section].
  rewrite (proj2 (N.eqb_neq c GT)) by (intros ->; apply H; now left).
  cbn [andb]. rewrite IH by (intros Hin; apply H; now right). reflexivity.
Qed.

Lemma passes_app a b : passes a -> passes b -> passes (a ++ b).
Proof. intros Ha Hb r. now rewrite <- app_assoc, Ha, Hb. Qed.

Lemma passes_concat {A} (g : A -> pystr) l :
  Forall (fun x => passes (g x)) l -> passes (List.concat (List.map g l)).
Proof.
  induction 1 as [|x l Hx _ IH]; [intros r; reflexivity|].
  cbn [List.map List.concat]. now apply passes_app.
Qed.

Lemma passes_leaf name t :
  known_name name -> plain_text t = true -> passes (render_leaf name t).
Proof.
  intros (_ & _ & _ & Ho & Hc) Ht r. unfold render_leaf.
  rewrite <- !app_assoc, Ho, closes_skip, Hc; [reflexivity|].
  intros Hin. destruct (plain_text_chars t GT Ht Hin) as (_ & _ & H).
  now apply H.
Qed.

Lemma passes_leaves name ts :
  known_name name -> Forall (fun t => t <> [] /\ plain_text t = true) ts ->
  passes (List.concat (List.map (render_leaf name) ts)).
Proof.
  intros Hn H. apply passes_concat. eapply Forall_impl; [|exact H].
  intros t [_ Ht]. now apply passes_leaf.
Qed.

Lemma passes_page pg : writable_page pg -> passes (render_page pg).
Proof.
  intros (Hi & Ht & Hd & Him & Hf & Hr). unfold render_page.
  apply passes_app.
  { intros r.
    change ((of_string "<page id=" ++ [DQUOTE] ++ page_id pg ++ [DQUOTE; GT]) ++ r)
      with (of_string "<page id=" ++ [DQUOTE]
            ++ (page_id pg ++ [DQUOTE; GT]) ++ r).
    rewrite <- (app_assoc (page_id pg)).
    change (closes_no_section (Some GT)
              (of_string "<page id=" ++ [DQUOTE] ++ page_id pg ++ [DQUOTE; GT] ++ r))
      with (closes_no_section (Some DQUOTE) (page_id pg ++ [DQUOTE; GT] ++ r)).
    rewrite closes_skip.
    - reflexivity.
    - intros Hin. destruct (plain_value_chars _ GT Hi Hin) as (_ & _ & H & _).
      now apply H. }
  apply passes_app; [apply passes_leaf; [apply known_title|exact Ht]|].
  apply passes_app; [apply passes_leaf; [apply known_description|exact Hd]|].
  apply passes_app; [apply passes_leaf; [apply known_importance|exact Him]|].
  apply passes_app; [apply passes_leaves; [apply known_file_path|exact Hf]|].
  apply passes_app; [apply passes_leaves; [apply known_related|exact Hr]|].
  intros r. apply known_page.
Qed.

Lemma no_section_end title description (pages : list Page) :
  plain_text title = true -> plain_text description = true ->
  Forall writable_page pages ->
  contains (of_string "]]>") (render_document title description pages) = false.
Proof.
  intros Ht Hd Hp. apply (closes_contains _ None). unfold render_document.
  destruct known_wiki_structure as (_ & _ & _ & Wo & Wc).
  destruct known_pages as (_ & _ & _ & Po & Pc).
  rewrite Wo.
  rewrite (passes_leaf _ _ known_title Ht).
  rewrite (passes_leaf _ _ known_description Hd).
  rewrite Po.
  rewrite (passes_concat render_page pages).
  - rewrite Pc. rewrite <- (app_nil_r (close_tag _)). rewrite Wc. reflexivity.
  - eapply Forall_impl; [|exact Hp]. intros pg. apply passes_page.
Qed.

End DocumentText.

Import DocumentText.

Module BuildFacts.

Lemma add_children_nil f : add_children [] f = f.
Proof. destruct f. reflexivity. Qed.

Lemma add_children_cons e es f :
  add_children (e :: es) f = add_children es (ET.add_child e f).
Proof.
  unfold add_children, ET.add_child. cbn [rev ET.f_tag ET.f_attrib ET.f_text ET.f_children].
  now rewrite <- app_assoc.
Qed.

Lemma add_children_app a b f :
  add_children (a ++ b) f = add_children b (add_children a f).
Proof.
  revert f. induction a as [|e a IH]; intros f.
  - now rewrite add_children_nil.
  - cbn [app]. now rewrite !add_children_cons, IH.
Qed.

Lemma eqb_refl (a : pystr) : PyStr.eqb a a = true.
Proof. now apply eqb_eq. Qed.

(** The builder turns the tokens of a leaf into a child of the open
    element. *)
Lemma build_leaf name t tks f stack root :
  ET.build (leaf_tokens name t ++ tks) (f :: stack) root
  = ET.build tks (ET.add_child (leaf name t) f :: stack) root.
Proof.
  unfold leaf_tokens.
  destruct t as [|c t]; cbn [app ET.build ET.add_text ET.f_children ET.f_tag];
    rewrite eqb_refl; reflexivity.
Qed.

Lemma build_leaves name : forall ts tks f stack root,
  ET.build (List.concat (List.map (leaf_tokens name) ts) ++ tks) (f :: stack) root
  = ET.build tks (add_children (List.map (leaf name) ts) f :: stack) root.
Proof.
  induction ts as [|t ts IH]; intros tks f stack root.
  - cbn [List.map List.concat app]. now rewrite add_children_nil.
  - cbn [List.map List.concat]. rewrite <- app_assoc, build_leaf, IH.
    now rewrite add_children_cons.
Qed.

Lemma build_page pg tks f stack root :
  ET.build (page_tokens pg ++ tks) (f :: stack) root
  = ET.build tks (ET.add_child (page_element pg) f :: stack) root.
Proof.
  unfold page_tokens. cbn [app ET.build].
  repeat rewrite <- app_assoc.
  rewrite !build_leaf, !build_leaves.
  cbn [app ET.build].
  unfold add_children, ET.add_child.
  cbn [ET.f_tag ET.f_attrib ET.f_text ET.f_children].
  rewrite eqb_refl. unfold ET.close_frame.
  cbn [ET.f_tag ET.f_attrib ET.f_text ET.f_children].
  unfold page_element. repeat f_equal.
  rewrite !rev_app_distr, !rev_involutive. reflexivity.
Qed.

Lemma build_pages : forall (pages : list Page) tks f stack root,
  ET.build (List.concat (List.map page_tokens pages) ++ tks) (f :: stack) root
  = ET.build tks (add_children (List.map page_element pages) f :: stack) root.
Proof.
  induction pages as [|pg pages IH]; intros tks f stack root.
  - cbn [List.map List.concat app]. now rewrite add_children_nil.
  - cbn [List.map List.concat]. rewrite <- app_assoc, build_page, IH.
    now rewrite add_children_cons.
Qed.

Lemma build_document title description (pages : list Page) :
  ET.build (document_tokens title description pages) [] None
  = Return (document_element title description pages).
Proof.
  unfold document_tokens. cbn [ET.build].
  repeat rewrite <- app_assoc. rewrite !build_leaf.
  cbn [app ET.build]. rewrite build_pages.
  cbn [ET.build]. unfold add_children, ET.add_child, ET.close_frame.
  cbn [ET.f_tag ET.f_attrib ET.f_text ET.f_children].
  match goal with
  | |- (if ?c then _ else _) = _ => replace c with true by reflexivity
  end.
  match goal with
  | |- (if ?c then _ else _) = _ => replace c with true by reflexivity
  end.
  rewrite app_nil_r, rev_involutive. reflexivity.
Qed.

(** The XML parser reads the text of a document as the tree of the
    document. *)
Lemma fromstring_document title description (pages : list Page) :
  plain_text title = true -> plain_text description = true ->
  Forall writable_page pages ->
  ET.fromstring (render_document title description pages)
  = Some (Return (document_element title description pages)).
Proof.
  intros Ht Hd Hp. unfold ET.fromstring.
  rewrite (printable_supported _ (printable_document _ _ _ Ht Hd Hp)).
  rewrite no_section_end by assumption. cbn [negb].
  rewrite <- render_document_tokens, tokenize_rendered.
  - now rewrite build_document.
  - now apply tagged_document.
Qed.

Lemma writable_listable pg : writable_page pg -> listable pg.
Proof.
  intros (_ & _ & _ & _ & Hf & Hr). split;
    (eapply Forall_impl; [|eassumption]); intros t [H _]; exact H.
Qed.

End BuildFacts.

Import BuildFacts.

Module PipelineFacts.

Lemma split_inside (c : N) : forall t r a b,
  t ++ r = a ++ c :: b -> length a < length t -> In c t.
Proof.
  induction t as [|d t IH]; intros r a b E L; [simpl in L; lia|].
  destruct a as [|e a]; cbn [app] in E; inversion E; subst.
  - now left.
  - right. eapply IH; eauto. simpl in L. lia.
Qed.

Lemma split_after : forall (s : pystr) r a (x : pystr),
  s ++ r = a ++ x -> length s <= length a ->
  exists a', a = s ++ a' /\ r = a' ++ x.
Proof.
  induction s as [|d s IH]; intros r a x E L.
  - exists a. auto.
  - destruct a as [|e a]; [simpl in L; lia|].
    cbn [app] in E. inversion E; subst.
    destruct (IH r a x H1) as (a' & -> & ->); [simpl in L; lia|].
    exists a'. auto.
Qed.

Lemma no_end_text t : ~ In LT t -> no_end_inside t.
Proof.
  intros H r a b E L. exfalso. apply H. eapply split_inside; eauto.
Qed.

Lemma no_end_tag n :
  ~ In LT (n ++ [GT]) ->
  (forall r, startswith (of_string "/w") ((n ++ [GT]) ++ r) = false) ->
  no_end_inside (LT :: n ++ [GT]).
Proof.
  intros Hn Hs r a b E L. destruct a as [|c a]; cbn [app] in E; inversion E.
  - apply Hs.
  - exfalso. apply Hn. eapply split_inside; eauto. simpl in L. lia.
Qed.

Lemma no_end_app s1 s2 :
  no_end_inside s1 -> no_end_inside s2 -> no_end_inside (s1 ++ s2).
Proof.
  intros H1 H2 r a b E L. rewrite <- app_assoc in E.
  destruct (Nat.lt_ge_cases (length a) (length s1)) as [C|C].
  - eapply H1; eauto.
  - destruct (split_after s1 (s2 ++ r) a (LT :: b) E C) as (a' & -> & E').
    eapply H2; eauto. rewrite !length_app in L. lia.
Qed.

Lemma no_end_concat {A} (g : A -> pystr) l :
  Forall (fun x => no_end_inside (g x)) l ->
  no_end_inside (List.concat (List.map g l)).
Proof.
  induction 1 as [|x l Hx _ IH].
  - intros r a b _ L. simpl in L. lia.
  - cbn [List.map List.concat]. now apply no_end_app.
Qed.

Ltac inner name :=
  split;
  [apply (no_end_tag name)|apply (no_end_tag (ET.SLASH :: name))];
  (vm_compute; intuition discriminate) || (intros r; reflexivity).

Lemma inner_title : inner_name (of_string "title").
Proof. inner (of_string "title"). Qed.
Lemma inner_description : inner_name (of_string "description").
Proof. inner (of_string "description"). Qed.
Lemma inner_importance : inner_name (of_string "importance").
Proof. inner (of_string "importance"). Qed.
Lemma inner_file_path : inner_name (of_string "file_path").
Proof. inner (of_string "file_path"). Qed.
Lemma inner_related : inner_name (of_string "related").
Proof. inner (of_string "related"). Qed.
Lemma inner_pages : inner_name (of_string "pages").
Proof. inner (of_string "pages"). Qed.
Lemma inner_page : inner_name PAGE.
Proof. inner PAGE. Qed.

Lemma no_end_leaf name t :
  inner_name name -> plain_text t = true -> no_end_inside (render_leaf name t).
Proof.
  intros [Ho Hc] Ht. unfold render_leaf.
  apply no_end_app; [exact Ho|]. apply no_end_app; [|exact Hc].
  apply no_end_text. intros Hin.
  destruct (plain_text_chars t LT Ht Hin) as (_ & H & _). now apply H.
Qed.

Lemma no_end_leaves name ts :
  inner_name name -> Forall (fun t => t <> [] /\ plain_text t = true) ts ->
  no_end_inside (List.concat (List.map (render_leaf name) ts)).
Proof.
  intros Hn H. apply no_end_concat. eapply Forall_impl; [|exact H].
  intros t [_ Ht]. now apply no_end_leaf.
Qed.

Lemma no_end_page pg : writable_page pg -> no_end_inside (render_page pg).
Proof.
  intros (Hi & Ht & Hd & Him & Hf & Hr). unfold render_page.
  apply no_end_app.
  { change (of_string "<page id=" ++ [DQUOTE] ++ page_id pg ++ [DQUOTE; GT])
      with (LT :: (of_string "page id=" ++ DQUOTE :: page_id pg ++ [DQUOTE; GT])).
    replace (of_string "page id=" ++ DQUOTE :: page_id pg ++ [DQUOTE; GT])
      with ((of_string "page id=" ++ DQUOTE :: page_id pg ++ [DQUOTE]) ++ [GT])
      by (repeat (rewrite <- app_assoc || rewrite <- app_comm_cons);
          reflexivity).
    apply no_end_tag; [|intros r; reflexivity].
    intros H. apply in_app_or in H.
    destruct H as [H|H]; [|simpl in H; intuition discriminate].
    apply in_app_or in H.
    destruct H as [H|H]; [vm_compute in H; intuition discriminate|].
    destruct H as [H|H]; [discriminate|]. apply in_app_or in H.
    destruct H as [H|H]; [|simpl in H; intuition discriminate].
    destruct (plain_value_chars _ LT Hi H) as (_ & H' & _). now apply H'. }
  apply no_end_app; [apply no_end_leaf; [apply inner_title|exact Ht]|].
  apply no_end_app; [apply no_end_leaf; [apply inner_description|exact Hd]|].
  apply no_end_app; [apply no_end_leaf; [apply inner_importance|exact Him]|].
  apply no_end_app; [apply no_end_leaves; [apply inner_file_path|exact Hf]|].
  apply no_end_app; [apply no_end_leaves; [apply inner_related|exact Hr]|].
  apply inner_page.
Qed.

Lemma no_end_body title description (pages : list Page) :
  plain_text title = true -> plain_text description = true ->
  Forall writable_page pages ->
  no_end_inside (document_body title description pages).
Proof.
  intros Ht Hd Hp. unfold document_body.
  apply no_end_app; [apply no_end_leaf; [apply inner_title|exact Ht]|].
  apply no_end_app; [apply no_end_leaf; [apply inner_description|exact Hd]|].
  apply no_end_app; [apply inner_pages|].
  apply no_end_app; [|apply inner_pages].
  apply no_end_concat. eapply Forall_impl; [|exact Hp]. apply no_end_page.
Qed.

Lemma document_shape title description (pages : list Page) :
  render_document title description pages
  = START_MARKER ++ document_body title description pages ++ END_MARKER.
Proof.
  unfold render_document, document_body.
  repeat rewrite <- app_assoc. reflexivity.
Qed.

(** The document is its own first region. *)
Lemma document_region title description (pages : list Page) :
  plain_text title = true -> plain_text description = true ->
  Forall writable_page pages ->
  first_region (render_document title description pages) []
    (document_body title description pages) [].
Proof.
  intros Ht Hd Hp. split; [|split].
  - rewrite document_shape. cbn [app]. now rewrite app_nil_r.
  - intros a b _. simpl. lia.
  - intros b' post' E.
    destruct (Nat.lt_ge_cases (length b') (length (document_body title description pages)))
      as [C|C]; [|exact C].
    exfalso. rewrite end_marker_shape in E at 2. cbn [app] in E.
    pose proof (no_end_body title description pages Ht Hd Hp _ _ _ E C) as H.
    discriminate H.
Qed.

Lemma app_same_length : forall (a b x y : pystr),
  a ++ x = b ++ y -> length a = length b -> a = b /\ x = y.
Proof.
  induction a as [|c a IH]; intros [|d b] x y E L; try discriminate.
  - auto.
  - cbn [app] in E. inversion E; subst.
    destruct (IH b x y H1) as [-> ->]; [simpl in L; lia|auto].
Qed.

(** A text has one first region. *)
Lemma first_region_unique s pre body post pre' body' post' :
  first_region s pre body post -> first_region s pre' body' post' ->
  pre = pre' /\ body = body' /\ post = post'.
Proof.
  intros (E & Hp & Hb) (E' & Hp' & Hb').
  pose proof (Hp _ _ E') as L1. pose proof (Hp' _ _ E) as L2.
  assert (E0 : pre ++ START_MARKER ++ body ++ END_MARKER ++ post
               = pre' ++ START_MARKER ++ body' ++ END_MARKER ++ post')
    by congruence.
  destruct (app_same_length _ _ _ _ E0) as [-> E1]; [lia|].
  apply app_inv_head in E1.
  pose proof (Hb _ _ E1) as L3. pose proof (Hb' _ _ (eq_sym E1)) as L4.
  destruct (app_same_length _ _ _ _ E1) as [-> E2]; [lia|].
  apply app_inv_head in E2. auto.
Qed.

(** The extractor finds the document in a response that holds no [<]
    before it and no [>] after it. *)
Lemma extract_document a b title description (pages : list Page) :
  ~ In LT a -> ~ In GT b ->
  plain_text title = true -> plain_text description = true ->
  Forall writable_page pages ->
  extract_wiki_structure_xml (a ++ render_document title description pages ++ b)
  = Return (render_document title description pages).
Proof.
  intros Ha Hb Ht Hd Hp.
  pose proof (first_region_inside a _ b _ _ _ Ha Hb
                (document_region title description pages Ht Hd Hp)) as R.
  destruct (extract_cases (a ++ render_document title description pages ++ b))
    as [[B E]|[(B & F & E)|(B & pre & body & post & R' & E)]].
  - exfalso. eapply fragment_not_blank; [|exact B].
    eapply first_region_fragment; eauto.
  - exfalso. apply F. eapply first_region_fragment; eauto.
  - rewrite E. f_equal.
    destruct (first_region_unique _ _ _ _ _ _ _ R' R) as (_ & -> & _).
    rewrite <- document_shape. apply printable_without_controls.
    now apply printable_document.
Qed.

End PipelineFacts.

Import PipelineFacts.

Module PartialReport.

Section Partial.

Variable repr : PyVal -> pystr.
Variable uni_title : N -> pystr.
Variable uni_lower : pystr -> nat -> pystr.
Variable uni_cased : N -> bool.





End Partial.

End PartialReport.

Import PartialReport.

Module EssentialFacts.

Lemma essential_tag e : ET.tag (essential e) = ET.tag e.
Proof. destruct e. reflexivity. Qed.

Lemma essential_children e :
  ET.children (essential e) = List.map essential (ET.children e).
Proof. destruct e. reflexivity. Qed.

Lemma essential_text e :
  is_field (ET.tag e) = true -> ET.text (essential e) = ET.text e.
Proof. destruct e as [t a x cs tl]. cbn. now intros ->. Qed.

Lemma essential_get e key default :
  ET.get (essential e) key default = ET.get e key default.
Proof. destruct e. reflexivity. Qed.

Lemma flat_map_map {A B C} (f : A -> B) (g : B -> list C) l :
  flat_map g (List.map f l) = flat_map (fun x => g (f x)) l.
Proof. induction l as [|x l IH]; cbn; [reflexivity|now rewrite IH]. Qed.

Lemma map_flat_map {A B C} (f : B -> C) (g : A -> list B) l :
  List.map f (flat_map g l) = flat_map (fun x => List.map f (g x)) l.
Proof.
  induction l as [|x l IH]; cbn; [reflexivity|now rewrite map_app, IH].
Qed.

Lemma essential_descendants : forall e,
  ET.descendants (essential e) = List.map essential (ET.descendants e).
Proof.
  induction e as [t a x cs tl IH] using Element_induction.
  cbn [essential ET.descendants]. rewrite flat_map_map, map_flat_map.
  induction IH as [|c cs Hc _ IHcs]; [reflexivity|].
  cbn [flat_map List.map]. now rewrite Hc, IHcs.
Qed.

Lemma filter_map_tag name l :
  filter (fun c => PyStr.eqb (ET.tag c) name) (List.map essential l)
  = List.map essential (filter (fun c => PyStr.eqb (ET.tag c) name) l).
Proof.
  induction l as [|c l IH]; [reflexivity|].
  cbn [List.map filter]. rewrite essential_tag.
  destruct (PyStr.eqb (ET.tag c) name); cbn [List.map]; now rewrite IH.
Qed.

Lemma essential_findall e name :
  ET.findall_below (essential e) name
  = List.map essential (ET.findall_below e name).
Proof.
  unfold ET.findall_below. now rewrite essential_descendants, filter_map_tag.
Qed.

Lemma essential_findtext e name default :
  is_field name = true ->
  ET.findtext (essential e) name default = ET.findtext e name default.
Proof.
  intros Hn. unfold ET.findtext, ET.find. rewrite essential_children.
  induction (ET.children e) as [|c l IH]; [reflexivity|].
  cbn [List.map List.find]. rewrite essential_tag.
  destruct (PyStr.eqb (ET.tag c) name) eqn:E; [|exact IH].
  apply eqb_eq in E. rewrite essential_text; [reflexivity|]. now rewrite E.
Qed.

Lemma essential_texts_below e name :
  is_field name = true -> texts_below (essential e) name = texts_below e name.
Proof.
  intros Hn. unfold texts_below. rewrite essential_findall.
  unfold ET.findall_below.
  induction (ET.descendants e) as [|c l IH]; [reflexivity|].
  cbn [filter]. destruct (PyStr.eqb (ET.tag c) name) eqn:E; [|exact IH].
  cbn [List.map flat_map]. rewrite IH. f_equal.
  apply eqb_eq in E. rewrite essential_text; [reflexivity|]. now rewrite E.
Qed.

Lemma essential_page p : page_of_element (essential p) = page_of_element p.
Proof.
  unfold page_of_element.
  now rewrite essential_get, !essential_findtext, !essential_texts_below
    by reflexivity.
Qed.

Lemma essential_parse_root root : parse_root (essential root) = parse_root root.
Proof.
  unfold parse_root.
  rewrite !essential_findtext, essential_findall, map_map by reflexivity.
  f_equal. apply map_ext. apply essential_page.
Qed.

End EssentialFacts.

Import EssentialFacts.

(* ===================================================================== *)
(** * Properties of the content normaliser *)
(* ===================================================================== *)

(** C2, as stated, fails: cleaning is not idempotent. On [!<b>[a](c)] the
    image substitution finds nothing, the tag substitution then removes
    [<b>] and leaves the image markup [![a](c)], which a second cleaning
    deletes. *)
Lemma clean_not_idempotent :
  let x := of_string "!<b>[a](c)" in
  clean_and_format_content x = of_string "![a](c)"
  /\ clean_and_format_content (clean_and_format_content x) = []
  /\ clean_and_format_content (clean_and_format_content x)
     <> clean_and_format_content x.
Proof. vm_compute. repeat split. discriminate. Qed.

(** C2, amended: cleaning a cleaned text again changes nothing whenever the
    cleaned text holds no opening square bracket and no backtick. *)
Theorem clean_idempotent_without_markup (x : pystr) :
  ~ In LBRACK (clean_and_format_content x) ->
  ~ In BACKTICK (clean_and_format_content x) ->
  clean_and_format_content (clean_and_format_content x)
  = clean_and_format_content x.
Proof.
  intros Hbr Hbt. set (y := clean_and_format_content x) in *.
  assert (Hss : single_spaced false y = true) by apply clean_single_spaced.
  assert (Htag : no_tag y) by apply clean_no_tag.
  assert (E1 : remove_details y = y).
  { apply sub_without_tag; auto. simpl. tauto. }
  assert (E2 : remove_sources y = y).
  { apply sub_without_required with (x := BACKTICK); auto. simpl. tauto. }
  assert (E3 : remove_images y = y).
  { apply sub_without_required with (x := LBRACK); auto. simpl. tauto. }
  assert (E4 : unwrap_links y = y).
  { apply sub_without_required with (x := LBRACK); auto. simpl. tauto. }
  assert (E5 : remove_tags y = y).
  { apply sub_without_tag; auto. simpl. tauto. }
  assert (E6 : remove_mermaid y = y).
  { apply sub_without_required with (x := BACKTICK); auto. simpl. tauto. }
  assert (E7 : collapse_whitespace y = y) by now apply collapse_whitespace_id.
  assert (E8 : clean_upto_whitespace y = y).
  { unfold clean_upto_whitespace. now rewrite E1, E2, E3, E4, E5, E6. }
  rewrite (clean_is_trim y), E8. unfold y at 1.
  rewrite clean_is_trim, strip_idem. unfold y. now rewrite clean_is_trim.
Qed.

Lemma clean_idempotent_without_markup_witness :
  let x := of_string "See  <b>the</b> [guide](https://e.org/g) ![i](i.png)." in
  clean_and_format_content (clean_and_format_content x)
  = clean_and_format_content x.
Proof.
  apply (clean_idempotent_without_markup
           (of_string "See  <b>the</b> [guide](https://e.org/g) ![i](i.png)."));
    vm_compute; intuition discriminate.
Defined.

(** C5, as stated, fails: the output may contain [![]. *)
Lemma clean_may_keep_image_marker :
  let x := of_string "!<b>[a](c)" in
  clean_and_format_content x = of_string "![a](c)"
  /\ contains (of_string "![") (clean_and_format_content x) = true.
Proof. vm_compute. split; reflexivity. Qed.

(** C5, amended: the output of the cleaning never holds a [<] that a later
    [>] closes; in particular it never holds [<details>]. *)
Theorem clean_has_no_tag (x : pystr) :
  (forall a b c, clean_and_format_content x <> a ++ [LT] ++ b ++ [GT] ++ c)
  /\ contains (of_string "<details>") (clean_and_format_content x) = false.
Proof.
  pose proof (clean_no_tag x) as H. split.
  - intros a b c E. apply (H a (b ++ [GT] ++ c)); [exact E|].
    apply in_or_app. right. now left.
  - destruct (contains _ _) eqn:C; [|reflexivity]. exfalso.
    apply contains_split in C. destruct C as (a & b & E).
    apply (H a (of_string "details>" ++ b)); [exact E|].
    apply in_or_app. left. vm_compute. tauto.
Qed.

(** C8: after the whitespace substitution no newline is left, so the
    blank-line substitution changes nothing and the function is the
    pipeline without that step. *)
Theorem blank_line_step_is_noop (x : pystr) :
  ~ In LF (clean_upto_whitespace x)
  /\ collapse_blank_lines (clean_upto_whitespace x) = clean_upto_whitespace x
  /\ clean_and_format_content x = clean_without_blank_line_step x.
Proof.
  pose proof (clean_upto_whitespace_no_newline x) as H.
  repeat split; [exact H|now apply collapse_blank_lines_id|apply clean_is_trim].
Qed.

(* ===================================================================== *)
(** * Properties of the extractor *)
(* ===================================================================== *)

Lemma messages_differ : MSG_EMPTY <> MSG_NO_XML.
Proof. intros H. vm_compute in H. discriminate. Qed.

(** C6: the extractor raises [ValueError] with the empty-response message
    exactly when the response is empty or made of whitespace only; it
    raises [ValueError] with the no-structure message exactly when the
    response is not blank and holds no delimited fragment; in every other
    case it returns a fragment. The three examples of the specification
    follow. *)
Theorem extract_errors (s : pystr) :
  (extract_wiki_structure_xml s = Raise (ValueError MSG_EMPTY)
   <-> Forall (fun c => is_space c = true) s)
  /\ (extract_wiki_structure_xml s = Raise (ValueError MSG_NO_XML)
      <-> ~ Forall (fun c => is_space c = true) s /\ ~ has_fragment s)
  /\ ((exists fragment, extract_wiki_structure_xml s = Return fragment)
      <-> ~ Forall (fun c => is_space c = true) s /\ has_fragment s)
  /\ extract_wiki_structure_xml [] = Raise (ValueError MSG_EMPTY)
  /\ extract_wiki_structure_xml (of_string "   ") = Raise (ValueError MSG_EMPTY)
  /\ extract_wiki_structure_xml (of_string "no structure here")
     = Raise (ValueError MSG_NO_XML).
Proof.
  split; [|split; [|split; [|repeat split; reflexivity]]].
  - destruct (extract_cases s)
      as [[B E]|[(B & F & E)|(B & pre & body & post & R & E)]]; rewrite E.
    + tauto.
    + split; [|contradiction]. intros H. exfalso.
      apply messages_differ. congruence.
    + split; [discriminate|contradiction].
  - destruct (extract_cases s)
      as [[B E]|[(B & F & E)|(B & pre & body & post & R & E)]]; rewrite E.
    + split; [|tauto]. intros H. exfalso.
      apply messages_differ. congruence.
    + tauto.
    + split; [discriminate|]. intros [_ F]. elim F.
      eapply first_region_fragment; eauto.
  - destruct (extract_cases s)
      as [[B E]|[(B & F & E)|(B & pre & body & post & R & E)]]; rewrite E.
    + split; [intros [f H]; discriminate|tauto].
    + split; [intros [f H]; discriminate|tauto].
    + split; [|eauto]. intros _. split; [exact B|].
      eapply first_region_fragment; eauto.
Qed.

(** C7: on a response that holds a delimited fragment the extractor returns
    the first delimited region, markers included, without its control
    characters; the result, trimmed, starts with the start marker and ends
    with the end marker; a region with an empty body is returned as it is. *)
Theorem extract_returns_first_region (s : pystr) :
  has_fragment s ->
  exists pre body post,
    first_region s pre body post
    /\ extract_wiki_structure_xml s
       = Return (without_controls (START_MARKER ++ body ++ END_MARKER))
    /\ startswith START_MARKER
         (strip (without_controls (START_MARKER ++ body ++ END_MARKER))) = true
    /\ endswith END_MARKER
         (strip (without_controls (START_MARKER ++ body ++ END_MARKER))) = true
    /\ (body = [] ->
        extract_wiki_structure_xml s = Return (START_MARKER ++ END_MARKER)).
Proof.
  intros Hf.
  destruct (extract_cases s)
    as [[B E]|[(B & F & E)|(B & pre & body & post & R & E)]].
  - elim (fragment_not_blank s Hf B).
  - contradiction.
  - exists pre, body, post. split; [exact R|]. split; [exact E|].
    rewrite without_controls_region, strip_region. split; [|split].
    + apply startswith_app.
    + rewrite app_assoc. apply endswith_app.
    + intros ->. rewrite E. reflexivity.
Qed.

Lemma extract_returns_first_region_witness :
  exists pre body post,
    first_region
      (of_string "```xml" ++ [LF] ++ START_MARKER ++ [7%N] ++ of_string "a"
       ++ END_MARKER ++ of_string " b" ++ END_MARKER ++ [LF] ++ of_string "```")
      pre body post
    /\ extract_wiki_structure_xml
         (of_string "```xml" ++ [LF] ++ START_MARKER ++ [7%N] ++ of_string "a"
          ++ END_MARKER ++ of_string " b" ++ END_MARKER ++ [LF] ++ of_string "```")
       = Return (without_controls (START_MARKER ++ body ++ END_MARKER))
    /\ startswith START_MARKER
         (strip (without_controls (START_MARKER ++ body ++ END_MARKER))) = true
    /\ endswith END_MARKER
         (strip (without_controls (START_MARKER ++ body ++ END_MARKER))) = true
    /\ (body = [] ->
        extract_wiki_structure_xml
          (of_string "```xml" ++ [LF] ++ START_MARKER ++ [7%N] ++ of_string "a"
           ++ END_MARKER ++ of_string " b" ++ END_MARKER ++ [LF] ++ of_string "```")
        = Return (START_MARKER ++ END_MARKER)).
Proof.
  apply (extract_returns_first_region
           (of_string "```xml" ++ [LF] ++ START_MARKER ++ [7%N] ++ of_string "a"
            ++ END_MARKER ++ of_string " b" ++ END_MARKER ++ [LF] ++ of_string "```")).
  exists (of_string "```xml" ++ [LF]), ([7%N] ++ of_string "a"),
    (of_string " b" ++ END_MARKER ++ [LF] ++ of_string "```").
  reflexivity.
Defined.

(* ===================================================================== *)
(** * Properties of the parser *)
(* ===================================================================== *)

(** C1: on the fenced sample of the specification, extraction followed by
    parsing gives the title, the description and the one page of the
    document; so it does on the sample of the module's own test. *)
Theorem parse_extract_sample :
  parse_extracted FENCED_SAMPLE
  = Some (Return (of_string "Test Wiki", of_string "This is a test wiki.",
                  [SAMPLE_PAGE]))
  /\ parse_extracted SOURCE_SAMPLE
     = Some (Return (of_string "Test Wiki", of_string "This is a test wiki.",
                     [SAMPLE_PAGE])).
Proof. split; vm_compute; reflexivity. Qed.

(** C4, as stated, fails: an importance element that is there and empty
    gives the empty string, not ["medium"]. *)
Lemma empty_importance_is_not_medium :
  parse_wiki_structure EMPTY_IMPORTANCE_DOCUMENT
  = Some (Return ([], [], [mkPage (of_string "p1") [] [] [] [] []]))
  /\ page_importance (mkPage (of_string "p1") [] [] [] [] []) <> MEDIUM.
Proof. split; [vm_compute; reflexivity|vm_compute; discriminate]. Qed.

(** C4, amended: every page of the result comes from a page element; its
    importance is ["medium"] when that element has no importance child, and
    otherwise the text of its first importance child, which is the empty
    string when that child has no text. *)
Theorem importance_of_page (root : ET.Element) (page : Page) :
  In page (snd (parse_root root)) ->
  exists page_el,
    In page_el (ET.findall_below root (of_string "page"))
    /\ page = page_of_element page_el
    /\ ((forall c, In c (ET.children page_el) -> ET.tag c <> IMPORTANCE) ->
        page_importance page = MEDIUM)
    /\ (forall before c after,
           ET.children page_el = before ++ c :: after ->
           (forall d, In d before -> ET.tag d <> IMPORTANCE) ->
           ET.tag c = IMPORTANCE ->
           page_importance page = match ET.text c with
                                  | Some t => t
                                  | None => []
                                  end).
Proof.
  simpl. intros H. apply in_map_iff in H. destruct H as (page_el & <- & Hin).
  exists page_el. split; [exact Hin|]. split; [reflexivity|].
  unfold page_of_element, page_importance, ET.findtext, ET.find. split.
  - intros Hno. rewrite find_none; [reflexivity|].
    intros c Hc. apply eqb_neq. now apply Hno.
  - intros before c after E Hbefore Hc. rewrite E, (find_first _ before c after).
    + reflexivity.
    + intros d Hd. apply eqb_neq. now apply Hbefore.
    + apply eqb_eq. exact Hc.
Qed.

Lemma importance_of_page_witness :
  exists page_el,
    In page_el (ET.findall_below
                  (ET.Elem (of_string "wiki_structure") [] None
                     [ET.Elem (of_string "page") [] None
                        [ET.Elem IMPORTANCE [] None [] None] None] None)
                  (of_string "page"))
    /\ mkPage [] [] [] [] [] [] = page_of_element page_el
    /\ ((forall c, In c (ET.children page_el) -> ET.tag c <> IMPORTANCE) ->
        page_importance (mkPage [] [] [] [] [] []) = MEDIUM)
    /\ (forall before c after,
           ET.children page_el = before ++ c :: after ->
           (forall d, In d before -> ET.tag d <> IMPORTANCE) ->
           ET.tag c = IMPORTANCE ->
           page_importance (mkPage [] [] [] [] [] [])
           = match ET.text c with
             | Some t => t
             | None => []
             end).
Proof.
  apply (importance_of_page
           (ET.Elem (of_string "wiki_structure") [] None
              [ET.Elem (of_string "page") [] None
                 [ET.Elem IMPORTANCE [] None [] None] None] None)
           (mkPage [] [] [] [] [] [])).
  vm_compute. left. reflexivity.
Defined.

(* ===================================================================== *)
(** * Properties of the report writer *)
(* ===================================================================== *)

(** C3, as stated, fails: a failure of the operating system is not raised.
    When the output directory cannot be created (the first call fails with
    error 13), the function returns normally and logs the error. When the
    disk is full at the third write (the call number 4, error 28), it
    returns normally too, logs the error, and leaves the file with the two
    lines written before. *)
Lemma write_failure_is_not_raised :
  snd (generate_llms_txt no_repr no_title no_lower no_cased
         SAMPLE_DATA LLMS_TXT (failing_world 0 13)) = Return tt
  /\ w_log (fst (generate_llms_txt no_repr no_title no_lower no_cased
                   SAMPLE_DATA LLMS_TXT (failing_world 0 13)))
     = [error_record LLMS_TXT (OSError 13)]
  /\ snd (generate_llms_txt no_repr no_title no_lower no_cased
            SAMPLE_DATA LLMS_TXT (failing_world 4 28)) = Return tt
  /\ w_log (fst (generate_llms_txt no_repr no_title no_lower no_cased
                   SAMPLE_DATA LLMS_TXT (failing_world 4 28)))
     = [error_record LLMS_TXT (OSError 28)]
  /\ content (fst (generate_llms_txt no_repr no_title no_lower no_cased
                     SAMPLE_DATA LLMS_TXT (failing_world 4 28))) LLMS_PATH
     = of_string "# Intro" ++ [LF] ++ of_string "-------" ++ [LF; LF].
Proof. vm_compute. repeat split. Qed.

(** C3, amended: the report writer never raises. It logs exactly one
    record. Either that is the success record, and then no call to the
    operating system has failed, the stream is closed and the file holds
    the sections of all the pages; or it is an error record that carries
    the exception, which is the [OSError] of a failed call whenever a call
    has failed. *)
Theorem report_writer_outcome
    (repr : PyVal -> pystr) (uni_title : N -> pystr)
    (uni_lower : pystr -> nat -> pystr) (uni_cased : N -> bool)
    (data : list (PyVal * PyVal)) (filename : pystr) (w : world) :
  snd (generate_llms_txt repr uni_title uni_lower uni_cased data filename w)
  = Return tt
  /\ ((w_log (fst (generate_llms_txt repr uni_title uni_lower uni_cased
                     data filename w))
       = w_log w ++ [success_record filename]
       /\ no_fault w (w_calls w)
            (w_calls (fst (generate_llms_txt repr uni_title uni_lower uni_cased
                             data filename w)))
       /\ ~ In (path_join OUTPUT_DIR filename)
               (w_open (fst (generate_llms_txt repr uni_title uni_lower
                               uni_cased data filename w)))
       /\ exists texts,
           Forall2 (fun item text =>
                      is_section repr uni_title uni_lower uni_cased
                        (fst item) (snd item) text) data texts
           /\ content (fst (generate_llms_txt repr uni_title uni_lower uni_cased
                              data filename w))
                (path_join OUTPUT_DIR filename)
              = concat texts)
      \/ (exists e,
             w_log (fst (generate_llms_txt repr uni_title uni_lower uni_cased
                           data filename w))
             = w_log w ++ [error_record filename e]
             /\ ((exists n,
                     w_calls w <= n
                     < w_calls (fst (generate_llms_txt repr uni_title uni_lower
                                       uni_cased data filename w))
                     /\ w_faults w n <> None) ->
                 exists errno m,
                   e = OSError errno
                   /\ w_calls w <= m
                      < w_calls (fst (generate_llms_txt repr uni_title uni_lower
                                        uni_cased data filename w))
                   /\ w_faults w m = Some errno))).
Proof.
  rewrite generate_llms_txt_unfold.
  destruct (w_faults w (w_calls w)) as [errno|] eqn:F0.
  - unfold add_log. cbn [fst snd w_log w_calls]. split; [reflexivity|]. right.
    exists (OSError errno). split; [reflexivity|].
    intros _. exists errno, (w_calls w). repeat split; auto.
  - set (w1 := World (w_faults w) (S (w_calls w)) (OUTPUT_DIR :: w_dirs w)
                     (w_files w) (w_open w) (w_log w)).
    pose proof (run_with_open repr uni_title uni_lower uni_cased
                  (path_join OUTPUT_DIR filename) data w1) as H.
    cbv zeta in H. destruct H as (H1 & H2 & H3 & H4).
    destruct (with_open_w (path_join OUTPUT_DIR filename) _ w1) as [w2 r2].
    cbn [fst snd] in *.
    change (w_faults w1) with (w_faults w) in *.
    change (w_calls w1) with (S (w_calls w)) in *.
    change (w_log w1) with (w_log w) in *.
    assert (N0 : forall n, w_calls w <= n < S (w_calls w) -> w_faults w n = None).
    { intros n Hn. assert (n = w_calls w) by lia. now subst. }
    destruct r2 as [[]|e]; unfold add_log;
      cbn [fst snd w_log w_calls w_open w_files w_faults];
      (split; [reflexivity|]).
    + left. destruct H4 as (Hn & Hclosed & texts & Ht & Hc).
      split; [now rewrite H2|]. split; [|split; [exact Hclosed|]].
      * intros n Hr. destruct (le_lt_dec (S (w_calls w)) n) as [L|L].
        -- apply Hn. lia.
        -- apply N0. lia.
      * exists texts. split; [exact Ht|exact Hc].
    + right. exists e. split; [now rewrite H2|].
      intros (n & Hr & Hf). destruct e;
        try (exfalso; apply Hf;
             destruct (le_lt_dec (S (w_calls w)) n) as [L|L];
             [apply H4; lia|apply N0; lia]).
      destruct H4 as (m & Hm & Hfm). exists errno, m.
      repeat split; auto; lia.
Qed.

(** C9: when the writer writes the section of a page, the section is the
    layout filled with the resolved fields, in which the related pages and
    the relevant files are the word [None] when the field is absent, an
    empty list or not a list, and the entries joined by a comma and a space
    when the field is a list that is not empty. *)
Theorem list_fields_written
    (repr : PyVal -> pystr) (uni_title : N -> pystr)
    (uni_lower : pystr -> nat -> pystr) (uni_cased : N -> bool)
    (f : pystr) (page_id page_data : PyVal) (w : world) :
  snd (write_page repr uni_title uni_lower uni_cased f page_id page_data w)
  = Return tt ->
  exists d s width related files,
    page_data = VDict d /\ page_id = VStr s
    /\ content (fst (write_page repr uni_title uni_lower uni_cased f
                       page_id page_data w)) f
       = content w f
         ++ section_layout
              (py_str repr (resolved_title uni_title uni_lower uni_cased d s))
              (width + 2) (resolved_id repr d page_id)
              (capitalize uni_title uni_lower (resolved_importance repr d))
              related files (resolved_body repr d)
    /\ field_rendering d (of_string "relatedPages") related
    /\ field_rendering d (of_string "filePaths") files
    /\ of_string "None" <> [].
Proof.
  intros H. apply write_page_returns in H.
  destruct H as (text & (d & s & width & related & files
                         & -> & -> & Hw & Hr & Hf & ->) & Hc).
  exists d, s, width, related, files.
  split; [reflexivity|]. split; [reflexivity|]. split; [exact Hc|].
  split; [|split]; [now apply joined_or_none_rendering
                   |now apply joined_or_none_rendering|discriminate].
Qed.

Lemma list_fields_written_witness :
  exists d s width related files,
    VDict [(VStr (of_string "relatedPages"),
            VList [VStr (of_string "a"); VStr (of_string "b")]);
           (VStr (of_string "filePaths"), VStr (of_string "x.py"))]
    = VDict d
    /\ VStr (of_string "page-1") = VStr s
    /\ content (fst (write_page no_repr no_title no_lower no_cased LLMS_PATH
                       (VStr (of_string "page-1"))
                       (VDict [(VStr (of_string "relatedPages"),
                                VList [VStr (of_string "a"); VStr (of_string "b")]);
                               (VStr (of_string "filePaths"),
                                VStr (of_string "x.py"))])
                       fresh_world)) LLMS_PATH
       = content fresh_world LLMS_PATH
         ++ section_layout
              (py_str no_repr (resolved_title no_title no_lower no_cased d s))
              (width + 2) (resolved_id no_repr d (VStr (of_string "page-1")))
              (capitalize no_title no_lower (resolved_importance no_repr d))
              related files (resolved_body no_repr d)
    /\ field_rendering d (of_string "relatedPages") related
    /\ field_rendering d (of_string "filePaths") files
    /\ of_string "None" <> [].
Proof.
  apply (list_fields_written no_repr no_title no_lower no_cased LLMS_PATH
           (VStr (of_string "page-1"))
           (VDict [(VStr (of_string "relatedPages"),
                    VList [VStr (of_string "a"); VStr (of_string "b")]);
                   (VStr (of_string "filePaths"), VStr (of_string "x.py"))])
           fresh_world).
  vm_compute. reflexivity.
Defined.



(* ===================================================================== *)
(** * Further properties of the content normaliser *)
(* ===================================================================== *)

(** X1: the cleaned text is trimmed, its only whitespace characters are
    spaces, and no two spaces are adjacent. *)
Theorem clean_normal_form (x : pystr) :
  strip (clean_and_format_content x) = clean_and_format_content x
  /\ (forall c, In c (clean_and_format_content x) -> is_space c = true ->
                c = SPACE)
  /\ (forall a b, clean_and_format_content x <> a ++ SPACE :: SPACE :: b).
Proof.
  split; [|split].
  - rewrite clean_is_trim. apply strip_idem.
  - intros c. apply single_spaced_chars with (b := false), clean_single_spaced.
  - intros a b. apply single_spaced_no_pair with (b := false), clean_single_spaced.
Qed.

(** X2: on a text without [<], [[] and backtick the cleaning only
    normalises the whitespace: it is the whitespace substitution followed
    by the trim, and the characters that are not whitespace are kept, in
    their order. *)
Theorem clean_keeps_plain_text (x : pystr) :
  plain x = true ->
  clean_and_format_content x = strip (collapse_whitespace x)
  /\ filter (fun c => negb (is_space c)) (clean_and_format_content x)
     = filter (fun c => negb (is_space c)) x.
Proof.
  intros H. rewrite (clean_plain x H).
  apply plain_chars in H. destruct H as (_ & _ & H).
  rewrite clean_after_tags_plain by exact H. split; [reflexivity|].
  now rewrite strip_keeps, collapse_whitespace_keeps.
Qed.

Lemma clean_keeps_plain_text_witness :
  clean_and_format_content (of_string "  a > b !  c (d) ")
  = strip (collapse_whitespace (of_string "  a > b !  c (d) "))
  /\ filter (fun c => negb (is_space c))
       (clean_and_format_content (of_string "  a > b !  c (d) "))
     = filter (fun c => negb (is_space c)) (of_string "  a > b !  c (d) ").
Proof.
  apply (clean_keeps_plain_text (of_string "  a > b !  c (d) ")).
  vm_compute. reflexivity.
Defined.

(** X3: a tag between plain texts is deleted and its surroundings are
    kept: with [a], [t] and [b] free of [<], [[] and backtick, and no [>]
    in [t], cleaning [a<t>b] is cleaning [ab]. *)
Theorem clean_removes_tag (a t b : pystr) :
  plain a = true -> plain t = true -> plain b = true -> ~ In GT t ->
  clean_and_format_content (a ++ [LT] ++ t ++ [GT] ++ b)
  = clean_and_format_content (a ++ b).
Proof.
  intros Ha Ht Hb Hgt.
  assert (Hab : plain (a ++ b) = true) by (rewrite plain_app, Ha, Hb; reflexivity).
  rewrite (clean_plain (a ++ b) Hab).
  apply plain_chars in Ha. destruct Ha as (A1 & A2 & A3).
  apply plain_chars in Ht. destruct Ht as (T1 & T2 & T3).
  apply plain_chars in Hb. destruct Hb as (B1 & B2 & B3).
  set (s := a ++ [LT] ++ t ++ [GT] ++ b).
  assert (S2 : ~ In LBRACK s).
  { unfold s. rewrite !in_app_iff. simpl. intuition discriminate. }
  assert (S3 : ~ In BACKTICK s).
  { unfold s. rewrite !in_app_iff. simpl. intuition discriminate. }
  assert (E1 : remove_details s = s).
  { apply sub_without_pair with (c1 := LT) (c2 := LT); try reflexivity.
    - simpl. tauto.
    - intros x y E. unfold s in E. simpl in E.
      apply single_occurrence in E; auto.
      + destruct E as [_ ->]. rewrite in_app_iff. simpl. intuition discriminate.
      + rewrite in_app_iff. simpl. intuition discriminate. }
  rewrite clean_steps, E1, remove_sources_plain, remove_images_plain,
    unwrap_links_plain by assumption.
  unfold s. simpl. now rewrite remove_tags_one.
Qed.

Lemma clean_removes_tag_witness :
  clean_and_format_content
    (of_string "see " ++ [LT] ++ of_string "a href='x'" ++ [GT] ++ of_string "this")
  = clean_and_format_content (of_string "see " ++ of_string "this").
Proof.
  apply (clean_removes_tag (of_string "see ") (of_string "a href='x'")
           (of_string "this")); vm_compute; intuition discriminate.
Defined.

(** X4: a details block is deleted whatever it holds: with no [<] in [a]
    and no closing tag inside [inner], cleaning
    [a<details>inner</details>b] is cleaning [ab]. *)
Theorem clean_removes_details (a inner b : pystr) :
  ~ In LT a -> contains DETAILS_CLOSE inner = false ->
  clean_and_format_content (a ++ DETAILS_OPEN ++ inner ++ DETAILS_CLOSE ++ b)
  = clean_and_format_content (a ++ b).
Proof.
  intros Ha Hc. rewrite !clean_steps. now rewrite remove_details_block.
Qed.

Lemma clean_removes_details_witness :
  clean_and_format_content
    (of_string "Intro. " ++ DETAILS_OPEN
     ++ of_string "<summary>Click</summary>Hidden ![i](x) `code`"
     ++ DETAILS_CLOSE ++ of_string " Outro <b>bold</b>.")
  = clean_and_format_content
      (of_string "Intro. " ++ of_string " Outro <b>bold</b>.").
Proof.
  apply (clean_removes_details (of_string "Intro. ")
           (of_string "<summary>Click</summary>Hidden ![i](x) `code`")
           (of_string " Outro <b>bold</b>."));
    vm_compute; intuition discriminate.
Defined.

(** X5: a mermaid block between plain texts is deleted: with [a], [inner]
    and [b] free of [<], [[] and backtick, cleaning [a```mermaid inner```b]
    is cleaning [ab]. *)
Theorem clean_removes_mermaid (a inner b : pystr) :
  plain a = true -> plain inner = true -> plain b = true ->
  clean_and_format_content (a ++ MERMAID_OPEN ++ inner ++ FENCE ++ b)
  = clean_and_format_content (a ++ b).
Proof.
  intros Ha Hi Hb.
  assert (Hab : plain (a ++ b) = true) by (rewrite plain_app, Ha, Hb; reflexivity).
  rewrite (clean_plain (a ++ b) Hab).
  apply plain_chars in Ha. destruct Ha as (A1 & A2 & A3).
  apply plain_chars in Hi. destruct Hi as (I1 & I2 & I3).
  apply plain_chars in Hb. destruct Hb as (B1 & B2 & B3).
  apply plain_chars in Hab. destruct Hab as (_ & _ & AB3).
  set (s := a ++ MERMAID_OPEN ++ inner ++ FENCE ++ b).
  assert (S1 : ~ In LT s).
  { unfold s. rewrite !in_app_iff. vm_compute (In LT MERMAID_OPEN).
    vm_compute (In LT FENCE). intuition discriminate. }
  assert (S2 : ~ In LBRACK s).
  { unfold s. rewrite !in_app_iff. vm_compute (In LBRACK MERMAID_OPEN).
    vm_compute (In LBRACK FENCE). intuition discriminate. }
  rewrite clean_steps, remove_details_plain, remove_sources_no_bracket,
    remove_images_plain, unwrap_links_plain, remove_tags_plain by assumption.
  unfold clean_after_tags, s.
  rewrite remove_mermaid_block by assumption.
  now rewrite (remove_mermaid_plain (a ++ b)).
Qed.

Lemma clean_removes_mermaid_witness :
  clean_and_format_content
    (of_string "Flow: " ++ MERMAID_OPEN
     ++ ([LF] ++ of_string "graph TD;" ++ [LF] ++ of_string "A-->B;" ++ [LF])
     ++ FENCE ++ of_string " done")
  = clean_and_format_content (of_string "Flow: " ++ of_string " done").
Proof.
  apply (clean_removes_mermaid (of_string "Flow: ")
           ([LF] ++ of_string "graph TD;" ++ [LF] ++ of_string "A-->B;" ++ [LF])
           (of_string " done")); reflexivity.
Defined.

(** X6: image markup between plain texts is deleted: with [a], [alt],
    [target] and [b] free of [<], [[] and backtick, [alt] without []] and
    newline, [target] without [)] and newline, cleaning [a![alt](target)b]
    is cleaning [ab]. *)
Theorem clean_removes_image (a alt target b : pystr) :
  plain a = true -> plain alt = true -> plain target = true -> plain b = true ->
  ~ In RBRACK alt -> ~ In LF alt -> ~ In RPAREN target -> ~ In LF target ->
  clean_and_format_content
    (a ++ IMAGE_OPEN ++ alt ++ LABEL_CLOSE ++ target ++ [RPAREN] ++ b)
  = clean_and_format_content (a ++ b).
Proof.
  intros Ha Hl Ht Hb L1 L2 T1 T2.
  assert (Hab : plain (a ++ b) = true) by (rewrite plain_app, Ha, Hb; reflexivity).
  rewrite (clean_plain (a ++ b) Hab).
  apply plain_chars in Ha. destruct Ha as (A1 & A2 & A3).
  apply plain_chars in Hl. destruct Hl as (I1 & I2 & I3).
  apply plain_chars in Ht. destruct Ht as (U1 & U2 & U3).
  apply plain_chars in Hb. destruct Hb as (B1 & B2 & B3).
  set (s := a ++ IMAGE_OPEN ++ alt ++ LABEL_CLOSE ++ target ++ [RPAREN] ++ b).
  assert (S1 : ~ In LT s).
  { unfold s. rewrite !in_app_iff. vm_compute (In LT IMAGE_OPEN).
    vm_compute (In LT LABEL_CLOSE). simpl. intuition discriminate. }
  assert (S3 : ~ In BACKTICK s).
  { unfold s. rewrite !in_app_iff. vm_compute (In BACKTICK IMAGE_OPEN).
    vm_compute (In BACKTICK LABEL_CLOSE). simpl. intuition discriminate. }
  rewrite clean_steps, remove_details_plain, remove_sources_plain by assumption.
  unfold s. rewrite remove_images_one by assumption.
  apply plain_chars in Hab. destruct Hab as (AB1 & AB2 & AB3).
  now rewrite unwrap_links_plain, remove_tags_plain.
Qed.

Lemma clean_removes_image_witness :
  clean_and_format_content
    (of_string "Logo: " ++ IMAGE_OPEN ++ of_string "the logo" ++ LABEL_CLOSE
     ++ of_string "img/logo.png" ++ [RPAREN] ++ of_string " (above)")
  = clean_and_format_content (of_string "Logo: " ++ of_string " (above)").
Proof.
  apply (clean_removes_image (of_string "Logo: ") (of_string "the logo")
           (of_string "img/logo.png") (of_string " (above)"));
    vm_compute; intuition discriminate.
Defined.

(** X7: a link to an http or https address between plain texts is replaced
    by its label: with [a], [label], [host] and [b] free of [<], [[] and
    backtick, no [!] at the end of [a], [label] without []] and newline,
    [host] not empty and without whitespace and [)], cleaning
    [a[label](http://host)b] is cleaning [a label b]; so it is with
    [https]. *)
Theorem clean_unwraps_link (a label tls host b : pystr) :
  plain a = true -> plain label = true -> plain host = true -> plain b = true ->
  endswith [BANG] a = false ->
  ~ In RBRACK label -> ~ In LF label ->
  tls = [] \/ tls = of_string "s" ->
  host <> [] -> forallb url_char host = true ->
  clean_and_format_content
    (a ++ [LBRACK] ++ label ++ LINK_TARGET_OPEN ++ tls ++ SCHEME_END ++ host
     ++ [RPAREN] ++ b)
  = clean_and_format_content (a ++ label ++ b).
Proof.
  intros Ha Hl Hh Hb Hbang L1 L2 Htls Hne Hhost.
  assert (Hab : plain (a ++ label ++ b) = true)
    by (rewrite !plain_app, Ha, Hl, Hb; reflexivity).
  rewrite (clean_plain (a ++ label ++ b) Hab).
  apply plain_chars in Ha. destruct Ha as (A1 & A2 & A3).
  apply plain_chars in Hl. destruct Hl as (I1 & I2 & I3).
  apply plain_chars in Hh. destruct Hh as (U1 & U2 & U3).
  apply plain_chars in Hb. destruct Hb as (B1 & B2 & B3).
  assert (T1 : ~ In LT tls /\ ~ In LBRACK tls /\ ~ In BACKTICK tls).
  { destruct Htls as [->| ->]; vm_compute; intuition discriminate. }
  destruct T1 as (T1 & T2 & T3).
  set (r := label ++ LINK_TARGET_OPEN ++ tls ++ SCHEME_END ++ host
            ++ [RPAREN] ++ b).
  assert (R1 : ~ In LT r).
  { unfold r. rewrite !in_app_iff. vm_compute (In LT LINK_TARGET_OPEN).
    vm_compute (In LT SCHEME_END). simpl. intuition discriminate. }
  assert (R2 : ~ In LBRACK r).
  { unfold r. rewrite !in_app_iff. vm_compute (In LBRACK LINK_TARGET_OPEN).
    vm_compute (In LBRACK SCHEME_END). simpl. intuition discriminate. }
  assert (R3 : ~ In BACKTICK r).
  { unfold r. rewrite !in_app_iff. vm_compute (In BACKTICK LINK_TARGET_OPEN).
    vm_compute (In BACKTICK SCHEME_END). simpl. intuition discriminate. }
  change (a ++ [LBRACK] ++ r) with (a ++ LBRACK :: r).
  assert (S1 : ~ In LT (a ++ LBRACK :: r)).
  { rewrite in_app_iff. simpl. intuition discriminate. }
  assert (S3 : ~ In BACKTICK (a ++ LBRACK :: r)).
  { rewrite in_app_iff. simpl. intuition discriminate. }
  rewrite clean_steps, remove_details_plain, remove_sources_plain,
    remove_images_nowhere by assumption.
  change (a ++ LBRACK :: r)
    with (a ++ [LBRACK] ++ label ++ LINK_TARGET_OPEN ++ tls ++ SCHEME_END
          ++ host ++ [RPAREN] ++ b).
  rewrite unwrap_links_one by assumption.
  apply plain_chars in Hab. destruct Hab as (AB1 & AB2 & AB3).
  now rewrite remove_tags_plain.
Qed.

Lemma clean_unwraps_link_witness :
  clean_and_format_content
    (of_string "Read " ++ [LBRACK] ++ of_string "the guide" ++ LINK_TARGET_OPEN
     ++ of_string "s" ++ SCHEME_END ++ of_string "example.org/guide?x=1"
     ++ [RPAREN] ++ of_string " first.")
  = clean_and_format_content
      (of_string "Read " ++ of_string "the guide" ++ of_string " first.").
Proof.
  apply (clean_unwraps_link (of_string "Read ") (of_string "the guide")
           (of_string "s") (of_string "example.org/guide?x=1")
           (of_string " first."));
    vm_compute; intuition discriminate.
Defined.

(** X8: links of other forms pass through: a text without [<] and backtick
    that holds no image opening and no [](http] is only trimmed and
    single-spaced, so a link to a relative target keeps its brackets and
    its target. *)
Theorem clean_keeps_other_links (x : pystr) :
  ~ In LT x -> ~ In BACKTICK x ->
  contains IMAGE_OPEN x = false -> contains LINK_TARGET_OPEN x = false ->
  clean_and_format_content x = strip (collapse_whitespace x)
  /\ filter (fun c => negb (is_space c)) (clean_and_format_content x)
     = filter (fun c => negb (is_space c)) x.
Proof.
  intros H1 H2 H3 H4.
  assert (E : clean_and_format_content x = strip (collapse_whitespace x)).
  { rewrite clean_steps, remove_details_plain, remove_sources_plain,
      remove_images_none, unwrap_links_other, remove_tags_plain by assumption.
    now apply clean_after_tags_plain. }
  split; [exact E|].
  now rewrite E, strip_keeps, collapse_whitespace_keeps.
Qed.

Lemma clean_keeps_other_links_witness :
  clean_and_format_content (of_string "see [the  notes](docs/notes.md) ")
  = strip (collapse_whitespace (of_string "see [the  notes](docs/notes.md) "))
  /\ filter (fun c => negb (is_space c))
       (clean_and_format_content (of_string "see [the  notes](docs/notes.md) "))
     = filter (fun c => negb (is_space c))
         (of_string "see [the  notes](docs/notes.md) ").
Proof.
  apply (clean_keeps_other_links (of_string "see [the  notes](docs/notes.md) "));
    vm_compute; intuition discriminate.
Defined.

(** X9: a citation marker between plain texts is deleted whatever the case
    of its word: with [a] and [b] free of [<], [[] and backtick, [word]
    equal to [source] or [sources] up to ASCII case, [label] without []]
    and [<], [url] without [)] and [<], cleaning
    [a`word: [label](url)`b] is cleaning [a b]. *)
Theorem clean_removes_citation (a word label url b : pystr) :
  plain a = true -> plain b = true ->
  List.map ascii_lower word = CITE_WORD
  \/ List.map ascii_lower word = CITE_WORDS ->
  ~ In RBRACK label -> ~ In LT label -> ~ In RPAREN url -> ~ In LT url ->
  clean_and_format_content
    (a ++ [BACKTICK] ++ word ++ CITE_SEP ++ label ++ LABEL_CLOSE ++ url
     ++ CITE_CLOSE ++ b)
  = clean_and_format_content (a ++ b).
Proof.
  intros Ha Hb Hw L1 L2 U1 U2.
  assert (Hab : plain (a ++ b) = true) by (rewrite plain_app, Ha, Hb; reflexivity).
  rewrite (clean_plain (a ++ b) Hab).
  apply plain_chars in Ha. destruct Ha as (A1 & A2 & A3).
  apply plain_chars in Hb. destruct Hb as (B1 & B2 & B3).
  assert (W : ~ In LT word).
  { intros Hin. apply (in_map ascii_lower) in Hin.
    destruct Hw as [Hw|Hw]; rewrite Hw in Hin; vm_compute in Hin;
      intuition discriminate. }
  rewrite clean_steps, remove_details_plain.
  - rewrite remove_sources_one by assumption.
    apply plain_chars in Hab. destruct Hab as (AB1 & AB2 & AB3).
    now rewrite remove_images_plain, unwrap_links_plain, remove_tags_plain.
  - rewrite !in_app_iff. vm_compute (In LT [BACKTICK]).
    vm_compute (In LT CITE_SEP). vm_compute (In LT LABEL_CLOSE).
    vm_compute (In LT CITE_CLOSE). intuition discriminate.
Qed.

Lemma clean_removes_citation_witness :
  clean_and_format_content
    (of_string "shown " ++ [BACKTICK] ++ of_string "SOURCES" ++ CITE_SEP
     ++ of_string "a.py:1-9" ++ LABEL_CLOSE ++ of_string "src/a.py"
     ++ CITE_CLOSE ++ of_string " above")
  = clean_and_format_content (of_string "shown " ++ of_string " above").
Proof.
  apply (clean_removes_citation (of_string "shown ") (of_string "SOURCES")
           (of_string "a.py:1-9") (of_string "src/a.py") (of_string " above"));
    vm_compute; intuition discriminate.
Defined.

(** X10: cleaning only deletes: the characters of the cleaned text that
    are not whitespace are characters of the input, in the order of the
    input; the cleaning brings in no character but spaces. *)
Theorem clean_only_deletes (x : pystr) :
  subseq (visible (clean_and_format_content x)) (visible x)
  /\ (forall c, In c (clean_and_format_content x) -> c = SPACE \/ In c x).
Proof.
  assert (S : subseq (visible (clean_and_format_content x)) (visible x)).
  { rewrite clean_steps. unfold clean_after_tags, visible.
    rewrite strip_keeps.
    rewrite collapse_blank_lines_id
      by (eapply single_spaced_no_newline, collapse_whitespace_single_spaced).
    rewrite collapse_whitespace_keeps. apply subseq_filter.
    eapply subseq_trans; [apply sub_deletes; reflexivity|].
    eapply subseq_trans; [apply sub_deletes; reflexivity|].
    eapply subseq_trans; [apply sub_deletes; reflexivity|].
    eapply subseq_trans; [apply sub_deletes; reflexivity|].
    eapply subseq_trans; [apply sub_deletes; reflexivity|].
    apply sub_deletes; reflexivity. }
  split; [exact S|].
  intros c Hc. destruct (is_space c) eqn:Sp.
  - left. revert Hc Sp.
    apply single_spaced_chars with (b := false), clean_single_spaced.
  - right.
    assert (Hv : In c (visible (clean_and_format_content x))).
    { apply filter_In. split; [exact Hc|]. now rewrite Sp. }
    assert (G : forall a b, subseq a b -> In c a -> In c b).
    { induction 1; simpl; intuition. }
    apply (G _ _ S) in Hv. apply filter_In in Hv. tauto.
Qed.

(* ===================================================================== *)
(** * Further properties of the report writer *)
(* ===================================================================== *)

(** X11: the report writer leaves no stream open, whatever the outcome:
    when no stream on the output file is open before the call, the open
    streams after it are those of before; this holds too when a write or
    the closing call itself fails. *)
Theorem report_writer_closes_stream
    (repr : PyVal -> pystr) (uni_title : N -> pystr)
    (uni_lower : pystr -> nat -> pystr) (uni_cased : N -> bool)
    (data : list (PyVal * PyVal)) (filename : pystr) (w : world) :
  ~ In (path_join OUTPUT_DIR filename) (w_open w) ->
  w_open (fst (generate_llms_txt repr uni_title uni_lower uni_cased
                 data filename w))
  = w_open w.
Proof.
  intros H.
  destruct (generate_frame repr uni_title uni_lower uni_cased data filename w)
    as (_ & _ & [O|O]); rewrite O; [reflexivity|].
  now apply filter_absent.
Qed.

Lemma report_writer_closes_stream_witness :
  w_open (fst (generate_llms_txt no_repr no_title no_lower no_cased
                 SAMPLE_DATA LLMS_TXT (failing_world 4 28)))
  = w_open (failing_world 4 28).
Proof.
  apply (report_writer_closes_stream no_repr no_title no_lower no_cased
           SAMPLE_DATA LLMS_TXT (failing_world 4 28)).
  vm_compute. intros [].
Defined.



(** X13: a malformed entry stops the report: when the data of some entry
    is not a dict, or its key not a string, the call still returns, and the
    one record it logs is an error record, not the success record. *)
Theorem malformed_entry_is_an_error
    (repr : PyVal -> pystr) (uni_title : N -> pystr)
    (uni_lower : pystr -> nat -> pystr) (uni_cased : N -> bool)
    (data : list (PyVal * PyVal)) (filename : pystr) (w : world) :
  Exists (fun item => (forall d, snd item <> VDict d)
                      \/ (forall s, fst item <> VStr s)) data ->
  snd (generate_llms_txt repr uni_title uni_lower uni_cased data filename w)
  = Return tt
  /\ exists e,
      w_log (fst (generate_llms_txt repr uni_title uni_lower uni_cased
                    data filename w))
      = w_log w ++ [error_record filename e].
Proof.
  intros Hbad. rewrite generate_llms_txt_unfold.
  destruct (w_faults w (w_calls w)) as [errno|].
  - unfold add_log. cbn [fst snd w_log]. split; [reflexivity|]. eauto.
  - set (w1 := World (w_faults w) (S (w_calls w)) (OUTPUT_DIR :: w_dirs w)
                     (w_files w) (w_open w) (w_log w)).
    pose proof (run_with_open repr uni_title uni_lower uni_cased
                  (path_join OUTPUT_DIR filename) data w1) as H.
    cbv zeta in H. destruct H as (_ & L & _ & H).
    destruct (with_open_w (path_join OUTPUT_DIR filename) _ w1) as [w2 r2].
    cbn [fst snd] in *. change (w_log w1) with (w_log w) in L.
    destruct r2 as [[]|e]; unfold add_log; cbn [fst snd w_log]; rewrite L.
    + exfalso. destruct H as (_ & _ & texts & Ht & _).
      clear - Hbad Ht. induction Ht as [|item text data texts Hs Ht IH].
      * inversion Hbad.
      * inversion Hbad as [? ? Hb|? ? Hb]; subst; [|now apply IH].
        destruct Hs as (d & s & _ & _ & _ & Ed & Es & _).
        destruct Hb as [Hb|Hb]; [now apply (Hb d)|now apply (Hb s)].
    + split; [reflexivity|]. eauto.
Qed.

Lemma malformed_entry_is_an_error_witness :
  snd (generate_llms_txt no_repr no_title no_lower no_cased
         (SAMPLE_DATA ++ [(VStr (of_string "p2"), VStr (of_string "text"))])
         LLMS_TXT fresh_world)
  = Return tt
  /\ exists e,
      w_log (fst (generate_llms_txt no_repr no_title no_lower no_cased
                    (SAMPLE_DATA
                     ++ [(VStr (of_string "p2"), VStr (of_string "text"))])
                    LLMS_TXT fresh_world))
      = w_log fresh_world ++ [error_record LLMS_TXT e].
Proof.
  apply (malformed_entry_is_an_error no_repr no_title no_lower no_cased
           (SAMPLE_DATA ++ [(VStr (of_string "p2"), VStr (of_string "text"))])
           LLMS_TXT fresh_world).
  apply Exists_cons_tl, Exists_cons_hd. left. intros d. discriminate.
Defined.





(** X16: the title of an entry without a title is made from its key: for
    a key made of words of ASCII letters joined by hyphens, the resolved
    title is those words joined by spaces, each with its first letter in
    upper case and its other letters in lower case, whatever the Unicode
    tables. *)
Theorem default_title_of_hyphenated_id
    (uni_title : N -> pystr) (uni_lower : pystr -> nat -> pystr)
    (uni_cased : N -> bool)
    (d : list (PyVal * PyVal)) (words : list pystr) :
  dict_find d (of_string "title") = None ->
  Forall (fun w => forallb is_letter w = true) words ->
  resolved_title uni_title uni_lower uni_cased d (join [HYPHEN] words)
  = VStr (join [SPACE] (List.map capital_word words)).
Proof.
  intros Hd Hw. unfold resolved_title. rewrite dict_get_find, Hd.
  f_equal. unfold title.
  change 45%N with HYPHEN. change 32%N with SPACE.
  rewrite replace_join by exact Hw. now apply title_words.
Qed.

Lemma default_title_of_hyphenated_id_witness :
  resolved_title no_title no_lower no_cased
    [(VStr (of_string "content"), VStr (of_string "Hello"))]
    (join [HYPHEN] [of_string "getting"; of_string "STARTED"; of_string "now"])
  = VStr (join [SPACE]
            (List.map capital_word
               [of_string "getting"; of_string "STARTED"; of_string "now"])).
Proof.
  apply (default_title_of_hyphenated_id no_title no_lower no_cased
           [(VStr (of_string "content"), VStr (of_string "Hello"))]
           [of_string "getting"; of_string "STARTED"; of_string "now"]).
  - reflexivity.
  - repeat constructor.
Defined.

(* ===================================================================== *)
(** * Further properties of the parser *)
(* ===================================================================== *)

(** X17: pages are found at any depth and listed in document order: the
    record of a page element is followed at once by the records of the
    page elements nested in it, which are records of the result as well. *)
Theorem nested_pages_follow (root p : ET.Element) :
  In p (ET.findall_below root PAGE) ->
  exists before after,
    snd (parse_root root)
    = before ++ page_of_element p
        :: List.map page_of_element (ET.findall_below p PAGE) ++ after.
Proof.
  intros H. destruct (findall_block p root PAGE H) as (b & a & E).
  exists (List.map page_of_element b), (List.map page_of_element a).
  unfold parse_root. cbn [snd]. fold PAGE. rewrite E.
  now rewrite map_app, map_cons, map_app.
Qed.

Lemma nested_pages_follow_witness :
  exists before after,
    snd (parse_root
           (ET.Elem (of_string "wiki_structure") [] None
              [ET.Elem PAGE [(of_string "id", of_string "a")] None
                 [ET.Elem PAGE [(of_string "id", of_string "b")] None [] None]
                 None;
               ET.Elem PAGE [(of_string "id", of_string "c")] None [] None]
              None))
    = before
      ++ page_of_element
           (ET.Elem PAGE [(of_string "id", of_string "a")] None
              [ET.Elem PAGE [(of_string "id", of_string "b")] None [] None] None)
      :: List.map page_of_element
           (ET.findall_below
              (ET.Elem PAGE [(of_string "id", of_string "a")] None
                 [ET.Elem PAGE [(of_string "id", of_string "b")] None [] None]
                 None) PAGE)
      ++ after.
Proof.
  apply (nested_pages_follow
           (ET.Elem (of_string "wiki_structure") [] None
              [ET.Elem PAGE [(of_string "id", of_string "a")] None
                 [ET.Elem PAGE [(of_string "id", of_string "b")] None [] None]
                 None;
               ET.Elem PAGE [(of_string "id", of_string "c")] None [] None]
              None)
           (ET.Elem PAGE [(of_string "id", of_string "a")] None
              [ET.Elem PAGE [(of_string "id", of_string "b")] None [] None] None)).
  vm_compute. left. reflexivity.
Defined.

(** X18: what is listed for a nested page is listed for the pages around
    it: when a page element lies below another one, every file path and
    every related page of its record is in the record of the other. *)
Theorem nested_page_lists_are_shared (p q : ET.Element) :
  In q (ET.findall_below p PAGE) ->
  incl (page_file_paths (page_of_element q))
       (page_file_paths (page_of_element p))
  /\ incl (page_related_pages (page_of_element q))
          (page_related_pages (page_of_element p)).
Proof.
  intros H. unfold ET.findall_below in H. apply filter_In in H.
  destruct H as [H _]. unfold page_of_element. cbn [page_file_paths page_related_pages].
  split; now apply texts_below_incl.
Qed.

Lemma nested_page_lists_are_shared_witness :
  incl (page_file_paths
          (page_of_element
             (ET.Elem PAGE [] None
                [ET.Elem (of_string "file_path") [] (Some (of_string "a.py"))
                   [] None] None)))
       (page_file_paths
          (page_of_element
             (ET.Elem PAGE [] None
                [ET.Elem PAGE [] None
                   [ET.Elem (of_string "file_path") []
                      (Some (of_string "a.py")) [] None] None] None)))
  /\ incl (page_related_pages
             (page_of_element
                (ET.Elem PAGE [] None
                   [ET.Elem (of_string "file_path") []
                      (Some (of_string "a.py")) [] None] None)))
          (page_related_pages
             (page_of_element
                (ET.Elem PAGE [] None
                   [ET.Elem PAGE [] None
                      [ET.Elem (of_string "file_path") []
                         (Some (of_string "a.py")) [] None] None] None))).
Proof.
  apply (nested_page_lists_are_shared
           (ET.Elem PAGE [] None
              [ET.Elem PAGE [] None
                 [ET.Elem (of_string "file_path") [] (Some (of_string "a.py"))
                    [] None] None] None)
           (ET.Elem PAGE [] None
              [ET.Elem (of_string "file_path") [] (Some (of_string "a.py"))
                 [] None] None)).
  vm_compute. left. reflexivity.
Defined.

(** X19: the parser sees the tags, the attributes, the nesting and the
    text of the title, description, importance, file path and related
    elements, and nothing else: two documents whose trees agree on these
    (they may differ in the text between the elements, such as the
    indentation) give the same result. *)
Theorem parser_ignores_other_text (xml_text xml_text' : pystr)
    (root root' : ET.Element) :
  ET.fromstring xml_text = Some (Return root) ->
  ET.fromstring xml_text' = Some (Return root') ->
  essential root = essential root' ->
  parse_wiki_structure xml_text = parse_wiki_structure xml_text'
  /\ parse_wiki_structure xml_text = Some (Return (parse_root (essential root))).
Proof.
  intros H H' E. unfold parse_wiki_structure. rewrite H, H'.
  rewrite <- (essential_parse_root root), <- (essential_parse_root root'), E.
  auto.
Qed.

Lemma parser_ignores_other_text_witness :
  parse_wiki_structure INDENTED_DOCUMENT = parse_wiki_structure COMPACT_DOCUMENT
  /\ parse_wiki_structure INDENTED_DOCUMENT
     = Some (Return (parse_root (essential (tree_of INDENTED_DOCUMENT)))).
Proof.
  apply (parser_ignores_other_text INDENTED_DOCUMENT COMPACT_DOCUMENT
           (tree_of INDENTED_DOCUMENT) (tree_of COMPACT_DOCUMENT));
    vm_compute; reflexivity.
Defined.

(** X20: the parser reads back any document written in the vocabulary of
    the module: for a title, a description and pages whose texts need no
    escaping (the id without double quote, tab and newline, the file paths
    and related pages not empty), parsing the document written as
    [<wiki_structure><title>..</title><description>..</description><pages>
    <page id=".."><title>..</title>..</page>..</pages></wiki_structure>],
    without space between the elements, gives the title, the description
    and the pages, in their order. *)
Theorem parse_reads_back_document
    (title description : pystr) (pages : list Page) :
  plain_text title = true -> plain_text description = true ->
  Forall writable_page pages ->
  parse_wiki_structure (render_document title description pages)
  = Some (Return (title, description, pages)).
Proof.
  intros Ht Hd Hp. unfold parse_wiki_structure.
  rewrite fromstring_document by assumption.
  rewrite parse_document_element; [reflexivity|].
  eapply Forall_impl; [|exact Hp]. apply writable_listable.
Qed.

Lemma parse_reads_back_document_witness :
  parse_wiki_structure
    (render_document (of_string "Guide") []
       [mkPage (of_string "p 1") (of_string "Set up") (of_string "How to [start]")
          [] [of_string "src/a.py"; of_string "b.md"] [of_string "p2"];
        mkPage (of_string "p2") [] [] (of_string "low") [] []])
  = Some (Return (of_string "Guide", [],
                  [mkPage (of_string "p 1") (of_string "Set up")
                     (of_string "How to [start]") []
                     [of_string "src/a.py"; of_string "b.md"] [of_string "p2"];
                   mkPage (of_string "p2") [] [] (of_string "low") [] []])).
Proof.
  apply (parse_reads_back_document (of_string "Guide") []
           [mkPage (of_string "p 1") (of_string "Set up")
              (of_string "How to [start]") []
              [of_string "src/a.py"; of_string "b.md"] [of_string "p2"];
            mkPage (of_string "p2") [] [] (of_string "low") [] []]).
  - reflexivity.
  - reflexivity.
  - repeat constructor; discriminate.
Defined.

(* ===================================================================== *)
(** * Further properties of the extractor and of the whole pipeline *)
(* ===================================================================== *)

(** X21: the pipeline recovers a document from a response around it: when
    the response holds the document written in the vocabulary of the
    module, with no [<] before it and no [>] after it (a code fence, a
    sentence), extraction followed by parsing gives the title, the
    description and the pages of the document. *)
Theorem pipeline_reads_back_document
    (a b title description : pystr) (pages : list Page) :
  ~ In LT a -> ~ In GT b ->
  plain_text title = true -> plain_text description = true ->
  Forall writable_page pages ->
  parse_extracted (a ++ render_document title description pages ++ b)
  = Some (Return (title, description, pages)).
Proof.
  intros Ha Hb Ht Hd Hp. unfold parse_extracted.
  rewrite extract_document by assumption.
  unfold parse_wiki_structure. rewrite fromstring_document by assumption.
  rewrite parse_document_element; [reflexivity|].
  eapply Forall_impl; [|exact Hp]. apply writable_listable.
Qed.

Lemma pipeline_reads_back_document_witness :
  parse_extracted
    ((of_string "Here it is:" ++ [LF] ++ of_string "```xml" ++ [LF])
     ++ render_document (of_string "Guide") (of_string "All of it")
          [mkPage (of_string "p1") (of_string "Set up") [] (of_string "high")
             [of_string "src/a.py"] []]
     ++ ([LF] ++ of_string "```"))
  = Some (Return (of_string "Guide", of_string "All of it",
                  [mkPage (of_string "p1") (of_string "Set up") []
                     (of_string "high") [of_string "src/a.py"] []])).
Proof.
  apply (pipeline_reads_back_document
           (of_string "Here it is:" ++ [LF] ++ of_string "```xml" ++ [LF])
           ([LF] ++ of_string "```")
           (of_string "Guide") (of_string "All of it")
           [mkPage (of_string "p1") (of_string "Set up") [] (of_string "high")
              [of_string "src/a.py"] []]).
  - vm_compute. intuition discriminate.
  - vm_compute. intuition discriminate.
  - reflexivity.
  - reflexivity.
  - repeat constructor; discriminate.
Defined.
